(** * crash-pipeline: a shallow embedding of the merge / clean / upsert core

    The development follows the layout of the repository.

    The embedding:
    - [Values]          cells of pandas frames and stored tables, exceptions;
    - [Pandas]          column-major frames with dtypes, and the pandas
                        operations the cleaner uses;
    - [Text]            texts as the code tests them: containment, suffixes,
                        stripping of a character, the base name of a path;
    - [cleaning_rules]  src/cleaner/cleaning_rules.py;
    - [duckdb_writer]   src/cleaner/duckdb_writer.py, over a model of the
                        analytical store (catalog, tables, primary keys) and
                        of the statements the writer issues;
    - [Polars]          row frames with a schema, grouping, left join;
    - [Queue]           decoded messages and acknowledgements;
    - [Minio]           the objects of a bucket, listed and looked up;
    - [Json_text]       the JSON text of a text and of a list of texts;
    - [transformer]     the merger, the selection of the objects of a run,
                        the flattening for CSV, the job handed to the
                        cleaner and the consumer callback of
                        src/transformer/transformer.py;
    - [minio_io]        src/cleaner/minio_io.py;
    - [cleaner]         the consumer callback and the work of a run of
                        src/cleaner/cleaner.py.

    The properties: [duckdb_writer_spec], [cleaning_rules_spec],
    [transformer_spec], [orchestrator_spec]; then, over the facts of
    [Text_facts]: [identifiers_spec], [flags_spec], [object_store_spec],
    [minio_io_spec], [store_spec], [cleaning_spec], [merge_spec],
    [csv_spec], [json_spec], [handoff_spec], [pipeline_spec].

    Modelling choices.  Numbers are exact rationals kept in lowest terms,
    so that structural equality of cells is numeric equality.  Of the
    storage types, what the behaviour of the code turns on is modelled:
    [fillna] refuses a fractional value for a nullable integer column
    (Int8, Int16) that has a missing cell, the row count of the ledger must
    fit BIGINT, and the key columns of a join must be of one type.  The
    casts of the engine between column types are not modelled: a value is
    stored as the batch holds it, which is what the engine does when the
    table declares the column as the batch types it
    ([store_spec.stored_as_is]).  Of the rows one statement proposes under
    one key the engine keeps one; which one is a parameter ([chosen]), as is
    the class of the error it raises when a key is declared over rows that
    violate it ([pk_violation_exn]); the properties hold for every choice.
    Texts are byte strings; [strip] and [lower] act on the ASCII range.
    Identifiers of the store are compared as written (they are quoted by
    [qi] in every statement); names that differ by case only, which the
    engine takes for one name, are outside the model (the batches of the
    cleaner carry the lower-case names of [KEEP_COLS], and none of their
    columns is of dtype object).  Closing a connection
    and the checkpoint that precedes it do not change what the store holds
    and do not appear.  In the consumer callbacks the work of a job is a
    parameter; [cleaner.clean_run] spells out the work of the cleaner over
    a bucket given as the names of its objects, in listing order, and a
    reader of CSV files. *)

From Stdlib Require Import QArith Ascii String.
From stdpp Require Import gmap strings list fin_maps sorting.

Open Scope string_scope.
Open Scope list_scope.

(* ===================================================================== *)
(** * Cell values                                                         *)
(* ===================================================================== *)

Module Values.

(** One cell of a pandas frame or of a stored table. *)
Inductive value :=
| VNull
| VNum (q : Q)
| VStr (s : string)
| VBool (b : bool).

#[global] Instance Q_eq_dec : EqDecision Q.
Proof. solve_decision. Defined.

#[global] Instance value_eq_dec : EqDecision value.
Proof. solve_decision. Defined.

#[global] Instance value_inhabited : Inhabited value := populate VNull.

Definition is_null (v : value) : bool :=
  match v with VNull => true | _ => false end.

Definition notna (v : value) : bool := negb (is_null v).

(** A record: column name to cell.  A column that is present but empty
    holds [VNull] explicitly. *)
Abbreviation row := (gmap string value).

Definition cell (r : row) (c : string) : value := default VNull (r !! c).

Definition num_of_Z (z : Z) : value := VNum (inject_Z z).

(** The exception classes the modelled code raises or catches. *)
Inductive exn :=
| ValueError
| TypeError
| ParserException
| CatalogException
| BinderException
| ConstraintException
| ConversionException
| ColumnNotFoundError
| DuplicateError
| SchemaError.

#[global] Instance exn_eq_dec : EqDecision exn.
Proof. solve_decision. Defined.

(** A computation that returns or raises. *)
#[global] Instance result_ret : MRet (sum exn) := fun _ a => inr a.

#[global] Instance result_bind : MBind (sum exn) :=
  fun _ _ k m => match m with inl e => inl e | inr a => k a end.

#[global] Instance result_fmap : FMap (sum exn) :=
  fun _ _ f m => match m with inl e => inl e | inr a => inr (f a) end.

(** [for b in l: a = body(a, b)], left at the first exception. *)
Fixpoint fold_result {A B} (body : A -> B -> exn + A) (a : A) (l : list B) : exn + A :=
  match l with
  | [] => inr a
  | b :: l' => a' ← body a b; fold_result body a' l'
  end.

End Values.

Import Values.

(* ===================================================================== *)
(** * pandas frames                                                       *)
(* ===================================================================== *)

Module Pandas.

Inductive dtype :=
| DObject | DString | DInt64 | DFloat64 | DBool | DInt8 | DInt16 | DDatetime.

#[global] Instance dtype_eq_dec : EqDecision dtype.
Proof. solve_decision. Defined.

Record Series := mkSeries { s_dtype : dtype; s_values : list value }.

#[global] Instance Series_eq_dec : EqDecision Series.
Proof. solve_decision. Defined.

(** A frame is the ordered list of its named columns. *)
Abbreviation DataFrame := (list (string * Series)).

Definition columns (df : DataFrame) : list string := df.*1.

(** [len(df)] *)
Definition height (df : DataFrame) : nat :=
  match df with
  | [] => 0
  | (_, s) :: _ => length (s_values s)
  end.

(** [df.empty]: some axis has length zero. *)
Definition empty (df : DataFrame) : bool :=
  match df with
  | [] => true
  | _ => Nat.eqb (height df) 0
  end.

(** The i-th record of the frame. *)
Definition record (df : DataFrame) (i : nat) : row :=
  list_to_map (map (fun '(c, s) => (c, nth i (s_values s) VNull)) df).

Definition records (df : DataFrame) : list row :=
  map (record df) (seq 0 (height df)).

(** [df[c]]; the code only reads columns it has found in [df.columns]. *)
Fixpoint getitem (df : DataFrame) (c : string) : Series :=
  match df with
  | [] => mkSeries DObject []
  | cs :: df' => if bool_decide (cs.1 = c) then cs.2 else getitem df' c
  end.

(** [df[c] = s]: replaces the column in place, or appends a new one. *)
Definition setitem (df : DataFrame) (c : string) (s : Series) : DataFrame :=
  if bool_decide (c ∈ columns df)
  then map (fun cs => if bool_decide (cs.1 = c) then (c, s) else cs) df
  else df ++ [(c, s)].

(** [df.rename(columns={old: new})] *)
Definition rename (old new : string) (df : DataFrame) : DataFrame :=
  map (fun cs => if bool_decide (cs.1 = old) then (new, cs.2) else cs) df.

(** Boolean indexing of one column, [s[mask]]. *)
Fixpoint select (mask : list bool) (vs : list value) : list value :=
  match mask, vs with
  | b :: mask', v :: vs' => if b then v :: select mask' vs' else select mask' vs'
  | _, _ => []
  end.

(** [df[mask]] *)
Definition take_rows (mask : list bool) (df : DataFrame) : DataFrame :=
  map (fun cs => (cs.1, mkSeries (s_dtype cs.2) (select mask (s_values cs.2)))) df.

(** [duplicated(keep="last")] negated: a row stays when its key does not
    occur again further down (missing keys count as equal). *)
Fixpoint keep_last (keys : list value) : list bool :=
  match keys with
  | [] => []
  | k :: rest => negb (bool_decide (k ∈ rest)) :: keep_last rest
  end.

(** [df.drop_duplicates(subset=[c], keep="last")] *)
Definition drop_duplicates_last (c : string) (df : DataFrame) : DataFrame :=
  take_rows (keep_last (s_values (getitem df c))) df.

(** [df[names]] *)
Definition project (names : list string) (df : DataFrame) : DataFrame :=
  map (fun c => (c, getitem df c)) names.

Definition is_numeric_dtype (s : Series) : bool :=
  match s_dtype s with
  | DInt64 | DFloat64 | DBool | DInt8 | DInt16 => true
  | DObject | DString | DDatetime => false
  end.

Definition is_object_dtype (s : Series) : bool :=
  match s_dtype s with DObject => true | _ => false end.

(** The code asks [is_object_dtype(s) or is_string_dtype(s)]: on an object
    column the first test already answers. *)
Definition is_string_dtype (s : Series) : bool :=
  match s_dtype s with DObject | DString => true | _ => false end.

(** ** Text *)

(** The characters [str.strip()] removes (ASCII range). *)
Definition is_space (a : ascii) : bool :=
  let n := nat_of_ascii a in
  ((9 <=? n)%nat && (n <=? 13)%nat) || ((28 <=? n)%nat && (n <=? 32)%nat).

Fixpoint lstrip (s : string) : string :=
  match s with
  | String a s' => if is_space a then lstrip s' else s
  | EmptyString => EmptyString
  end.

Fixpoint rstrip (s : string) : string :=
  match s with
  | String a s' =>
    match rstrip s' with
    | EmptyString => if is_space a then EmptyString else String a EmptyString
    | t => String a t
    end
  | EmptyString => EmptyString
  end.

(** [str.strip()] *)
Definition strip (s : string) : string := rstrip (lstrip s).

Definition lower_ascii (a : ascii) : ascii :=
  let n := nat_of_ascii a in
  if (65 <=? n)%nat && (n <=? 90)%nat then ascii_of_nat (n + 32) else a.

(** [str.lower()] (ASCII range; other bytes are left as they are). *)
Fixpoint lower (s : string) : string :=
  match s with
  | String a s' => String (lower_ascii a) (lower s')
  | EmptyString => EmptyString
  end.

Definition on_text (f : string -> string) (v : value) : value :=
  match v with VStr s => VStr (f s) | _ => v end.

(** [series.str.strip()], [series.str.lower()] on a string series. *)
Definition str_strip (s : Series) : Series :=
  mkSeries (s_dtype s) (map (on_text strip) (s_values s)).

Definition str_lower (s : Series) : Series :=
  mkSeries (s_dtype s) (map (on_text lower) (s_values s)).

(** The nullable integer dtypes, [Int8] and [Int16]. *)
Definition is_nullable_integer (s : Series) : bool :=
  match s_dtype s with DInt8 | DInt16 => true | _ => false end.

Definition is_whole (v : value) : bool :=
  match v with VNum q => bool_decide (Qden (Qred q) = 1%positive) | _ => false end.

(** [series.fillna(v)]: [v] is written where the series is missing.  A
    nullable integer series that has a missing cell refuses a value that is
    not a whole number. *)
Definition fillna (v : value) (s : Series) : exn + Series :=
  if is_nullable_integer s && existsb is_null (s_values s) && negb (is_whole v)
  then inl TypeError
  else inr (mkSeries (s_dtype s) (map (fun x => if is_null x then v else x) (s_values s))).

(** ** Numbers *)

Definition as_number (v : value) : option Q :=
  match v with
  | VNum q => Some q
  | VBool b => Some (if b then 1 else 0)%Q
  | _ => None
  end.

Fixpoint insert_sorted (q : Q) (l : list Q) : list Q :=
  match l with
  | [] => [q]
  | x :: l' => if Qle_bool q x then q :: l else x :: insert_sorted q l'
  end.

Definition sort_numbers (l : list Q) : list Q := foldr insert_sorted [] l.

(** [series.median(skipna=True)]: [None] stands for NaN. *)
Definition median (s : Series) : option Q :=
  let xs := sort_numbers (omap as_number (s_values s)) in
  let n := length xs in
  if Nat.eqb n 0 then None
  else if Nat.odd n then Some (Qred (nth (n / 2) xs 0%Q))
  else Some (Qred ((nth (n / 2 - 1) xs 0 + nth (n / 2) xs 0) / 2)%Q).

End Pandas.

(* ===================================================================== *)
(** * Texts and paths                                                     *)
(* ===================================================================== *)

Module Text.

Definition dquote : ascii := "034"%char.
Definition backslash : ascii := "092"%char.
Definition slash : ascii := "/"%char.

(** [needle in s] *)
Fixpoint contains (needle s : string) : bool :=
  String.prefix needle s
  || match s with
     | String _ s' => contains needle s'
     | EmptyString => false
     end.

(** [s.endswith(suffix)] *)
Fixpoint endswith (suffix s : string) : bool :=
  bool_decide (s = suffix)
  || match s with
     | String _ s' => endswith suffix s'
     | EmptyString => false
     end.

(** [s.lstrip(chars)], [s.rstrip(chars)], [s.strip(chars)] for a one-character
    [chars]. *)
Fixpoint lstrip_char (a : ascii) (s : string) : string :=
  match s with
  | String b s' => if bool_decide (b = a) then lstrip_char a s' else s
  | EmptyString => EmptyString
  end.

Fixpoint rstrip_char (a : ascii) (s : string) : string :=
  match s with
  | String b s' =>
    match rstrip_char a s' with
    | EmptyString => if bool_decide (b = a) then EmptyString else String b EmptyString
    | t => String b t
    end
  | EmptyString => EmptyString
  end.

Definition strip_char (a : ascii) (s : string) : string := rstrip_char a (lstrip_char a s).

(** [os.path.basename(p)]: what follows the last slash. *)
Fixpoint basename (p : string) : string :=
  match p with
  | String a p' =>
    if contains "/" p' then basename p'
    else if bool_decide (a = slash) then p' else p
  | EmptyString => EmptyString
  end.

End Text.

(* ===================================================================== *)
(** * src/cleaner/cleaning_rules.py                                       *)
(* ===================================================================== *)

Module cleaning_rules.

Import Pandas.

Definition ID_COLS : list string := ["crash_record_id"; "vehicle_id"; "person_id"].

Definition NUMERIC_COLS : list string := ["posted_speed_limit"; "lane_cnt"; "street_no"].

Definition CATEGORICAL_COLS : list string :=
  ["traffic_control_device"; "device_condition"; "weather_condition";
   "lighting_condition"; "trafficway_type"; "alignment";
   "roadway_surface_cond"; "road_defect"; "street_name";
   "street_direction"; "crash_type"; "make"; "model";
   "travel_direction"; "person_type"].

Definition DATE_COL : string := "crash_date".

Definition DERIVED_DATE_COLS : list string :=
  ["crash_year"; "crash_month"; "crash_day"; "crash_hour"].

Definition KEEP_COLS : list string :=
  ID_COLS ++ NUMERIC_COLS ++ CATEGORICAL_COLS ++ DERIVED_DATE_COLS.

Definition YES_NO_TRUE_FALSE : list (string * Z) :=
  [("y", 1); ("yes", 1); ("true", 1); ("t", 1); ("1", 1);
   ("n", 0); ("no", 0); ("false", 0); ("f", 0); ("0", 0)]%Z.

(** [YES_NO_TRUE_FALSE.get(s)] *)
Definition vocabulary (s : string) : option Z :=
  (list_to_map YES_NO_TRUE_FALSE : gmap string Z) !! s.

Section Conversions.

(** The conversions pandas performs between texts, numbers and dates are
    taken as given: the text of a number, the number read from a text and
    the UTC year, month, day and hour read from a cell. *)
Variable repr_number : Q -> string.
Variable parse_number : string -> option Q.
Variable parse_datetime : value -> option (Z * Z * Z * Z).

(** [series.astype("string")] *)
Definition to_str (v : value) : value :=
  match v with
  | VNull => VNull
  | VStr s => VStr s
  | VNum q => VStr (repr_number q)
  | VBool b => VStr (if b then "True" else "False")
  end.

Definition astype_string (s : Series) : Series :=
  mkSeries DString (map to_str (s_values s)).

Definition _to_lower_stripped (series : Series) : Series :=
  str_lower (str_strip (astype_string series)).

(** [s_str.map(YES_NO_TRUE_FALSE)]: a text outside the dictionary maps to
    a missing value. *)
Definition map_vocabulary (v : value) : value :=
  match v with
  | VStr t => match vocabulary t with Some z => num_of_Z z | None => VNull end
  | _ => VNull
  end.

Definition _map_yes_no_to_int (series : Series) : Series :=
  let s_str := str_lower (str_strip (astype_string series)) in
  let mapped := mkSeries DInt8 (map map_vocabulary (s_values s_str)) in
  let nonnull := filter (fun v => notna v) (s_values mapped) in
  if (0 <? length nonnull)%nat
     && forallb (fun v => bool_decide (v ∈ [num_of_Z 0; num_of_Z 1])) nonnull
  then mapped
  else series.

Definition date_part (f : Z * Z * Z * Z -> Z) (dt : list (option (Z * Z * Z * Z)))
    : list value :=
  map (fun o => match o with Some d => num_of_Z (f d) | None => VNull end) dt.

Definition _split_crash_datetime (df : DataFrame) : DataFrame :=
  if bool_decide (DATE_COL ∈ columns df) then
    let dt := map parse_datetime (s_values (getitem df DATE_COL)) in
    let df := setitem df "crash_year" (mkSeries DInt16 (date_part (fun d => d.1.1.1) dt)) in
    let df := setitem df "crash_month" (mkSeries DInt8 (date_part (fun d => d.1.1.2) dt)) in
    let df := setitem df "crash_day" (mkSeries DInt8 (date_part (fun d => d.1.2) dt)) in
    setitem df "crash_hour" (mkSeries DInt8 (date_part (fun d => d.2) dt))
  else df.

(** [pd.to_numeric(series, errors="coerce")] *)
Definition to_number (v : value) : value :=
  match v with
  | VNull => VNull
  | VNum q => VNum q
  | VBool b => VNum (if b then 1 else 0)
  | VStr s => match parse_number s with Some q => VNum (Qred q) | None => VNull end
  end.

Definition is_integer (v : value) : bool :=
  match v with VNum q => bool_decide (Qden (Qred q) = 1%positive) | _ => false end.

Definition to_numeric (s : Series) : Series :=
  let vs := map to_number (s_values s) in
  mkSeries (if forallb is_integer vs then DInt64 else DFloat64) vs.

Definition _coerce_numeric (df : DataFrame) : DataFrame :=
  foldl (fun df c =>
           if bool_decide (c ∈ columns df) then setitem df c (to_numeric (getitem df c))
           else df)
        df NUMERIC_COLS.

Definition _normalize_text (df : DataFrame) : DataFrame :=
  foldl (fun df c =>
           if bool_decide (c ∈ ID_COLS)
           then setitem df c (str_strip (astype_string (getitem df c)))
           else if is_object_dtype (getitem df c) || is_string_dtype (getitem df c)
           then setitem df c (_to_lower_stripped (getitem df c))
           else df)
        df (columns df).

(** The test [new_s is not df[c] and str(new_s.dtype) == "Int8"]: the
    column examined is of object or string dtype, so a series of dtype Int8
    is the freshly mapped one. *)
Definition _convert_yes_no (df : DataFrame) : DataFrame * list string :=
  foldl (fun '(df, bool_cols) c =>
           if is_object_dtype (getitem df c) || is_string_dtype (getitem df c) then
             let new_s := _map_yes_no_to_int (getitem df c) in
             if bool_decide (s_dtype new_s = DInt8)
             then (setitem df c new_s, bool_cols ++ [c])
             else (df, bool_cols)
           else (df, bool_cols))
        (df, []) (columns df).

Definition _impute_missing (df : DataFrame) (bool_cols : list string) : exn + DataFrame :=
  (* numeric (but not our boolean Int8s) *)
  df ← fold_result
         (fun df c =>
            if bool_decide (c ∈ bool_cols) then inr df
            else if is_numeric_dtype (getitem df c) then
              let med := default 0%Q (median (getitem df c)) in
              s ← fillna (VNum med) (getitem df c);
              inr (setitem df c s)
            else inr df)
         df (columns df);
  (* categorical / string *)
  fold_result
    (fun df c =>
       if (is_object_dtype (getitem df c) || is_string_dtype (getitem df c))
          && negb (bool_decide (c ∈ ID_COLS))
       then s ← fillna (VStr "missing") (getitem df c); inr (setitem df c s)
       else inr df)
    df (columns df).

Definition PK : string := "crash_record_id".

(** The first alias of the key present among the columns. *)
Definition first_alias (df : DataFrame) : option string :=
  head (filter (fun alt => alt ∈ columns df) ["record_id"; "id"; "crash_id"]).

Definition pk_ok (v : value) : bool :=
  notna v && negb (bool_decide (v = VStr "")).

Definition apply_cleaning (df : DataFrame) : exn + DataFrame :=
  (* Ensure PK exists *)
  let df :=
    if bool_decide (PK ∈ columns df) then df
    else match first_alias df with
         | Some alt => rename alt PK df
         | None => df
         end in
  if negb (bool_decide (PK ∈ columns df)) then inl ValueError
  else
    (* Deduplicate on PK *)
    let df := drop_duplicates_last PK df in
    let df := _coerce_numeric df in
    let df := _normalize_text df in
    let '(df, bool_cols) := _convert_yes_no df in
    let df := _split_crash_datetime df in
    df ← _impute_missing df bool_cols;
    (* Final PK hygiene *)
    let df := setitem df PK (str_strip (astype_string (getitem df PK))) in
    let df := take_rows (map pk_ok (s_values (getitem df PK))) df in
    (* whitelist projection *)
    let keep := filter (fun c => c ∈ columns df) KEEP_COLS in
    inr (project keep df).

End Conversions.

End cleaning_rules.

(* ===================================================================== *)
(** * src/cleaner/duckdb_writer.py                                        *)
(* ===================================================================== *)

Module duckdb_writer.

Import Pandas.

(** ** Identifiers *)

Import Text.

(** [s.replace(q, q + q)] for the double quote [q]. *)
Fixpoint double_quotes (s : string) : string :=
  match s with
  | String a s' =>
    if bool_decide (a = dquote) then String dquote (String dquote (double_quotes s'))
    else String a (double_quotes s')
  | EmptyString => EmptyString
  end.

Definition qi (name : string) : string :=
  String dquote (double_quotes name +:+ String dquote EmptyString).

(** ** The store *)

Record table := mkTable {
  t_cols : list (string * string);      (* PRAGMA table_info: name, type *)
  t_pk   : option string;               (* primary-key constraint, if any *)
  t_rows : list row
}.

Abbreviation db := (gmap string table).

(** Computations on a connection: a result or an exception, and the store
    as the statements executed so far have left it (every statement
    commits on its own). *)
Definition M (A : Type) : Type := db -> (exn + A) * db.

Definition ret {A} (a : A) : M A := fun d => (inr a, d).
Definition raise {A} (e : exn) : M A := fun d => (inl e, d).
Definition bind {A B} (k : A -> M B) (m : M A) : M B :=
  fun d => match m d with
           | (inr a, d') => k a d'
           | (inl e, d') => (inl e, d')
           end.

#[global] Instance M_ret : MRet M := @ret.
#[global] Instance M_bind : MBind M := @bind.

(** [try: m except e in handled: pass] *)
Definition try_pass (handled : list exn) (m : M unit) : M unit :=
  fun d => match m d with
           | (inl e, d') => if bool_decide (e ∈ handled) then (inr tt, d') else (inl e, d')
           | r => r
           end.

Fixpoint for_each {A} (l : list A) (body : A -> M unit) : M unit :=
  match l with
  | [] => ret tt
  | a :: l' => body a ;; for_each l' body
  end.

(** ** The statements the writer issues *)

Definition col_names (t : table) : list string := (t_cols t).*1.

(** [PRAGMA table_info(t)] *)
Definition table_info (t : string) : M (list (string * string)) :=
  fun d => match d !! t with
           | Some tb => (inr (t_cols tb), d)
           | None => (inl CatalogException, d)
           end.

(** The column type the engine infers for a column of a frame without
    rows ([df.head(0)]) from its pandas dtype.  An object column has no
    dtype of its own to go by and no value to look at: the engine declares
    it INTEGER. *)
Definition duck_type (dt : dtype) : string :=
  match dt with
  | DObject => "INTEGER"
  | DString => "VARCHAR"
  | DInt64 => "BIGINT"
  | DFloat64 => "DOUBLE"
  | DBool => "BOOLEAN"
  | DInt8 => "TINYINT"
  | DInt16 => "SMALLINT"
  | DDatetime => "TIMESTAMP WITH TIME ZONE"
  end.

Definition schema_of (df : DataFrame) : list (string * string) :=
  map (fun '(c, s) => (c, duck_type (s_dtype s))) df.

(** [CREATE TABLE IF NOT EXISTS t AS SELECT * FROM <df.head(0)>] *)
Definition create_table_if_not_exists_as (t : string) (df : DataFrame) : M unit :=
  fun d => match d !! t with
           | Some _ => (inr tt, d)
           | None => (inr tt, <[t := mkTable (schema_of df) None []]> d)
           end.

Definition keys_of (pk : string) (rows : list row) : list value :=
  map (fun r => cell r pk) rows.

Definition has_null (ks : list value) : bool := existsb is_null ks.

Definition key_violation (pk : string) (rows : list row) : bool :=
  has_null (keys_of pk rows) || negb (bool_decide (NoDup (keys_of pk rows))).

(** The first row under each key, in order. *)
Fixpoint first_rows (pk : string) (seen : list value) (ps : list row) : list row :=
  match ps with
  | [] => []
  | p :: ps' =>
    if bool_decide (cell p pk ∈ seen) then first_rows pk seen ps'
    else p :: first_rows pk (cell p pk :: seen) ps'
  end.

(** The values a BIGINT column takes. *)
Definition is_bigint (z : Z) : bool := ((- 2 ^ 63 <=? z) && (z <? 2 ^ 63))%Z.

Section Engine.

(** The class of the error the engine reports when a primary key is added
    over rows that already violate it; the writer's behaviour is stated for
    every choice. *)
Variable pk_violation_exn : exn.

(** Of the rows one statement proposes under one key, the engine keeps
    one.  Which one is its choice: a position among them, which may depend
    on the rows stored.  The writer's behaviour is stated for every
    choice. *)
Variable chosen : list row -> list row -> nat.

(** [ALTER TABLE t ADD CONSTRAINT pk_t PRIMARY KEY (pk)] *)
Definition add_primary_key (t pk : string) : M unit :=
  fun d => match d !! t with
           | None => (inl CatalogException, d)
           | Some tb =>
             match t_pk tb with
             | Some _ => (inl CatalogException, d)
             | None =>
               if negb (bool_decide (pk ∈ col_names tb)) then (inl BinderException, d)
               else if key_violation pk (t_rows tb) then (inl pk_violation_exn, d)
               else (inr tt, <[t := mkTable (t_cols tb) (Some pk) (t_rows tb)]> d)
             end
           end.

(** [ALTER TABLE t ADD COLUMN c ty]: stored rows read null in the new
    column. *)
Definition add_column (t c ty : string) : M unit :=
  fun d => match d !! t with
           | None => (inl CatalogException, d)
           | Some tb =>
             if bool_decide (c ∈ col_names tb) then (inl CatalogException, d)
             else (inr tt, <[t := mkTable (t_cols tb ++ [(c, ty)]) (t_pk tb)
                                         (map (fun r => <[c := VNull]> r) (t_rows tb))]> d)
           end.

(** The row proposed for insertion ([excluded]): the listed columns come
    from the source record, every other column takes its default. *)
Definition proposed (tcols cols : list string) (defaults : row) (s : row) : row :=
  list_to_map (map (fun c => (c, if bool_decide (c ∈ cols) then cell s c
                                 else cell defaults c)) tcols).

Definition key_matches (pk : string) (k : value) (r : row) : bool :=
  bool_decide (cell r pk = k).

(** [SET c = e, ...] evaluated against the proposed row. *)
Definition apply_sets (sets : list (string * (row -> value))) (p r : row) : row :=
  foldl (fun acc ce => <[ce.1 := ce.2 p]> acc) r sets.

(** One proposed row: update on conflict (or do nothing), insert
    otherwise. *)
Definition insert_one (pk : string) (action : option (list (string * (row -> value))))
    (rows : list row) (p : row) : list row :=
  let k := cell p pk in
  if existsb (key_matches pk k) rows then
    match action with
    | None => rows
    | Some sets => map (fun r => if key_matches pk k r then apply_sets sets p r else r) rows
    end
  else rows ++ [p].

(** The row kept among the rows [same] proposed under the key of [p], the
    first of them; the engine is asked only when the key is proposed more
    than once. *)
Definition kept_of (stored same : list row) (p : row) : row :=
  match same with
  | [] | [_] => p
  | _ => default p (same !! (chosen stored same `mod` length same))
  end.

(** The rows a DO UPDATE works from: one for each proposed key, in the
    order in which the keys first occur. *)
Definition resolve (pk : string) (stored ps : list row) : list row :=
  map (fun p => kept_of stored (filter (fun q => cell q pk = cell p pk) ps) p)
      (first_rows pk [] ps).

(** [INSERT INTO t (cols) SELECT ... ON CONFLICT (target) DO action]:
    [action = None] is DO NOTHING, [Some sets] is DO UPDATE SET.  Every
    column named must exist, the conflict target must be the primary key,
    the values must convert to the types of their columns ([converts]) and
    no proposed key may be missing.  A key proposed more than once is
    accepted: under DO UPDATE one of its rows takes effect, under DO
    NOTHING the first.  The statement is atomic. *)
Definition insert_on_conflict (t : string) (cols : list string) (defaults : row)
    (src : list row) (converts : bool) (target : string)
    (action : option (list (string * (row -> value)))) : M unit :=
  fun d => match d !! t with
           | None => (inl CatalogException, d)
           | Some tb =>
             let ps := map (proposed (col_names tb) cols defaults) src in
             if negb (forallb (fun c => bool_decide (c ∈ col_names tb))
                              (cols ++ (default [] action).*1))
             then (inl BinderException, d)
             else if negb (bool_decide (t_pk tb = Some target)) then (inl BinderException, d)
             else if negb converts then (inl ConversionException, d)
             else if has_null (keys_of target ps) then (inl ConstraintException, d)
             else
               let ps := match action with
                         | Some _ => resolve target (t_rows tb) ps
                         | None => ps
                         end in
               (inr tt, <[t := mkTable (t_cols tb) (t_pk tb)
                                       (foldl (insert_one target action) (t_rows tb) ps)]> d)
           end.

(** [SELECT COUNT( * ) FROM t JOIN src s ON t.pk = s.pk] *)
Definition count_join (t pk : string) (src : list row) : M nat :=
  fun d => match d !! t with
           | None => (inl CatalogException, d)
           | Some tb =>
             if negb (bool_decide (pk ∈ col_names tb)) then (inl BinderException, d)
             else (inr (length (filter (fun '(r, s) =>
                                  cell r pk = cell s pk /\ cell r pk <> VNull)
                                (list_prod (t_rows tb) src))), d)
           end.

(** ** DuckDBWriter *)

(** The statement of [_init_meta], as the source has it, up to the
    opening parenthesis of the column list. *)
Definition init_meta_sql : list string :=
  ["CREATE"; "TABLE"; "IF"; "NOT"; "E"; "("].

(** The head of a CREATE TABLE statement: the table name it declares. *)
Definition parse_create_table (toks : list string) : option string :=
  match toks with
  | "CREATE" :: "TABLE" :: "IF" :: "NOT" :: "EXISTS" :: name :: "(" :: _ =>
    if bool_decide (name ∈ ["("; ")"; ","; ";"]) then None else Some name
  | "CREATE" :: "TABLE" :: "IF" :: _ => None
  | "CREATE" :: "TABLE" :: name :: "(" :: _ =>
    if bool_decide (name ∈ ["("; ")"; ","; ";"]) then None else Some name
  | _ => None
  end.

(** The ledger columns listed by the statement of [_init_meta]. *)
Definition meta_cols : list (string * string) :=
  [("corr_id", "TEXT"); ("table_name", "TEXT"); ("row_count", "BIGINT");
   ("processed_at", "TIMESTAMP")].

Definition _init_meta : M unit :=
  fun d => match parse_create_table init_meta_sql with
           | None => (inl ParserException, d)
           | Some name =>
             match d !! name with
             | Some _ => (inr tt, d)
             | None => (inr tt, <[name := mkTable meta_cols (Some "corr_id") []]> d)
             end
           end.

(** [DuckDBWriter(db_path)]: the constructor runs [_init_meta]. *)
Definition __init__ : M unit := _init_meta.

Definition _existing_cols (t : string) : M (list (string * string)) := table_info t.

(** The temporary table is created, read and dropped: what remains is the
    list of the frame's column types. *)
Definition _infer_df_types (df : DataFrame) : M (list (string * string)) :=
  ret (schema_of df).

Definition _ensure_table (t : string) (df : DataFrame) (pk : string) : M unit :=
  create_table_if_not_exists_as t df ;;
  try_pass [CatalogException; ConversionException] (add_primary_key t pk).

(** [dict.get(col, "TEXT")] *)
Definition get_type (inferred : list (string * string)) (c : string) : string :=
  default "TEXT" ((list_to_map inferred : gmap string string) !! c).

Definition _evolve_schema (t : string) (df : DataFrame) : M unit :=
  existing ← _existing_cols t ;
  let needed : list string :=
    filter (fun c : string => c ∉ (existing : list (string * string)).*1) (columns df) in
  if bool_decide (needed = []) then ret tt
  else
    inferred ← _infer_df_types df ;
    for_each needed (fun c => add_column t c (get_type inferred c)).

Definition upsert (t : string) (df : DataFrame) (pk : string) : M nat :=
  if empty df then ret 0
  else if negb (bool_decide (pk ∈ columns df)) then raise ValueError
  else
    _ensure_table t df pk ;;
    _evolve_schema t df ;;
    existing ← _existing_cols t ;
    let cols0 : list string :=
      filter (fun c : string => c ∈ (existing : list (string * string)).*1) (columns df) in
    let cols : list string := if bool_decide (pk ∈ cols0) then cols0 else cols0 ++ [pk] in
    let non_pk : list string := filter (fun c : string => c <> pk) cols in
    let update_set := map (fun c => (c, fun p : row => cell p c)) non_pk in
    insert_on_conflict t cols ∅ (records df) true pk
      (if bool_decide (non_pk = []) then None else Some update_set) ;;
    affected ← count_join t pk (records df) ;
    ret affected.

(** [now] is the value of [now()] when the statement runs; the row count
    must convert to BIGINT, the type of its column. *)
Definition record_run (now : Q) (corr_id table_name : string) (rows : Z) : M unit :=
  insert_on_conflict "_clean_runs" ["corr_id"; "table_name"; "row_count"]
    {[ "processed_at" := VNum now ]}
    [ {[ "corr_id" := VStr corr_id; "table_name" := VStr table_name;
         "row_count" := num_of_Z rows ]} ]
    (is_bigint rows)
    "corr_id"
    (Some [ ("table_name", fun p : row => cell p "table_name");
            ("row_count", fun p : row => cell p "row_count");
            ("processed_at", fun _ : row => VNum now) ]).

End Engine.

End duckdb_writer.

(* ===================================================================== *)
(** * polars frames                                                       *)
(* ===================================================================== *)

Module Polars.

Inductive dtype := Utf8 | Int64 | Float64 | Boolean | UInt32 | ListUtf8 | Null.

#[global] Instance dtype_eq_dec : EqDecision dtype.
Proof. solve_decision. Defined.

(** One cell: null, number, text, boolean or a list of texts. *)
Inductive pval :=
| PNull
| PNum (q : Q)
| PStr (s : string)
| PBool (b : bool)
| PList (l : list string).

#[global] Instance pval_eq_dec : EqDecision pval.
Proof. solve_decision. Defined.

#[global] Instance pval_inhabited : Inhabited pval := populate PNull.

Abbreviation prow := (gmap string pval).

Definition pcell (r : prow) (c : string) : pval := default PNull (r !! c).

(** A frame: its schema and its rows; a column of dtype [Utf8] holds texts
    and nulls. *)
Record DataFrame := mkFrame { schema : list (string * dtype); rows : list prow }.

(** [pl.DataFrame()] *)
Definition no_frame : DataFrame := mkFrame [] [].

Definition columns (df : DataFrame) : list string := (schema df).*1.

(** [df.is_empty()]: the frame has no rows. *)
Definition is_empty (df : DataFrame) : bool :=
  match rows df with [] => true | _ => false end.

(** [df.schema.get(c, default)] *)
Definition schema_get (df : DataFrame) (c : string) (d : dtype) : dtype :=
  default d ((list_to_map (schema df) : gmap string dtype) !! c).

(** First occurrences, in order. *)
Fixpoint first_by {K} `{EqDecision K} (key : prow -> K) (seen : list K)
    (rs : list prow) : list prow :=
  match rs with
  | [] => []
  | r :: rs' =>
    if bool_decide (key r ∈ seen) then first_by key seen rs'
    else r :: first_by key (key r :: seen) rs'
  end.

(** [df.rename({c: f(c) for c in df.columns})] *)
Definition rename_all (f : string -> string) (df : DataFrame) : exn + DataFrame :=
  if bool_decide (NoDup (map f (columns df))) then
    inr (mkFrame (map (fun cd => (f cd.1, cd.2)) (schema df))
                 (map (fun r : prow =>
                         list_to_map (map (fun c => (f c, pcell r c)) (columns df)))
                      (rows df)))
  else inl DuplicateError.

(** [df.unique(maintain_order=True)] *)
Definition unique (df : DataFrame) : DataFrame :=
  mkFrame (schema df) (first_by (fun r => r) [] (rows df)).

(** [df.unique(subset=[c], keep="first", maintain_order=True)]: the
    column must exist, also in a frame without rows. *)
Definition unique_subset (c : string) (df : DataFrame) : exn + DataFrame :=
  if bool_decide (c ∈ columns df)
  then inr (mkFrame (schema df) (first_by (fun r => pcell r c) [] (rows df)))
  else inl ColumnNotFoundError.

(** ** Aggregation *)

(** The order of texts: byte by byte. *)
Definition text_le (a b : string) : Prop := String.leb a b = true.

#[global] Instance text_le_dec a b : Decision (text_le a b).
Proof. unfold text_le. apply _. Defined.

#[global] Instance text_le_total : Total text_le.
Proof. intros a b. apply String.leb_total. Qed.

(** [.sort()] on texts. *)
Definition sort_texts (l : list string) : list string := merge_sort text_le l.

Definition text_of (v : pval) : option string :=
  match v with PStr s => Some s | _ => None end.

(** [pl.col(c).drop_nulls().cast(pl.Utf8).unique().sort().implode()] over
    the rows of one group. *)
Definition distinct_texts (c : string) (group : list prow) : pval :=
  PList (sort_texts (remove_dups (omap (fun r => text_of (pcell r c)) group))).

(** The keys of the groups, in order of first appearance. *)
Definition group_keys (c : string) (rs : list prow) : list pval :=
  map (fun r => pcell r c) (first_by (fun r => pcell r c) [] rs).

Definition group_of (c : string) (k : pval) (rs : list prow) : list prow :=
  filter (fun r => pcell r c = k) rs.

Definition count_value (n : nat) : pval := PNum (inject_Z (Z.of_nat n)).

(** [df.group_by(c, maintain_order=True).agg(pl.len().alias(count),
    lists...)], where [lists] pairs each output name with the text column it
    collects. *)
Definition group_by_agg (c count : string) (lists : list (string * string))
    (df : DataFrame) : exn + DataFrame :=
  if negb (bool_decide (c ∈ columns df)) then inl ColumnNotFoundError
  else if negb (bool_decide (NoDup (c :: count :: lists.*1))) then inl DuplicateError
  else
    inr (mkFrame
           ((c, schema_get df c Null) :: (count, UInt32)
              :: map (fun nc => (nc.1, ListUtf8)) lists)
           (map (fun k =>
                   let g := group_of c k (rows df) in
                   list_to_map
                     ((c, k) :: (count, count_value (length g))
                        :: map (fun nc => (nc.1, distinct_texts nc.2 g)) lists))
                (group_keys c (rows df)))).

(** ** Left join *)

(** The keys of a join must be of one dtype. *)
Definition compatible_keys (a b : dtype) : bool := bool_decide (a = b).

(** The name a column of the right frame takes in the result. *)
Definition joined_name (left_cols : list string) (c : string) : string :=
  if bool_decide (c ∈ left_cols) then c +:+ "_right" else c.

Definition right_part (left_cols : list string) (on : string)
    (right_cols : list string) (get : string -> pval) : list (string * pval) :=
  map (fun c => (joined_name left_cols c, get c))
      (filter (fun c => c <> on) right_cols).

(** [left.join(right, on=on, how="left")]: a missing key never matches. *)
Definition join_left (on : string) (left right : DataFrame) : exn + DataFrame :=
  if negb (bool_decide (on ∈ columns left)) || negb (bool_decide (on ∈ columns right))
  then inl ColumnNotFoundError
  else if negb (compatible_keys (schema_get left on Null) (schema_get right on Null))
  then inl SchemaError
  else
    let sch := schema left
               ++ map (fun cd => (joined_name (columns left) cd.1, cd.2))
                      (filter (fun cd => cd.1 <> on) (schema right)) in
    if negb (bool_decide (NoDup sch.*1)) then inl DuplicateError
    else
      inr (mkFrame sch
             (flat_map
                (fun l : prow =>
                   let ms := filter (fun r => pcell r on = pcell l on /\ pcell l on <> PNull)
                                    (rows right) in
                   match ms with
                   | [] => [list_to_map (right_part (columns left) on (columns right)
                                                    (fun _ => PNull)) ∪ l]
                   | _ => map (fun r : prow =>
                                 list_to_map (right_part (columns left) on (columns right)
                                                         (pcell r)) ∪ l) ms
                   end)
                (rows left))).

(** ** Columns *)

(** The dtype is a list, a struct or an array. *)
Definition is_nested (d : dtype) : bool :=
  match d with ListUtf8 => true | _ => false end.

(** [df.with_columns(exprs)], each expression giving the name of a text
    column and the way to compute its cells from a row: a column of that
    name is replaced where it stands, a new name is appended. *)
Definition with_columns (exprs : list (string * (prow -> pval))) (df : DataFrame)
    : exn + DataFrame :=
  if negb (bool_decide (NoDup exprs.*1)) then inl DuplicateError
  else
    inr (mkFrame
           (map (fun cd => if bool_decide (cd.1 ∈ exprs.*1) then (cd.1, Utf8) else cd)
                (schema df)
              ++ map (fun e => (e.1, Utf8))
                     (filter (fun e => e.1 ∉ columns df) exprs))
           (map (fun r : prow => list_to_map (map (fun e => (e.1, e.2 r)) exprs) ∪ r)
                (rows df))).

(** [df.drop(names)] *)
Definition drop (names : list string) (df : DataFrame) : exn + DataFrame :=
  if negb (forallb (fun n => bool_decide (n ∈ columns df)) names)
  then inl ColumnNotFoundError
  else
    inr (mkFrame (filter (fun cd => cd.1 ∉ names) (schema df))
                 (map (fun r : prow => foldl (fun acc n => delete n acc) r names) (rows df))).

End Polars.

(* ===================================================================== *)
(** * Queue messages                                                      *)
(* ===================================================================== *)

Module Queue.

(** A decoded JSON value. *)
#[local] Set Warnings "-register-all".
Inductive json :=
| JNull
| JBool (b : bool)
| JNum (z : Z)
| JStr (s : string)
| JArr (items : list json)
| JObj (fields : list (string * json)).
#[local] Set Warnings "register-all".

(** Python truth value. *)
Definition truthy (j : json) : bool :=
  match j with
  | JNull => false
  | JBool b => b
  | JNum z => negb (Z.eqb z 0)
  | JStr s => negb (bool_decide (s = ""))
  | JArr items => match items with [] => false | _ => true end
  | JObj fields => match fields with [] => false | _ => true end
  end.

Definition is_jstr (s : string) (j : json) : bool :=
  match j with JStr s' => bool_decide (s' = s) | _ => false end.

(** [d.get(k)] on the fields of an object: the last binding of a key is the
    one the decoder keeps. *)
Definition dict_get (fields : list (string * json)) (k : string) : option json :=
  snd <$> head (filter (fun kv => kv.1 = k) (reverse fields)).

(** What the broker hands to a consumer callback: the headers of the
    properties (if any) and the body as [json.loads(body.decode("utf-8"))]
    reads it, [None] when decoding or parsing raises. *)
Record delivery := mkDelivery {
  headers : option (list (string * json));
  body : option json
}.

(** What the callback tells the channel. *)
Inductive outcome :=
| Ack
| Nack (requeue : bool).

End Queue.

(* ===================================================================== *)
(** * The object store                                                    *)
(* ===================================================================== *)

Module Minio.

(** An entry of a listing. *)
Record object := mkObject { object_name : string; is_dir : bool }.

(** [client.list_objects(bucket, prefix=prefix, recursive=True)] over the
    names of the objects of the bucket, in listing order: a recursive
    listing yields the objects themselves. *)
Definition list_objects (objs : list string) (prefix : string) : list object :=
  map (fun n => mkObject n false) (filter (fun n => String.prefix prefix n = true) objs).

(** [client.stat_object(bucket, key)] returns (rather than raises). *)
Definition stat_object (objs : list string) (key : string) : bool :=
  bool_decide (key ∈ objs).

End Minio.

(* ===================================================================== *)
(** * JSON texts                                                          *)
(* ===================================================================== *)

Module Json_text.

Import Text.

Definition hex_digit (n : nat) : ascii :=
  nth n ["0"; "1"; "2"; "3"; "4"; "5"; "6"; "7"; "8"; "9"; "a"; "b"; "c"; "d"; "e"; "f"]%char
      "0"%char.

(** The replacement [json.dumps(..., ensure_ascii=False)] makes for one
    character of a text: the quote, the backslash and the control
    characters are escaped, everything else stands for itself. *)
Definition escape (a : ascii) : string :=
  let n := nat_of_ascii a in
  if bool_decide (a = dquote) then String backslash (String dquote EmptyString)
  else if bool_decide (a = backslash) then String backslash (String backslash EmptyString)
  else if bool_decide (n = 10) then String backslash "n"
  else if bool_decide (n = 13) then String backslash "r"
  else if bool_decide (n = 9) then String backslash "t"
  else if bool_decide (n = 8) then String backslash "b"
  else if bool_decide (n = 12) then String backslash "f"
  else if (n <? 32)%nat
  then String backslash
         (String "u" (String "0" (String "0"
            (String (hex_digit (n / 16)) (String (hex_digit (n mod 16)) EmptyString)))))
  else String a EmptyString.

Fixpoint escape_text (s : string) : string :=
  match s with
  | String a s' => escape a +:+ escape_text s'
  | EmptyString => EmptyString
  end.

(** [json.dumps(s, ensure_ascii=False)] for a text. *)
Definition dumps_text (s : string) : string :=
  String dquote (escape_text s +:+ String dquote EmptyString).

(** [", ".join(items)] *)
Fixpoint join_items (items : list string) : string :=
  match items with
  | [] => EmptyString
  | [s] => s
  | s :: items' => s +:+ ", " +:+ join_items items'
  end.

(** [json.dumps(l, ensure_ascii=False)] for a list of texts. *)
Definition dumps_texts (l : list string) : string :=
  "[" +:+ join_items (map dumps_text l) +:+ "]".

End Json_text.

(* ===================================================================== *)
(** * src/transformer/transformer.py                                      *)
(* ===================================================================== *)

Module transformer.

Import Polars Queue.

Definition basic_standardize (df : DataFrame) : exn + DataFrame :=
  if is_empty df then inr df
  else
    match rename_all (fun c => Pandas.lower (Pandas.strip c)) df with
    | inl e => inl e
    | inr df => inr (unique df)
    end.

Definition text_columns (df : DataFrame) (id_col : string) : list string :=
  let keep_fields := filter (fun c => c <> id_col) (columns df) in
  take 5 (filter (fun c => schema_get df c Utf8 = Utf8) keep_fields).

Definition aggregate_many_to_one (df : DataFrame) (id_col prefix : string)
    : exn + DataFrame :=
  if is_empty df then inr df
  else
    group_by_agg id_col (prefix +:+ "_count")
      (map (fun c => (prefix +:+ "_" +:+ c +:+ "_list", c)) (text_columns df id_col))
      df.

(** The inner helper of [merge_crash_vehicles_people]. *)
Definition _ensure_id (id_lower : string) (df : DataFrame) : exn + DataFrame :=
  if is_empty df || bool_decide (id_lower ∈ columns df) then inr df
  else
    match filter (fun c => Pandas.lower c = id_lower) (columns df) with
    | c :: _ => rename_all (fun c' => if bool_decide (c' = c) then id_lower else c') df
    | [] => inr df
    end.

(** [aggregate_many_to_one(df, id_lower, prefix) if (not df.is_empty() and
    id_lower in df.columns) else pl.DataFrame()] *)
Definition aggregate_if_keyed (df : DataFrame) (id_lower prefix : string)
    : exn + DataFrame :=
  if negb (is_empty df) && bool_decide (id_lower ∈ columns df)
  then aggregate_many_to_one df id_lower prefix
  else inr no_frame.

(** [if not agg.is_empty(): out = out.join(agg, on=id_lower, how="left")] *)
Definition join_if_any (id_lower : string) (out agg : DataFrame) : exn + DataFrame :=
  if negb (is_empty agg) then join_left id_lower out agg else inr out.

Definition merge_crash_vehicles_people (crashes vehicles people : DataFrame)
    (id_col : string) : exn + DataFrame :=
  crashes ← basic_standardize crashes;
  vehicles ← basic_standardize vehicles;
  people ← basic_standardize people;
  let id_lower := Pandas.lower id_col in
  crashes ← _ensure_id id_lower crashes;
  vehicles ← _ensure_id id_lower vehicles;
  people ← _ensure_id id_lower people;
  if negb (is_empty crashes) && negb (bool_decide (id_lower ∈ columns crashes))
  then inr crashes
  else
    veh_agg ← aggregate_if_keyed vehicles id_lower "veh";
    ppl_agg ← aggregate_if_keyed people id_lower "ppl";
    out ← join_if_any id_lower crashes veh_agg;
    out ← join_if_any id_lower out ppl_agg;
    unique_subset id_lower out.

(** ** Objects, CSV and the hand-over to the cleaner *)

Import Text Minio Json_text.

Definition _to_bool (s : option string) (default : bool) : bool :=
  match s with
  | None => default
  | Some s => bool_decide (Pandas.lower (Pandas.strip s) ∈ ["1"; "true"; "yes"; "y"; "on"])
  end.

Definition PREFIX : string := "crash".

Definition list_objects_recursive (objs : list string) (prefix : string) : list string :=
  map object_name (filter (fun o => is_dir o = false) (list_objects objs prefix)).

Definition _keys_for_corr (objs : list string) (prefix dataset_alias corr : string)
    : list string :=
  let base := prefix +:+ "/" +:+ dataset_alias +:+ "/" in
  let keys := list_objects_recursive objs base in
  let needle := "/corr=" +:+ corr +:+ "/" in
  filter (fun k => ((endswith ".json.gz" k || endswith ".json" k) && contains needle k)
                   = true)
         keys.

(** The key under which [run_transform_job] writes the merged CSV. *)
Definition out_key (corr : string) : string := PREFIX +:+ "/corr=" +:+ corr +:+ "/merged.csv".

Section CsvSafe.

(** The JSON text of a number or a boolean. *)
Variable dumps_scalar : pval -> string.

(** [json.dumps(_jsonable(x), ensure_ascii=False)] *)
Definition dumps (x : pval) : string :=
  match x with
  | PList l => dumps_texts l
  | PStr s => dumps_text s
  | _ => dumps_scalar x
  end.

(** [pl.col(name).map_elements(f, return_dtype=pl.String)]: nulls are
    passed over. *)
Definition map_elements (f : pval -> string) (name : string) (r : prow) : pval :=
  match pcell r name with
  | PNull => PNull
  | x => PStr (f x)
  end.

Definition make_csv_safe (df : DataFrame) : exn + DataFrame :=
  if is_empty df then inr df
  else
    let drop_cols := (filter (fun nd => is_nested nd.2 = true) (schema df)).*1 in
    let fixes := map (fun name => (name +:+ "_json", map_elements dumps name)) drop_cols in
    if bool_decide (fixes = []) then inr df
    else
      out ← with_columns fixes df;
      if bool_decide (drop_cols = []) then inr out else drop drop_cols out.

End CsvSafe.

(** The message [publish_clean_job] sends, as the consumer of the clean
    queue receives it: the corr_id in the headers and in the body. *)
Definition publish_clean_job (corr_id : json) (xform_bucket : option json) : delivery :=
  mkDelivery (Some [("corr_id", corr_id)])
             (Some (JObj [("type", JStr "clean"); ("corr_id", corr_id);
                          ("xform_bucket", default JNull xform_bucket)])).

(** ** The consumer *)

Section Consumer.

(** [XFORM_BUCKET], read from the environment. *)
Variable XFORM_BUCKET_ENV : option string.

(** The work of [run_transform_job] once the job is accepted (loading,
    merging, writing the artifact, publishing the next job): it completes
    or raises. *)
Variable transform_work : list (string * json) -> exn + unit.

Definition or_else (a b : option json) : option json :=
  match a with
  | Some j => if truthy j then a else b
  | None => b
  end.

Definition is_some_truthy (o : option json) : bool :=
  match o with Some j => truthy j | None => false end.

Definition run_transform_job (msg : list (string * json)) : exn + unit :=
  let corr := dict_get msg "corr_id" in
  let out_bucket :=
    or_else (or_else (dict_get msg "xform_bucket") (dict_get msg "clean_bucket"))
            (JStr <$> XFORM_BUCKET_ENV) in
  if negb (is_some_truthy corr) || negb (is_some_truthy out_bucket) then inl ValueError
  else transform_work msg.

Definition on_msg (d : delivery) : outcome :=
  match body d with
  | Some (JObj msg) =>
    let mtype := default (JStr "") (dict_get msg "type") in
    if negb (is_jstr "transform" mtype || is_jstr "clean" mtype) then
      (* ignoring message *)
      Ack
    else
      match run_transform_job msg with
      | inr _ => Ack
      | inl _ => Nack false
      end
  | _ => Nack false
  end.

End Consumer.

End transformer.

(* ===================================================================== *)
(** * src/cleaner/minio_io.py                                             *)
(* ===================================================================== *)

Module minio_io.

Import Text Minio.

Record MinioConfig := mkConfig {
  endpoint : string;
  access_key : string;
  secret_key : string;
  secure : bool;
  bucket : string;
  silver_prefix : string;
  silver_filename : string
}.

Definition _prefixes_for_corr (cfg : MinioConfig) (corr_id : string) : list string :=
  let base := strip_char slash (silver_prefix cfg) in
  if bool_decide (base <> "")
  then [base +:+ "/" +:+ corr_id +:+ "/"; base +:+ "/corr=" +:+ corr_id +:+ "/"]
  else [corr_id +:+ "/"; "corr=" +:+ corr_id +:+ "/"].

Definition local_path (corr_id name : string) : string :=
  "/tmp/silver/" +:+ corr_id +:+ "__" +:+ basename name.

(** [objs] are the objects of the configured bucket.  A download of an
    object that exists completes. *)
Definition download_csv_for_corr (cfg : MinioConfig) (objs : list string)
    (corr_id : string) : option string :=
  let candidates := _prefixes_for_corr cfg corr_id in
  let name := silver_filename cfg in
  (* 1) exact file match *)
  match filter (fun pref => stat_object objs (pref +:+ name) = true) candidates with
  | _ :: _ => Some (local_path corr_id name)
  | [] =>
    (* 2) any CSV under the corr folder (first one) *)
    match flat_map (fun pref =>
                      filter (fun o => endswith ".csv" (Pandas.lower (object_name o)) = true)
                             (list_objects objs pref))
                   candidates with
    | o :: _ => Some (local_path corr_id (object_name o))
    | [] => None
    end
  end.

End minio_io.

(* ===================================================================== *)
(** * src/cleaner/cleaner.py                                              *)
(* ===================================================================== *)

Module cleaner.

Import Queue.

Definition as_bool (s : option string) (default : bool) : bool :=
  match s with
  | None => default
  | Some s =>
    bool_decide (Pandas.lower (Pandas.strip s) ∈ ["1"; "true"; "t"; "yes"; "y"; "on"])
  end.

Section Consumer.

(** [str(x)] of a number or of a container. *)
Variable py_repr : json -> string.

(** [str(x)] *)
Definition py_str (j : json) : string :=
  match j with
  | JNull => "None"
  | JBool b => if b then "True" else "False"
  | JStr s => s
  | _ => py_repr j
  end.

(** The work of [handle] once a corr_id has been read (download, clean,
    upsert, ledger): it completes or raises. *)
Variable clean_work : string -> exn + unit.

Definition header_corr_id (d : delivery) : option json :=
  match headers d with
  | Some (h :: hs) => dict_get (h :: hs) "corr_id"
  | _ => None
  end.

Definition get_corr_id_from_message (d : delivery) : option string :=
  match header_corr_id d with
  | Some j => Some (py_str j)
  | None =>
    match body d with
    | Some (JObj payload) => Some (py_str (default JNull (dict_get payload "corr_id")))
    | _ => None
    end
  end.

Definition handle (d : delivery) : outcome :=
  match get_corr_id_from_message d with
  | None | Some "" => Nack false
  | Some corr_id =>
    match clean_work corr_id with
    | inr _ => Ack
    | inl _ => Nack false
    end
  end.

End Consumer.

(** ** The work of a run *)

Import Pandas cleaning_rules duckdb_writer Minio minio_io.

(** What the work of [handle] raises: the exceptions of the cleaning and of
    the store, the missing file, or an error of [pd.read_csv]. *)
Inductive failure :=
| FileNotFoundError
| ReadError
| Raised (e : exn).

Section Run.

Variable pk_violation_exn : exn.
Variable chosen : list row -> list row -> nat.
Variable repr_number : Q -> string.
Variable parse_number : string -> option Q.
Variable parse_datetime : value -> option (Z * Z * Z * Z).

(** [pd.read_csv(path)]: the frame read, [None] when it raises. *)
Variable read_csv : string -> option DataFrame.

(** The configuration of the object store, the objects of its bucket and
    the time of the run. *)
Variable cfg : MinioConfig.
Variable objs : list string.
Variable now : Q.

(** The body of the [try] of [handle]: download, read, clean, upsert,
    ledger.  The result is the number [upsert] returned. *)
Definition clean_run (corr_id : string) : db -> (failure + nat) * db :=
  fun d =>
    match download_csv_for_corr cfg objs corr_id with
    | None => (inl FileNotFoundError, d)
    | Some csv_path =>
      match read_csv csv_path with
      | None => (inl ReadError, d)
      | Some df =>
        match apply_cleaning repr_number parse_number parse_datetime df with
        | inl e => (inl (Raised e), d)
        | inr clean_df =>
          match upsert pk_violation_exn chosen "crashes" clean_df "crash_record_id" d with
          | (inl e, d1) => (inl (Raised e), d1)
          | (inr affected, d1) =>
            match record_run chosen now corr_id "crashes" (Z.of_nat (height clean_df)) d1
            with
            | (inl e, d2) => (inl (Raised e), d2)
            | (inr _, d2) => (inr affected, d2)
            end
          end
        end
      end
    end.

End Run.

End cleaner.

(* ===================================================================== *)
(** * Lists and maps                                                      *)
(* ===================================================================== *)

Module Facts.

Lemma filter_all {A} (P : A -> Prop) `{!forall x, Decision (P x)} (l : list A) :
  (forall x, x ∈ l -> P x) -> filter P l = l.
Proof.
  induction l as [|a l IH]; intros Hall; [done|].
  rewrite filter_cons_True by (apply Hall; left). f_equal. apply IH. intros. apply Hall. by right.
Qed.

Lemma filter_none {A} (P : A -> Prop) `{!forall x, Decision (P x)} (l : list A) :
  (forall x, x ∈ l -> ~ P x) -> filter P l = [].
Proof.
  induction l as [|a l IH]; intros Hall; [done|].
  rewrite filter_cons_False by (apply Hall; left). apply IH. intros. apply Hall. by right.
Qed.

Lemma lookup_tabulate {V} (f : string -> V) (l : list string) (c : string) :
  (list_to_map (map (fun c => (c, f c)) l) : gmap string V) !! c
  = if bool_decide (c ∈ l) then Some (f c) else None.
Proof.
  induction l as [|a l IH]; simpl; [done|].
  destruct (decide (a = c)) as [->|Hne].
  - rewrite lookup_insert_eq. by rewrite bool_decide_eq_true_2 by left.
  - rewrite lookup_insert_ne by done. rewrite IH.
    case_bool_decide as H1; case_bool_decide as H2; try done.
    + exfalso. apply H2. by right.
    + apply elem_of_cons in H2 as [?|?]; [congruence|done].
Qed.

Lemma foldl_fixed {A B} (f : A -> B -> A) (a : A) (l : list B) :
  (forall b, b ∈ l -> f a b = a) -> foldl f a l = a.
Proof.
  induction l as [|b l IH]; intros H; [done|].
  simpl. rewrite H by left. apply IH. intros. apply H. by right.
Qed.

Lemma foldl_pointwise {A B} (f g : A -> B -> A) (a : A) (l : list B) :
  (forall a b, f a b = g a b) -> foldl f a l = foldl g a l.
Proof.
  intros H. revert a. induction l as [|b l IH]; intros a; [done|].
  simpl. by rewrite H, IH.
Qed.

Lemma if_ext_bool {A} (P1 P2 : Prop) `{!Decision P1, !Decision P2} (x y : A) :
  (P1 <-> P2) -> (if bool_decide P1 then x else y) = (if bool_decide P2 then x else y).
Proof. intros H. by rewrite (bool_decide_ext P1 P2 H). Qed.

End Facts.

(* ===================================================================== *)
(** * Properties of the upsert store                                      *)
(* ===================================================================== *)

Module duckdb_writer_spec.

Import Facts Pandas duckdb_writer.

(** Columns of the batch the table does not have yet. *)
Definition new_columns (tb : table) (df : DataFrame) : list string :=
  filter (fun c : string => c ∉ col_names tb) (columns df).

Definition with_nulls (cs : list string) (r : row) : row :=
  foldl (fun acc c => <[c := VNull]> acc) r cs.

Definition grown (ty : string -> string) (cs : list string) (tb : table) : table :=
  mkTable (t_cols tb ++ map (fun c => (c, ty c)) cs) (t_pk tb)
          (map (with_nulls cs) (t_rows tb)).

Lemma with_nulls_new cs r c : c ∈ cs -> with_nulls cs r !! c = Some VNull.
Proof.
  unfold with_nulls. revert r. induction cs as [|c' cs IH]; intros r Hc.
  - by apply elem_of_nil in Hc.
  - simpl. destruct (decide (c ∈ cs)) as [Hin|Hnin]; [by apply IH|].
    apply elem_of_cons in Hc as [->|?]; [|done].
    clear IH. revert r. induction cs as [|c'' cs IH]; intros r; simpl.
    + apply lookup_insert_eq.
    + apply not_elem_of_cons in Hnin as [Hne Hnin].
      rewrite insert_insert_ne by done. by apply IH.
Qed.

Lemma with_nulls_old cs r c : c ∉ cs -> with_nulls cs r !! c = r !! c.
Proof.
  unfold with_nulls. revert r. induction cs as [|c' cs IH]; intros r Hc; [done|].
  apply not_elem_of_cons in Hc as [Hne Hc]. simpl.
  rewrite IH by done. by apply lookup_insert_ne.
Qed.

Lemma grown_nil ty tb : grown ty [] tb = tb.
Proof.
  destruct tb as [cs pk rs]. unfold grown. simpl. rewrite app_nil_r. f_equal.
  induction rs; simpl; [done|]. by f_equal.
Qed.

Lemma grown_cons ty c cs tb :
  grown ty cs (mkTable (t_cols tb ++ [(c, ty c)]) (t_pk tb)
                       (map (fun r => <[c := VNull]> r) (t_rows tb)))
  = grown ty (c :: cs) tb.
Proof.
  unfold grown. simpl. rewrite <- app_assoc. simpl. f_equal.
  rewrite map_map. done.
Qed.

(** ** Conflict resolution, row by row *)

Section InsertOne.

Variable K : string.
Variable sets : list (string * (row -> value)).

(** A stored row already holds what the assignments would write. *)
Definition absorbs (p r : row) : Prop :=
  forall ce, ce ∈ sets -> r !! ce.1 = Some (ce.2 p).

(** Two assignments to one column write the same value. *)
Definition functional (p : row) : Prop :=
  forall ce1 ce2, ce1 ∈ sets -> ce2 ∈ sets -> ce1.1 = ce2.1 -> ce1.2 p = ce2.2 p.

Lemma apply_sets_other p r c : c ∉ sets.*1 -> apply_sets sets p r !! c = r !! c.
Proof.
  unfold apply_sets. revert r. induction sets as [|ce l IH]; intros r Hc; [done|].
  simpl in *. apply not_elem_of_cons in Hc as [Hne Hc].
  rewrite IH by done. by apply lookup_insert_ne.
Qed.

Lemma apply_sets_absorbed p r : absorbs p r -> apply_sets sets p r = r.
Proof.
  unfold absorbs, apply_sets. revert r. induction sets as [|ce l IH]; intros r H; [done|].
  simpl. rewrite insert_id by (apply H; left). apply IH.
  intros ce' Hce'. apply H. by right.
Qed.

Lemma apply_sets_absorbs p r : functional p -> absorbs p (apply_sets sets p r).
Proof.
  unfold absorbs, functional, apply_sets. revert r.
  induction sets as [|ce l IH]; intros r Hf ce' Hce'.
  - by apply elem_of_nil in Hce'.
  - simpl. destruct (decide (ce'.1 ∈ l.*1)) as [Hin1|Hnin1].
    + apply list_elem_of_fmap in Hin1 as (ce2 & Heq & Hin2).
      rewrite Heq. rewrite (Hf ce' ce2); [|done|by right|done].
      apply IH; [|done]. intros. apply Hf; by try right.
    + apply elem_of_cons in Hce' as [->|Hin].
      * assert (forall r', foldl (fun acc ce0 => <[ce0.1:=ce0.2 p]> acc) r' l !! ce.1
                           = r' !! ce.1) as ->.
        { clear -Hnin1. induction l as [|x l IHl]; intros r'; [done|].
          simpl in *. apply not_elem_of_cons in Hnin1 as [? ?].
          rewrite IHl by done. by apply lookup_insert_ne. }
        apply lookup_insert_eq.
      * exfalso. apply Hnin1. by apply list_elem_of_fmap_2.
Qed.

Lemma key_matches_spec k (r : row) : key_matches K k r = true <-> cell r K = k.
Proof. unfold key_matches. apply bool_decide_eq_true. Qed.

Lemma existsb_key_matches k (rows : list row) :
  existsb (key_matches K k) rows = true <-> exists r, r ∈ rows /\ cell r K = k.
Proof.
  rewrite existsb_exists. split; intros (r & Hr & Hk); exists r.
  - split; [by apply list_elem_of_In|by apply key_matches_spec].
  - split; [by apply list_elem_of_In|by apply key_matches_spec].
Qed.

(** An update keeps the key of every row when the key column is not
    assigned. *)
Lemma apply_sets_key p r : K ∉ sets.*1 -> cell (apply_sets sets p r) K = cell r K.
Proof. intros H. unfold cell. by rewrite apply_sets_other. Qed.

End InsertOne.

Section Fold.

Variable K : string.
Variable action : option (list (string * (row -> value))).

Definition assignments : list (string * (row -> value)) := default [] action.

Hypothesis key_not_assigned : K ∉ assignments.*1.

(** The proposed row [p] has been taken into [rows]: some stored row
    carries its key, and every such row holds the values [p] assigns. *)
Definition settled (rows : list row) (p : row) : Prop :=
  (exists r, r ∈ rows /\ cell r K = cell p K) /\
  (forall r, r ∈ rows -> cell r K = cell p K -> absorbs assignments p r).

Lemma insert_one_settled_fixed rows p :
  settled rows p -> insert_one K action rows p = rows.
Proof.
  intros [Hex Hall]. unfold insert_one.
  apply existsb_key_matches in Hex as ->.
  destruct action as [sets|] eqn:Ha; [|done].
  rewrite <- (map_id rows) at 2. apply map_ext_in. intros r Hr%list_elem_of_In.
  destruct (key_matches K (cell p K) r) eqn:Hk; [|done].
  apply key_matches_spec in Hk. apply apply_sets_absorbed.
  specialize (Hall r Hr Hk). unfold assignments in Hall. by rewrite Ha in Hall.
Qed.

Lemma insert_one_settles rows p :
  functional assignments p -> absorbs assignments p p ->
  settled (insert_one K action rows p) p.
Proof.
  intros Hf Hself. unfold insert_one.
  destruct (existsb (key_matches K (cell p K)) rows) eqn:Hex.
  - apply existsb_key_matches in Hex as (r0 & Hr0 & Hk0).
    pose proof key_not_assigned as Hkna. unfold settled, assignments in *.
    destruct action as [sets|] eqn:Ha.
    + simpl in *. split.
      * exists (apply_sets sets p r0). split.
        -- apply list_elem_of_fmap. exists r0. split; [|done].
           simpl. by rewrite (proj2 (key_matches_spec K (cell p K) r0) Hk0).
        -- by rewrite apply_sets_key.
      * intros r' Hr' Hk'. apply list_elem_of_fmap in Hr' as (r & -> & Hr).
        destruct (key_matches K (cell p K) r) eqn:Hk.
        -- by apply apply_sets_absorbs.
        -- apply key_matches_spec in Hk'. congruence.
    + split; [by eauto|]. intros r _ _ ce Hce.
      by apply elem_of_nil in Hce.
  - split.
    + exists p. split; [|done]. apply elem_of_app. right. by apply list_elem_of_singleton.
    + intros r [Hr|Hr%list_elem_of_singleton]%elem_of_app Hk; [|by subst].
      assert (existsb (key_matches K (cell p K)) rows = true); [|congruence].
      apply existsb_key_matches. eauto.
Qed.

Lemma insert_one_keeps_settled rows p q :
  cell q K <> cell p K \/ action = None ->
  settled rows q -> settled (insert_one K action rows p) q.
Proof.
  intros Hne [(r0 & Hr0 & Hk0) Hall]. unfold insert_one.
  destruct (existsb (key_matches K (cell p K)) rows) eqn:Hex.
  - pose proof key_not_assigned as Hkna. unfold settled, assignments in *.
    destruct action as [sets|] eqn:Ha; [|by split; eauto].
    destruct Hne as [Hne|?]; [|done].
    simpl in *. split.
    + exists r0. split; [|done]. apply list_elem_of_fmap. exists r0. split; [|done].
      destruct (key_matches K (cell p K) r0) eqn:Hk; [|done].
      apply key_matches_spec in Hk. congruence.
    + intros r' Hr' Hk'. apply list_elem_of_fmap in Hr' as (r & -> & Hr).
      destruct (key_matches K (cell p K) r) eqn:Hk.
      * apply key_matches_spec in Hk. rewrite apply_sets_key in Hk' by done. congruence.
      * by apply Hall.
  - split.
    + exists r0. split; [|done]. apply elem_of_app. by left.
    + intros r [Hr|Hr%list_elem_of_singleton]%elem_of_app Hk; [by apply Hall|].
      subst r. destruct Hne as [Hne|Hnone]; [congruence|].
      intros ce Hce. unfold assignments in Hce. rewrite Hnone in Hce.
      by apply elem_of_nil in Hce.
Qed.

Lemma foldl_insert_settles ps rows0 :
  (forall p, p ∈ ps -> functional assignments p /\ absorbs assignments p p) ->
  NoDup (keys_of K ps) \/ action = None ->
  forall p, p ∈ ps -> settled (foldl (insert_one K action) rows0 ps) p.
Proof.
  induction ps as [|q ps IH] using rev_ind; intros Hps Hnd p Hp.
  - by apply elem_of_nil in Hp.
  - rewrite foldl_app. simpl.
    assert (NoDup (keys_of K ps) \/ action = None) as Hnd'.
    { destruct Hnd as [Hnd|?]; [left|by right].
      unfold keys_of in Hnd. rewrite map_app in Hnd. by apply NoDup_app in Hnd as [? _]. }
    apply elem_of_app in Hp as [Hp|Hp%list_elem_of_singleton].
    + apply insert_one_keeps_settled.
      * destruct Hnd as [Hnd|?]; [left|by right].
        unfold keys_of in Hnd. rewrite map_app in Hnd. apply NoDup_app in Hnd as (_ & Hd & _).
        intros Heq. apply (Hd (cell p K)).
        -- apply list_elem_of_fmap. by exists p.
        -- simpl. rewrite Heq. by left.
      * apply IH; [|done|done]. intros p' Hp'. apply Hps. apply elem_of_app. by left.
    + subst p. apply insert_one_settles; apply Hps; apply elem_of_app; right;
        by apply list_elem_of_singleton.
Qed.

(** Running the same proposed rows a second time changes nothing. *)
Lemma foldl_insert_idempotent ps rows0 :
  (forall p, p ∈ ps -> functional assignments p /\ absorbs assignments p p) ->
  NoDup (keys_of K ps) \/ action = None ->
  foldl (insert_one K action) (foldl (insert_one K action) rows0 ps) ps
  = foldl (insert_one K action) rows0 ps.
Proof.
  intros Hps Hnd. apply foldl_fixed. intros p Hp.
  apply insert_one_settled_fixed. by apply foldl_insert_settles.
Qed.

Lemma keys_insert_one rows p :
  keys_of K (insert_one K action rows p)
  = if existsb (key_matches K (cell p K)) rows then keys_of K rows
    else keys_of K rows ++ [cell p K].
Proof.
  pose proof key_not_assigned as Hkna. unfold insert_one, keys_of, assignments in *.
  destruct (existsb (key_matches K (cell p K)) rows); [|by rewrite map_app].
  destruct action as [sets|]; [|done]. simpl in *.
  rewrite map_map. apply map_ext. intros r.
  destruct (key_matches K (cell p K) r); [|done]. by apply apply_sets_key.
Qed.

(** The keys stay distinct and present. *)
Lemma foldl_insert_keys ps rows0 :
  key_violation K rows0 = false -> has_null (keys_of K ps) = false ->
  key_violation K (foldl (insert_one K action) rows0 ps) = false.
Proof.
  revert rows0. induction ps as [|p ps IH]; intros rows0 Hv Hn; [done|].
  simpl in *. apply orb_false_elim in Hn as [Hp Hn]. apply IH; [|done].
  unfold key_violation in *. rewrite keys_insert_one.
  destruct (existsb (key_matches K (cell p K)) rows0) eqn:Hex; [done|].
  apply orb_false_elim in Hv as [Hv1 Hv2].
  apply negb_false_iff, bool_decide_eq_true in Hv2.
  apply orb_false_intro.
  - unfold has_null in *. rewrite existsb_app, Hv1. simpl. by rewrite Hp.
  - apply negb_false_iff, bool_decide_eq_true. apply NoDup_app. split; [done|].
    split; [|apply NoDup_singleton].
    intros k Hk Hk'%list_elem_of_singleton. subst k.
    assert (existsb (key_matches K (cell p K)) rows0 = true); [|congruence].
    apply existsb_key_matches. apply list_elem_of_fmap in Hk as (r & ? & ?). eauto.
Qed.

(** A stored row whose key is not proposed keeps its place and content. *)
Lemma foldl_insert_lookup_other ps rows0 i r :
  rows0 !! i = Some r -> cell r K ∉ keys_of K ps ->
  foldl (insert_one K action) rows0 ps !! i = Some r.
Proof.
  revert rows0. induction ps as [|p ps IH]; intros rows0 Hi Hk; [done|].
  simpl in *. apply not_elem_of_cons in Hk as [Hne Hk]. apply IH; [|done].
  unfold insert_one. destruct (existsb (key_matches K (cell p K)) rows0).
  - destruct action as [sets|]; [|done].
    rewrite list_lookup_fmap, Hi. simpl.
    destruct (key_matches K (cell p K) r) eqn:Hm; [|done].
    by apply key_matches_spec in Hm.
  - by apply lookup_app_l_Some.
Qed.

End Fold.

(** ** A key proposed more than once *)

Section Resolve.

Variable chosen : list row -> list row -> nat.
Variable K : string.

Lemma first_rows_sublist seen ps p : p ∈ first_rows K seen ps -> p ∈ ps.
Proof.
  revert seen. induction ps as [|x ps IH]; intros seen Hp; [done|].
  simpl in Hp. case_bool_decide.
  - right. by eapply IH.
  - apply elem_of_cons in Hp as [->|Hp]; [by left|]. right. by eapply IH.
Qed.

Lemma first_rows_keys seen ps :
  NoDup (keys_of K (first_rows K seen ps)) /\
  (forall k, k ∈ keys_of K (first_rows K seen ps) <-> k ∈ keys_of K ps /\ k ∉ seen).
Proof.
  revert seen. induction ps as [|x ps IH]; intros seen; simpl.
  - split; [constructor|]. intros k. split; [by intros ?%elem_of_nil|].
    by intros [?%elem_of_nil _].
  - case_bool_decide as Hx.
    + destruct (IH seen) as [Hnd Hk]. split; [done|]. intros k. rewrite Hk.
      split; [intros [? ?]; split; [by right|done]|].
      intros [[->|?]%elem_of_cons ?]; [done|by split].
    + destruct (IH (cell x K :: seen)) as [Hnd Hk]. simpl. split.
      * apply NoDup_cons. split; [|done]. intros Hin%Hk. destruct Hin as [_ Hin].
        apply Hin. by left.
      * intros k. rewrite !elem_of_cons, Hk. split.
        -- intros [->|[Hin Hns]]; [by split; [left|]|].
           apply not_elem_of_cons in Hns as [? ?]. by split; [right|].
        -- intros [[->|?] ?]; [by left|].
           destruct (decide (k = cell x K)) as [->|?]; [by left|right].
           split; [done|]. by apply not_elem_of_cons.
Qed.

Lemma first_rows_distinct seen ps :
  NoDup (keys_of K ps) -> (forall k, k ∈ keys_of K ps -> k ∉ seen) ->
  first_rows K seen ps = ps.
Proof.
  revert seen. induction ps as [|x ps IH]; intros seen Hnd Hseen; [done|].
  simpl in *. apply NoDup_cons in Hnd as [Hx Hnd].
  rewrite bool_decide_eq_false_2 by (apply Hseen; left).
  f_equal. apply IH; [done|]. intros k Hk [->|Hin]%elem_of_cons; [done|].
  by apply (Hseen k); [right|].
Qed.

Lemma kept_of_in stored same p : p ∈ same -> kept_of chosen stored same p ∈ same.
Proof.
  intros Hp. unfold kept_of. destruct same as [|a [|b same]]; [done| |].
  - by apply list_elem_of_singleton in Hp as ->; left.
  - set (l := a :: b :: same) in *.
    destruct (l !! (chosen stored l `mod` length l)) as [q|] eqn:Hq; simpl.
    + by eapply list_elem_of_lookup_2.
    + apply lookup_ge_None in Hq.
      pose proof (Nat.mod_upper_bound (chosen stored l) (length l)) as Hlt.
      simpl in Hlt, Hq. lia.
Qed.

(** The rows proposed under the key of [p]. *)
Definition same_key (ps : list row) (p : row) : list row :=
  filter (fun q => cell q K = cell p K) ps.

Lemma kept_of_same stored ps p :
  p ∈ ps ->
  kept_of chosen stored (same_key ps p) p ∈ ps /\
  cell (kept_of chosen stored (same_key ps p) p) K = cell p K.
Proof.
  intros Hp.
  assert (kept_of chosen stored (same_key ps p) p ∈ same_key ps p) as Hin.
  { apply kept_of_in. by apply list_elem_of_filter. }
  by apply list_elem_of_filter in Hin as [? ?].
Qed.

Lemma keys_resolve stored ps :
  keys_of K (resolve chosen K stored ps) = keys_of K (first_rows K [] ps).
Proof.
  unfold resolve, keys_of. rewrite map_map. apply map_ext_in.
  intros p Hp%list_elem_of_In. apply first_rows_sublist in Hp.
  by apply (kept_of_same stored ps p).
Qed.

Lemma resolve_keys stored ps :
  NoDup (keys_of K (resolve chosen K stored ps)) /\
  (forall k, k ∈ keys_of K (resolve chosen K stored ps) <-> k ∈ keys_of K ps).
Proof.
  rewrite keys_resolve. destruct (first_rows_keys [] ps) as [Hnd Hk].
  split; [done|]. intros k. rewrite Hk. split; [tauto|].
  intros ?. split; [done|apply not_elem_of_nil].
Qed.

(** The rows kept are rows proposed. *)
Lemma resolve_sublist stored ps p : p ∈ resolve chosen K stored ps -> p ∈ ps.
Proof.
  unfold resolve. intros (q & -> & Hq)%list_elem_of_fmap.
  apply first_rows_sublist in Hq. by apply (kept_of_same stored ps q).
Qed.

(** A batch that proposes no key twice is taken as it is. *)
Lemma resolve_distinct stored ps :
  NoDup (keys_of K ps) -> resolve chosen K stored ps = ps.
Proof.
  intros Hnd. unfold resolve.
  rewrite first_rows_distinct by (done || intros; apply not_elem_of_nil).
  rewrite <- (map_id ps) at 2. apply map_ext_in. intros p Hp%list_elem_of_In.
  assert (filter (fun q : row => cell q K = cell p K) ps = [p]) as ->; [|done].
  clear stored. induction ps as [|x ps IH]; [by apply elem_of_nil in Hp|].
  simpl in Hnd. apply NoDup_cons in Hnd as [Hx Hnd].
  apply elem_of_cons in Hp as [->|Hp].
  - rewrite filter_cons_True by done. f_equal. apply filter_none.
    intros q Hq Heq. apply Hx. rewrite <- Heq. apply list_elem_of_fmap. by exists q.
  - rewrite filter_cons_False; [by apply IH|].
    intros Heq. apply Hx. rewrite Heq. apply list_elem_of_fmap. by exists p.
Qed.

Lemma has_null_sub (ks ks' : list value) :
  (forall k, k ∈ ks' -> k ∈ ks) -> has_null ks = false -> has_null ks' = false.
Proof.
  intros Hsub H. destruct (has_null ks') eqn:E; [|done].
  apply existsb_exists in E as (k & Hk%list_elem_of_In & Hn).
  assert (has_null ks = true); [|congruence].
  apply existsb_exists. exists k. split; [|done]. by apply list_elem_of_In, Hsub.
Qed.

(** The rows an insertion works from. *)
Definition kept (action : option (list (string * (row -> value))))
    (stored ps : list row) : list row :=
  match action with
  | Some _ => resolve chosen K stored ps
  | None => ps
  end.

Lemma kept_distinct action stored ps :
  NoDup (keys_of K (kept action stored ps)) \/ action = None.
Proof. destruct action; [left; apply resolve_keys|by right]. Qed.

Lemma kept_sublist action stored ps p : p ∈ kept action stored ps -> p ∈ ps.
Proof. destruct action; [apply resolve_sublist|done]. Qed.

Lemma kept_keys action stored ps k :
  k ∈ keys_of K (kept action stored ps) <-> k ∈ keys_of K ps.
Proof. destruct action; [apply resolve_keys|done]. Qed.

Lemma kept_no_null action stored ps :
  has_null (keys_of K ps) = false -> has_null (keys_of K (kept action stored ps)) = false.
Proof. apply has_null_sub. intros k. by rewrite kept_keys. Qed.

Lemma kept_plain action stored ps :
  NoDup (keys_of K ps) -> kept action stored ps = ps.
Proof. intros Hnd. destruct action; [by apply resolve_distinct|done]. Qed.

End Resolve.

Section Writer.
Variable pkx : exn.
Variable chosen : list row -> list row -> nat.

Lemma for_each_add_column_ok ty t cs (d d' : db) tb :
  d !! t = Some tb ->
  for_each cs (fun c => add_column t c (ty c)) d = (inr tt, d') ->
  d' = <[t := grown ty cs tb]> d /\ NoDup cs /\ (forall c, c ∈ cs -> c ∉ col_names tb).
Proof.
  revert d tb. induction cs as [|c cs IH]; intros d tb Ht H.
  - simpl in H. inversion H; subst. rewrite grown_nil.
    split; [by rewrite insert_id|]. split; [constructor|]. intros c Hc. by apply elem_of_nil in Hc.
  - simpl in H. unfold mbind, M_bind, bind in H.
    unfold add_column in H at 1. rewrite Ht in H.
    case_bool_decide as Hc; [done|].
    apply IH with (tb := mkTable (t_cols tb ++ [(c, ty c)]) (t_pk tb)
                       (map (fun r => <[c := VNull]> r) (t_rows tb))) in H.
    2:{ apply lookup_insert_eq. }
    destruct H as (-> & Hnd & Hnew).
    rewrite insert_insert_eq, grown_cons. split; [done|].
    assert (c ∉ cs) as Hccs.
    { intros Hin. apply Hnew in Hin. apply Hin. unfold col_names. simpl.
      rewrite fmap_app. apply elem_of_app. right. simpl. by apply list_elem_of_singleton. }
    split; [by constructor|].
    intros c' Hc'. apply elem_of_cons in Hc' as [->|Hc']; [done|].
    apply Hnew in Hc'. intros Hin. apply Hc'. unfold col_names. simpl.
    rewrite fmap_app. apply elem_of_app. by left.
Qed.

Lemma col_names_grown ty cs tb : col_names (grown ty cs tb) = col_names tb ++ cs.
Proof.
  unfold col_names, grown. simpl. rewrite fmap_app. f_equal.
  induction cs; simpl; [done|]. by f_equal.
Qed.

(** The table [_ensure_table] works on: the stored one, or the empty table
    created from the frame. *)
Definition ensured (t : string) (df : DataFrame) (d : db) : table :=
  default (mkTable (schema_of df) None []) (d !! t).

Lemma ensure_table_inv t df pk (d d1 : db) r :
  _ensure_table pkx t df pk d = (r, d1) ->
  exists tb1, d1 = <[t := tb1]> d /\
    t_cols tb1 = t_cols (ensured t df d) /\
    t_rows tb1 = t_rows (ensured t df d) /\
    (t_pk tb1 = t_pk (ensured t df d) \/ t_pk tb1 = Some pk).
Proof.
  unfold _ensure_table, ensured, mbind, M_bind, bind, create_table_if_not_exists_as,
    try_pass, add_primary_key.
  destruct (d !! t) as [tb|] eqn:Ht; simpl.
  - rewrite Ht. destruct (t_pk tb) eqn:Hpk; simpl.
    + intros [= <- <-]. exists tb. rewrite insert_id by done. eauto.
    + repeat case_bool_decide; simpl; destruct (key_violation pk (t_rows tb)); simpl;
        repeat case_bool_decide; intros [= <- <-];
        first [ exists tb; rewrite insert_id by done; by eauto
              | eexists; split; [reflexivity|]; simpl; by eauto ].
  - rewrite lookup_insert_eq. simpl.
    repeat case_bool_decide; simpl; intros [= <- <-];
      first [ eexists; split; [reflexivity|]; simpl; by eauto
            | eexists; split; [by rewrite insert_insert_eq|]; simpl; by eauto ].
Qed.

Definition col_type (df : DataFrame) (c : string) : string := get_type (schema_of df) c.

Lemma evolve_schema_inv t df (d d2 : db) tb :
  d !! t = Some tb ->
  _evolve_schema t df d = (inr tt, d2) ->
  d2 = <[t := grown (col_type df) (new_columns tb df) tb]> d /\ NoDup (new_columns tb df).
Proof.
  intros Ht. unfold _evolve_schema, _existing_cols, table_info, mbind, M_bind, bind.
  rewrite Ht. fold (col_names tb). fold (new_columns tb df).
  case_bool_decide as Hn.
  - intros [= <-]. rewrite Hn, grown_nil. split; [by rewrite insert_id|constructor].
  - unfold _infer_df_types, ret. intros H.
    apply for_each_add_column_ok with (tb := tb) (ty := col_type df) in H; [|done].
    tauto.
Qed.

Lemma for_each_add_column_total ty t cs (d : db) tb :
  d !! t = Some tb -> NoDup cs -> (forall c, c ∈ cs -> c ∉ col_names tb) ->
  for_each cs (fun c => add_column t c (ty c)) d = (inr tt, <[t := grown ty cs tb]> d).
Proof.
  revert d tb. induction cs as [|c cs IH]; intros d tb Ht Hnd Hnew.
  - simpl. rewrite grown_nil. by rewrite insert_id.
  - simpl. unfold mbind, M_bind, bind. unfold add_column at 1. rewrite Ht.
    rewrite bool_decide_eq_false_2 by (apply Hnew; left).
    inversion Hnd; subst.
    erewrite IH; [|apply lookup_insert_eq|done|].
    + by rewrite insert_insert_eq, grown_cons.
    + intros c' Hc'. unfold col_names. simpl. rewrite fmap_app.
      intros [?| Hin%list_elem_of_singleton]%elem_of_app.
      * eapply Hnew; [right; done|done].
      * simpl in Hin. congruence.
Qed.

Lemma evolve_schema_total t df (d : db) tb :
  d !! t = Some tb -> NoDup (columns df) ->
  _evolve_schema t df d = (inr tt, <[t := grown (col_type df) (new_columns tb df) tb]> d).
Proof.
  intros Ht Hnd. unfold _evolve_schema, _existing_cols, table_info, mbind, M_bind, bind.
  rewrite Ht. fold (col_names tb). fold (new_columns tb df).
  case_bool_decide as Hn.
  - rewrite Hn, grown_nil. by rewrite insert_id.
  - unfold _infer_df_types, ret. fold (col_type df).
    apply for_each_add_column_total; [done|by apply NoDup_filter|].
    intros c Hc. unfold new_columns in Hc. apply list_elem_of_filter in Hc. tauto.
Qed.

Definition non_pk (df : DataFrame) (pk : string) : list string :=
  filter (fun c : string => c <> pk) (columns df).

Definition upsert_action (df : DataFrame) (pk : string)
    : option (list (string * (row -> value))) :=
  if bool_decide (non_pk df pk = []) then None
  else Some (map (fun c => (c, fun p : row => cell p c)) (non_pk df pk)).

Definition proposed_rows (tb : table) (df : DataFrame) : list row :=
  map (proposed (col_names tb) (columns df) ∅) (records df).

(** The table after the row-level upsert of the batch. *)
Definition upserted (tb : table) (df : DataFrame) (pk : string) : table :=
  mkTable (t_cols tb) (t_pk tb)
          (foldl (insert_one pk (upsert_action df pk)) (t_rows tb)
                 (kept chosen pk (upsert_action df pk) (t_rows tb) (proposed_rows tb df))).

Definition evolved (tb : table) (df : DataFrame) : table :=
  grown (col_type df) (new_columns tb df) tb.

Lemma upsert_inv t df pk (d d' : db) n :
  empty df = false ->
  upsert pkx chosen t df pk d = (inr n, d') ->
  exists tb1,
    t_cols tb1 = t_cols (ensured t df d) /\
    t_rows tb1 = t_rows (ensured t df d) /\
    t_pk tb1 = Some pk /\
    pk ∈ columns df /\
    has_null (keys_of pk (proposed_rows (evolved tb1 df) df)) = false /\
    d' = <[t := upserted (evolved tb1 df) df pk]> d.
Proof.
  intros He. unfold upsert. rewrite He.
  case_bool_decide as Hpk; simpl; [|done].
  unfold mbind, M_bind, bind.
  destruct (_ensure_table pkx t df pk d) as [[e|[]] d1] eqn:E1; [done|].
  apply ensure_table_inv in E1 as (tb1 & -> & Hc1 & Hr1 & Hpk1).
  destruct (_evolve_schema t df (<[t:=tb1]> d)) as [[e|[]] d2] eqn:E2; [done|].
  apply evolve_schema_inv with (tb := tb1) in E2 as [-> Hnd]; [|apply lookup_insert_eq].
  rewrite insert_insert_eq. fold (evolved tb1 df).
  unfold _existing_cols, table_info. rewrite lookup_insert_eq.
  fold (col_names (evolved tb1 df)).
  rewrite (filter_all (fun c : string => c ∈ col_names (evolved tb1 df))).
  2:{ intros c Hc. unfold evolved. rewrite col_names_grown. apply elem_of_app.
      destruct (decide (c ∈ col_names tb1)); [by left|right].
      unfold new_columns. by apply list_elem_of_filter. }
  rewrite (bool_decide_eq_true_2 _ Hpk).
  fold (non_pk df pk). fold (upsert_action df pk).
  unfold insert_on_conflict. rewrite lookup_insert_eq. fold (proposed_rows (evolved tb1 df) df).
  destruct (negb (forallb _ _)); [done|].
  case_bool_decide as Hpk2; simpl; [|done].
  destruct (has_null _) eqn:Hnull; [done|].
  rewrite insert_insert_eq. unfold count_join. rewrite lookup_insert_eq.
  destruct (negb (bool_decide (pk ∈ _))); [done|].
  unfold ret. intros [= _ <-]. exists tb1.
  repeat split; done.
Qed.

Lemma proposed_lookup tcols cols defaults s c :
  c ∈ tcols ->
  proposed tcols cols defaults s !! c
  = Some (if bool_decide (c ∈ cols) then cell s c else cell defaults c).
Proof.
  intros Hc. unfold proposed.
  rewrite (lookup_tabulate (fun c => if bool_decide (c ∈ cols) then cell s c
                                     else cell defaults c)).
  by rewrite bool_decide_eq_true_2.
Qed.

Lemma cell_proposed tcols cols defaults s c :
  c ∈ tcols ->
  cell (proposed tcols cols defaults s) c
  = if bool_decide (c ∈ cols) then cell s c else cell defaults c.
Proof. intros Hc. unfold cell at 1. by rewrite proposed_lookup. Qed.

Lemma columns_in_evolved tb df c : c ∈ columns df -> c ∈ col_names (evolved tb df).
Proof.
  intros Hc. unfold evolved. rewrite col_names_grown. apply elem_of_app.
  destruct (decide (c ∈ col_names tb)); [by left|right].
  unfold new_columns. by apply list_elem_of_filter.
Qed.

Lemma upsert_action_ok tb df pk :
  (pk ∉ (assignments (upsert_action df pk)).*1) /\
  (forall p, p ∈ proposed_rows (evolved tb df) df ->
     functional (assignments (upsert_action df pk)) p /\
     absorbs (assignments (upsert_action df pk)) p p).
Proof.
  unfold assignments, upsert_action. case_bool_decide as Hn; simpl.
  { split; [apply not_elem_of_nil|]. intros p _. split.
    - intros ? ? H. by apply elem_of_nil in H.
    - intros ? H. by apply elem_of_nil in H. }
  split.
  - rewrite <- list_fmap_compose. simpl. rewrite list_fmap_id.
    unfold non_pk. intros H%list_elem_of_filter. tauto.
  - intros p Hp. split.
    + intros ce1 ce2 (c1 & -> & _)%list_elem_of_fmap (c2 & -> & _)%list_elem_of_fmap.
      simpl. by intros ->.
    + intros ce (c & -> & Hc)%list_elem_of_fmap. simpl.
      unfold proposed_rows in Hp. apply list_elem_of_fmap in Hp as (s & -> & _).
      assert (c ∈ col_names (evolved tb df)) as Hin.
      { apply columns_in_evolved. unfold non_pk in Hc. apply list_elem_of_filter in Hc. tauto. }
      by rewrite proposed_lookup, cell_proposed.
Qed.

(** Upserting the batch that produced the table leaves the whole store as
    it is, when the batch holds no key twice. *)
Lemma upsert_again t df pk (d : db) tb1 :
  empty df = false ->
  pk ∈ columns df ->
  t_pk tb1 = Some pk ->
  has_null (keys_of pk (proposed_rows (evolved tb1 df) df)) = false ->
  NoDup (keys_of pk (proposed_rows (evolved tb1 df) df)) ->
  d !! t = Some (upserted (evolved tb1 df) df pk) ->
  exists n, upsert pkx chosen t df pk d = (inr n, d).
Proof.
  intros He Hpk Hpk1 Hnull Hnd Ht.
  set (T := upserted (evolved tb1 df) df pk) in *.
  assert (col_names T = col_names (evolved tb1 df)) as HcT by done.
  assert (t_pk T = Some pk) as HpkT by done.
  unfold upsert. rewrite He, (bool_decide_eq_true_2 _ Hpk). simpl.
  unfold mbind, M_bind, bind.
  assert (_ensure_table pkx t df pk d = (inr tt, d)) as ->.
  { unfold _ensure_table, mbind, M_bind, bind, create_table_if_not_exists_as, try_pass,
      add_primary_key. rewrite Ht. rewrite Ht. by rewrite HpkT. }
  assert (new_columns T df = []) as Hnew.
  { unfold new_columns. apply filter_none. intros c Hc Hn.
    apply Hn. rewrite HcT. by apply columns_in_evolved. }
  assert (_evolve_schema t df d = (inr tt, d)) as ->.
  { unfold _evolve_schema, _existing_cols, table_info, mbind, M_bind, bind. rewrite Ht.
    fold (col_names T). fold (new_columns T df). by rewrite Hnew. }
  unfold _existing_cols, table_info. rewrite Ht. fold (col_names T).
  rewrite (filter_all (fun c : string => c ∈ col_names T)).
  2:{ intros c Hc. rewrite HcT. by apply columns_in_evolved. }
  rewrite (bool_decide_eq_true_2 _ Hpk).
  fold (non_pk df pk). fold (upsert_action df pk).
  unfold insert_on_conflict. rewrite Ht. rewrite HcT.
  fold (proposed_rows (evolved tb1 df) df).
  assert (forallb (fun c : string => bool_decide (c ∈ col_names (evolved tb1 df)))
                  (columns df ++ (default [] (upsert_action df pk)).*1) = true) as ->.
  { apply forallb_forall. intros c Hc%list_elem_of_In. apply bool_decide_eq_true.
    apply columns_in_evolved. apply elem_of_app in Hc as [Hc|Hc]; [done|].
    unfold upsert_action in Hc. case_bool_decide; simpl in Hc; [by apply elem_of_nil in Hc|].
    rewrite <- list_fmap_compose in Hc. simpl in Hc. rewrite list_fmap_id in Hc.
    unfold non_pk in Hc. apply list_elem_of_filter in Hc. tauto. }
  rewrite HpkT. rewrite bool_decide_eq_true_2 by done. simpl. rewrite Hnull.
  destruct (upsert_action_ok tb1 df pk) as [Hk Hps].
  repeat match goal with
  | |- context [match upsert_action df pk with
                | Some _ => resolve chosen pk ?st ?ps
                | None => ?ps'
                end] =>
    change (match upsert_action df pk with
            | Some _ => resolve chosen pk st ps
            | None => ps'
            end) with (kept chosen pk (upsert_action df pk) st ps)
  end.
  rewrite !(kept_plain chosen pk _ _ _ Hnd).
  rewrite (foldl_insert_idempotent pk (upsert_action df pk) Hk) by (done || by left).
  match goal with |- context [<[t := ?X]> d] => replace X with T end.
  2:{ unfold T, upserted, evolved, grown. simpl.
      by rewrite Hpk1, (kept_plain chosen pk _ _ _ Hnd). }
  rewrite insert_id by done.
  unfold count_join. rewrite Ht. rewrite HcT.
  rewrite bool_decide_eq_true_2 by (by apply columns_in_evolved).
  simpl. unfold ret. eauto.
Qed.

(** ** The ledger *)

Definition ledger : string := "_clean_runs".

Definition run_assignments (now : Q) : list (string * (row -> value)) :=
  [ ("table_name", fun p : row => cell p "table_name");
    ("row_count", fun p : row => cell p "row_count");
    ("processed_at", fun _ : row => VNum now) ].

Definition run_row (L : table) (now : Q) (corr_id table_name : string) (rows : Z) : row :=
  proposed (col_names L) ["corr_id"; "table_name"; "row_count"]
    {[ "processed_at" := VNum now ]}
    {[ "corr_id" := VStr corr_id; "table_name" := VStr table_name;
       "row_count" := num_of_Z rows ]}.

(** The ledger after one [record_run]. *)
Definition recorded (L : table) (now : Q) (corr_id table_name : string) (rows : Z) : table :=
  mkTable (t_cols L) (t_pk L)
    (insert_one "corr_id" (Some (run_assignments now)) (t_rows L)
                (run_row L now corr_id table_name rows)).

(** The ledger rows of one corr_id. *)
Definition ledger_rows (corr_id : string) (d : db) : list row :=
  match d !! ledger with
  | Some L => filter (fun r => cell r "corr_id" = VStr corr_id) (t_rows L)
  | None => []
  end.

(** A ledger table [record_run] can write to. *)
Definition ledger_ready (L : table) : Prop :=
  t_pk L = Some "corr_id" /\
  (forall c, c ∈ ["corr_id"; "table_name"; "row_count"; "processed_at"] -> c ∈ col_names L).

Lemma run_row_key L now corr tn rows :
  "corr_id" ∈ col_names L -> cell (run_row L now corr tn rows) "corr_id" = VStr corr.
Proof. intros H. unfold run_row. by rewrite cell_proposed. Qed.

Lemma record_run_inv now corr tn rows (d d' : db) :
  record_run chosen now corr tn rows d = (inr tt, d') ->
  exists L, d !! ledger = Some L /\ ledger_ready L /\ is_bigint rows = true /\
            d' = <[ledger := recorded L now corr tn rows]> d.
Proof.
  unfold record_run, insert_on_conflict. fold ledger.
  destruct (d !! ledger) as [L|] eqn:HL; [|done].
  destruct (forallb _ _) eqn:Hcols; simpl; [|done].
  case_bool_decide as Hpk; simpl; [|done].
  destruct (is_bigint rows) eqn:Hfit; simpl; [|done].
  destruct (is_null _); [done|]. simpl.
  rewrite filter_cons_True by done. rewrite filter_nil. cbn [kept_of].
  intros [= <-]. exists L. split; [done|]. split; [|done].
  split; [done|]. intros c Hc.
  rewrite forallb_forall in Hcols. specialize (Hcols c).
  eapply bool_decide_eq_true_1, Hcols. apply list_elem_of_In.
  simpl. repeat (apply elem_of_cons in Hc as [->|Hc]); [by left| | | | by apply elem_of_nil in Hc].
  - right; by left.
  - right; right; by left.
  - right; right; right; right; right; by left.
Qed.

Lemma record_run_ready now corr tn rows (d : db) L :
  d !! ledger = Some L -> ledger_ready L -> is_bigint rows = true ->
  record_run chosen now corr tn rows d
  = (inr tt, <[ledger := recorded L now corr tn rows]> d).
Proof.
  intros HL [Hpk Hcols] Hfit. unfold record_run, insert_on_conflict. fold ledger.
  rewrite HL, Hfit.
  assert (forallb (fun c : string => bool_decide (c ∈ col_names L))
            (["corr_id"; "table_name"; "row_count"]
               ++ (default [] (Some [("table_name", fun p : row => cell p "table_name");
                                     ("row_count", fun p : row => cell p "row_count");
                                     ("processed_at", fun _ : row => VNum now)])).*1)
          = true) as ->.
  { apply forallb_forall. intros c Hc. apply bool_decide_eq_true.
    apply Hcols. simpl in Hc.
    repeat (destruct Hc as [<-|Hc]; [by repeat first [left|right]|]). done. }
  simpl. rewrite Hpk. case_bool_decide; [|done]. simpl.
  fold (run_row L now corr tn rows). rewrite run_row_key by (apply Hcols; left).
  simpl. rewrite filter_cons_True by (apply run_row_key, Hcols; left).
  rewrite filter_nil. cbn [kept_of].
  unfold recorded, run_assignments. by rewrite Hpk.
Qed.

Lemma recorded_ready L now corr tn rows :
  ledger_ready L -> ledger_ready (recorded L now corr tn rows).
Proof. by intros [? ?]. Qed.

Lemma run_key_not_assigned now :
  "corr_id" ∉ (assignments (Some (run_assignments now))).*1.
Proof. simpl. by repeat (apply not_elem_of_cons; split; [done|]); apply not_elem_of_nil. Qed.

Lemma recorded_keys L now corr tn rows :
  ledger_ready L ->
  key_violation "corr_id" (t_rows L) = false ->
  key_violation "corr_id" (t_rows (recorded L now corr tn rows)) = false /\
  VStr corr ∈ keys_of "corr_id" (t_rows (recorded L now corr tn rows)).
Proof.
  intros [Hpk Hcols] Hv. unfold recorded. simpl. split.
  - apply (foldl_insert_keys "corr_id" _ (run_key_not_assigned now)
             [run_row L now corr tn rows]); [done|].
    simpl. rewrite run_row_key by (apply Hcols; left). done.
  - rewrite (keys_insert_one "corr_id" _ (run_key_not_assigned now)).
    rewrite run_row_key by (apply Hcols; left).
    destruct (existsb _ _) eqn:Hex.
    + apply existsb_key_matches in Hex as (r & Hr & Hk).
      apply list_elem_of_fmap. by exists r.
    + apply elem_of_app. right. by apply list_elem_of_singleton.
Qed.

Lemma unique_key_count (K : string) (k : value) (rows : list row) :
  NoDup (keys_of K rows) -> k ∈ keys_of K rows ->
  length (filter (fun r => cell r K = k) rows) = 1.
Proof.
  induction rows as [|r rows IH]; simpl; intros Hnd Hk.
  - by apply elem_of_nil in Hk.
  - apply NoDup_cons in Hnd as [Hnin Hnd].
    destruct (decide (cell r K = k)) as [Heq|Hne].
    + rewrite filter_cons_True by done. simpl. f_equal.
      rewrite filter_none; [done|]. intros r' Hr' Hk'. apply Hnin.
      rewrite Heq, <- Hk'. apply list_elem_of_fmap. by exists r'.
    + rewrite filter_cons_False by done. apply IH; [done|].
      apply elem_of_cons in Hk as [?|?]; [congruence|done].
Qed.

(** Every primary key declared in the store holds on the stored rows. *)
Definition table_ok (tb : table) : Prop :=
  match t_pk tb with
  | Some k => k ∈ col_names tb /\ key_violation k (t_rows tb) = false
  | None => True
  end.

#[global] Instance table_ok_dec tb : Decision (table_ok tb).
Proof. unfold table_ok. destruct (t_pk tb); apply _. Defined.

Definition store_ok (d : db) : Prop := map_Forall (fun _ tb => table_ok tb) d.

Lemma key_violation_NoDup K rows :
  key_violation K rows = false -> NoDup (keys_of K rows).
Proof.
  unfold key_violation. intros [_ H]%orb_false_elim.
  by apply negb_false_iff, bool_decide_eq_true in H.
Qed.

Lemma upsert_self_frame t df pk (d d1 : db) n t' :
  t' <> t -> upsert pkx chosen t df pk d = (inr n, d1) -> d1 !! t' = d !! t'.
Proof.
  intros Hne H. destruct (empty df) eqn:He.
  - unfold upsert in H. rewrite He in H. by inversion H.
  - apply upsert_inv in H as (tb1 & _ & _ & _ & _ & _ & ->); [|done].
    by apply lookup_insert_ne.
Qed.

Lemma upsert_repeat t df pk (d d1 d2 : db) n :
  NoDup (keys_of pk (records df)) ->
  upsert pkx chosen t df pk d = (inr n, d1) ->
  d2 !! t = d1 !! t ->
  exists n', upsert pkx chosen t df pk d2 = (inr n', d2).
Proof.
  intros Hnd H Ht. destruct (empty df) eqn:He.
  - exists 0. unfold upsert. by rewrite He.
  - apply upsert_inv in H as (tb1 & _ & _ & Hpk1 & Hpk & Hnull & ->); [|done].
    rewrite lookup_insert_eq in Ht. eapply upsert_again; try done.
    unfold keys_of, proposed_rows. rewrite map_map.
    erewrite map_ext; [exact Hnd|]. intros s. simpl.
    rewrite cell_proposed by (by apply columns_in_evolved).
    by rewrite bool_decide_eq_true_2.
Qed.

(** Idempotence of a run, on a store that has the ledger.  When a run (the
    upsert of a batch without repeated keys, then [record_run] for its
    corr_id) has succeeded on a store whose keys hold, running it again
    with the same table, batch, key and corr_id succeeds, the second upsert
    leaves the store as it is, the table holds after the second run what it
    held after the first, and the ledger has exactly one row for the
    corr_id. *)
Lemma run_twice_idempotent t df pk corr now1 now2 rows (d d1 d2 : db) n :
  store_ok d -> t <> ledger ->
  NoDup (keys_of pk (records df)) ->
  upsert pkx chosen t df pk d = (inr n, d1) ->
  record_run chosen now1 corr t rows d1 = (inr tt, d2) ->
  exists n' d4,
    upsert pkx chosen t df pk d2 = (inr n', d2) /\
    record_run chosen now2 corr t rows d2 = (inr tt, d4) /\
    d4 !! t = d1 !! t /\
    length (ledger_rows corr d4) = 1.
Proof.
  intros Hok Hne Hnd Hup Hrun.
  pose proof (upsert_self_frame _ _ _ _ _ _ ledger (not_eq_sym Hne) Hup) as HL1.
  apply record_run_inv in Hrun as (L & HL & Hready & Hfit & ->).
  destruct (upsert_repeat _ _ _ _ _ (<[ledger:=recorded L now1 corr t rows]> d1) _ Hnd Hup)
    as [n' Hup2]; [by apply lookup_insert_ne|].
  exists n', (<[ledger := recorded (recorded L now1 corr t rows) now2 corr t rows]>
                (<[ledger:=recorded L now1 corr t rows]> d1)).
  split; [done|]. split.
  { apply record_run_ready; [apply lookup_insert_eq|by apply recorded_ready|done]. }
  split.
  { by rewrite !lookup_insert_ne by done. }
  unfold ledger_rows. rewrite lookup_insert_eq.
  rewrite HL1 in HL. destruct Hready as [Hpk Hcols].
  pose proof (Hok _ _ HL) as Htb. unfold table_ok in Htb. rewrite Hpk in Htb.
  destruct Htb as [_ Hv].
  destruct (recorded_keys L now1 corr t rows (conj Hpk Hcols) Hv) as [Hv1 _].
  destruct (recorded_keys (recorded L now1 corr t rows) now2 corr t rows
              (recorded_ready _ _ _ _ _ (conj Hpk Hcols)) Hv1) as [Hv2 Hin].
  apply unique_key_count; [by apply key_violation_NoDup|done].
Qed.

(** ** The store keeps its keys *)

Lemma store_ok_insert (d : db) t tb : store_ok d -> table_ok tb -> store_ok (<[t := tb]> d).
Proof. intros Hd Htb. by apply map_Forall_insert_2. Qed.

Lemma ensure_table_ok t df pk (d d1 : db) r :
  store_ok d -> _ensure_table pkx t df pk d = (r, d1) -> store_ok d1.
Proof.
  intros Hok. unfold _ensure_table, mbind, M_bind, bind, create_table_if_not_exists_as,
    try_pass, add_primary_key.
  destruct (d !! t) as [tb|] eqn:Ht; simpl.
  - rewrite Ht. destruct (t_pk tb) eqn:Hpk; simpl; [by intros [= <- <-]|].
    case_bool_decide as Hin; simpl; [|by intros [= <- <-]].
    destruct (key_violation pk (t_rows tb)) eqn:Hv; simpl.
    + case_bool_decide; by intros [= <- <-].
    + intros [= <- <-]. apply store_ok_insert; [done|]. by unfold table_ok.
  - rewrite lookup_insert_eq. simpl.
    case_bool_decide as Hin; simpl; intros [= <- <-].
    + rewrite insert_insert_eq. apply store_ok_insert; [done|]. by unfold table_ok.
    + apply store_ok_insert; [done|]. by unfold table_ok.
Qed.

Lemma add_column_ok t c ty (d d1 : db) r :
  store_ok d -> add_column t c ty d = (r, d1) -> store_ok d1.
Proof.
  intros Hok. unfold add_column. destruct (d !! t) as [tb|] eqn:Ht; [|by intros [= <- <-]].
  case_bool_decide as Hc; intros [= <- <-]; [done|].
  apply store_ok_insert; [done|].
  pose proof (Hok _ _ Ht) as Htb. unfold table_ok in *. simpl.
  destruct (t_pk tb) as [k|]; [|done]. destruct Htb as [Hk Hv]. split.
  - unfold col_names. simpl. rewrite fmap_app. apply elem_of_app. by left.
  - assert (keys_of k (map (fun r0 : row => <[c:=VNull]> r0) (t_rows tb))
            = keys_of k (t_rows tb)) as Hkeys.
    { unfold keys_of. rewrite map_map. apply map_ext. intros r0. unfold cell.
      rewrite lookup_insert_ne; [done|]. by intros ->. }
    unfold key_violation. by rewrite Hkeys.
Qed.

Lemma for_each_add_column_keeps ty t cs (d d1 : db) r :
  store_ok d -> for_each cs (fun c => add_column t c (ty c)) d = (r, d1) -> store_ok d1.
Proof.
  revert d. induction cs as [|c cs IH]; intros d Hok; simpl.
  - by intros [= <- <-].
  - unfold mbind, M_bind, bind.
    destruct (add_column t c (ty c) d) as [[e|[]] d0] eqn:E.
    + intros [= <- <-]. by eapply add_column_ok.
    + apply IH. by eapply add_column_ok.
Qed.

Lemma evolve_schema_ok t df (d d1 : db) r :
  store_ok d -> _evolve_schema t df d = (r, d1) -> store_ok d1.
Proof.
  intros Hok. unfold _evolve_schema, _existing_cols, table_info, mbind, M_bind, bind.
  destruct (d !! t) as [tb|]; [|by intros [= <- <-]].
  case_bool_decide; [by intros [= <- <-]|].
  unfold _infer_df_types, ret. by apply for_each_add_column_keeps.
Qed.

Lemma insert_on_conflict_ok t cols defaults src converts target action (d d1 : db) r :
  store_ok d -> target ∉ (assignments action).*1 ->
  insert_on_conflict chosen t cols defaults src converts target action d = (r, d1) ->
  store_ok d1.
Proof.
  intros Hok Hkey. unfold insert_on_conflict.
  destruct (d !! t) as [tb|] eqn:Ht; [|by intros [= <- <-]].
  destruct (negb (forallb _ _)); [by intros [= <- <-]|].
  case_bool_decide as Hpk; simpl; [|by intros [= <- <-]].
  destruct converts; simpl; [|by intros [= <- <-]].
  destruct (has_null _) eqn:Hnull; [by intros [= <- <-]|].
  intros [= <- <-].
  apply store_ok_insert; [done|].
  pose proof (Hok _ _ Ht) as Htb. unfold table_ok in *. simpl. rewrite Hpk in *.
  destruct Htb as [Hk Hv]. split; [done|].
  apply foldl_insert_keys; [done|done|].
  by apply (kept_no_null chosen target action).
Qed.

Lemma action_skips_key (cols : list string) (pk : string) :
  pk ∉ (assignments
          (if bool_decide (filter (fun c : string => c <> pk) cols = []) then None
           else Some (map (fun c => (c, fun p : row => cell p c))
                          (filter (fun c : string => c <> pk) cols)))).*1.
Proof.
  unfold assignments. case_bool_decide; simpl; [apply not_elem_of_nil|].
  rewrite <- list_fmap_compose. simpl. rewrite list_fmap_id.
  intros Hin%list_elem_of_filter. tauto.
Qed.

(** Both operations of the writer keep the store's keys distinct and
    present, whether they return or raise. *)
Lemma upsert_store_ok t df pk (d d1 : db) r :
  store_ok d -> upsert pkx chosen t df pk d = (r, d1) -> store_ok d1.
Proof.
  intros Hok. unfold upsert. destruct (empty df); [by intros [= <- <-]|].
  case_bool_decide as Hpk; simpl; [|by intros [= <- <-]].
  unfold mbind, M_bind, bind.
  destruct (_ensure_table pkx t df pk d) as [[e|[]] d0] eqn:E0;
    [intros [= <- <-]; by eapply ensure_table_ok|].
  apply ensure_table_ok in E0; [|done].
  destruct (_evolve_schema t df d0) as [[e|[]] d2] eqn:E2;
    [intros [= <- <-]; by eapply evolve_schema_ok|].
  apply evolve_schema_ok in E2; [|done].
  unfold _existing_cols, table_info.
  destruct (d2 !! t) as [tb|] eqn:Ht; [|by intros [= <- <-]].
  match goal with
  | |- context [insert_on_conflict chosen t ?cols ?dft ?src true pk ?act d2] =>
    destruct (insert_on_conflict chosen t cols dft src true pk act d2)
      as [[e|[]] d3] eqn:E3
  end.
  - intros [= <- <-]. eapply insert_on_conflict_ok; [done| |exact E3]. apply action_skips_key.
  - apply insert_on_conflict_ok in E3; [|done|apply action_skips_key].
    unfold count_join. destruct (d3 !! t); [|by intros [= <- <-]].
    destruct (negb _); by intros [= <- <-].
Qed.

Lemma record_run_store_ok now corr tn rows (d d1 : db) r :
  store_ok d -> record_run chosen now corr tn rows d = (r, d1) -> store_ok d1.
Proof.
  intros Hok. unfold record_run. apply insert_on_conflict_ok; [done|].
  apply run_key_not_assigned.
Qed.

Lemma store_ok_empty : store_ok ∅.
Proof. apply map_Forall_empty. Qed.

(** ** Schema growth *)

(** [r'] is [r] with a null in each of the columns [cs]. *)
Definition row_grown (cs : list string) (r r' : row) : Prop :=
  (forall c, c ∈ cs -> r' !! c = Some VNull) /\
  (forall c, c ∉ cs -> r' !! c = r !! c).

Lemma with_nulls_grown cs r : row_grown cs r (with_nulls cs r).
Proof. split; intros c Hc; [by apply with_nulls_new|by apply with_nulls_old]. Qed.

Lemma keys_proposed_rows tb df pk :
  pk ∈ columns df ->
  keys_of pk (proposed_rows (evolved tb df) df) = keys_of pk (records df).
Proof.
  intros Hpk. unfold keys_of, proposed_rows. rewrite map_map. apply map_ext. intros s.
  rewrite cell_proposed by (by apply columns_in_evolved).
  by rewrite bool_decide_eq_true_2.
Qed.

Lemma has_null_spec ks : has_null ks = false -> VNull ∉ ks.
Proof.
  intros H Hin. apply list_elem_of_In in Hin.
  assert (has_null ks = true); [|congruence].
  apply existsb_exists. by exists VNull.
Qed.

(** C7.  Schema growth.  [_evolve_schema] appends exactly the columns of
    the batch the table lacks, keeps the existing columns, their types and
    the key, and every stored row reads null in each new column and is
    otherwise unchanged.  After a whole upsert of a batch with rows, the
    table's columns are the old ones followed by exactly the new ones, and
    every stored row whose key is not in the batch still reads null in the
    new columns (a row whose key is in the batch is overwritten by it). *)
Theorem upsert_schema_growth :
  (forall t df (d d' : db) tb,
     d !! t = Some tb ->
     _evolve_schema t df d = (inr tt, d') ->
     exists tb',
       d' !! t = Some tb' /\
       col_names tb' = col_names tb ++ new_columns tb df /\
       (exists ext, t_cols tb' = t_cols tb ++ ext) /\
       t_pk tb' = t_pk tb /\
       Forall2 (row_grown (new_columns tb df)) (t_rows tb) (t_rows tb')) /\
  (forall t df pk (d d' : db) tb n,
     d !! t = Some tb ->
     empty df = false ->
     upsert pkx chosen t df pk d = (inr n, d') ->
     exists tb',
       d' !! t = Some tb' /\
       col_names tb' = col_names tb ++ new_columns tb df /\
       (exists ext, t_cols tb' = t_cols tb ++ ext) /\
       (forall i r, t_rows tb !! i = Some r ->
          cell r pk ∉ keys_of pk (records df) ->
          exists r', t_rows tb' !! i = Some r' /\ row_grown (new_columns tb df) r r')).
Proof.
  split.
  - intros t df d d' tb Ht H.
    apply evolve_schema_inv with (tb := tb) in H as [-> _]; [|done].
    eexists. split; [apply lookup_insert_eq|].
    split; [apply col_names_grown|]. split; [by eexists|]. split; [done|].
    simpl. apply Forall2_fmap_r, Forall_Forall2_diag, Forall_forall.
    intros r _. apply with_nulls_grown.
  - intros t df pk d d' tb n Ht He H.
    apply upsert_inv in H as (tb1 & Hc1 & Hr1 & Hpk1 & Hpk & Hnull & ->); [|done].
    unfold ensured in Hc1, Hr1. rewrite Ht in Hc1, Hr1. simpl in Hc1, Hr1.
    assert (new_columns tb1 df = new_columns tb df) as Hnew.
    { unfold new_columns, col_names. by rewrite Hc1. }
    eexists. split; [apply lookup_insert_eq|].
    split.
    { change (col_names (upserted (evolved tb1 df) df pk))
        with (col_names (evolved tb1 df)).
      unfold evolved. rewrite col_names_grown, Hnew. unfold col_names. by rewrite Hc1. }
    split.
    { unfold upserted, evolved, grown. simpl. rewrite Hc1. by eexists. }
    intros i r Hi Hk. exists (with_nulls (new_columns tb df) r).
    split; [|apply with_nulls_grown].
    unfold upserted. simpl.
    apply foldl_insert_lookup_other.
    + rewrite Hnew, Hr1, list_lookup_fmap, Hi. done.
    + rewrite kept_keys. rewrite keys_proposed_rows in * by done.
      destruct (decide (pk ∈ new_columns tb df)) as [Hin|Hnin].
      * unfold cell. rewrite with_nulls_new by done. simpl. by apply has_null_spec.
      * unfold cell. rewrite with_nulls_old by done. done.
Qed.

(** ** When an upsert returns *)

Lemma columns_schema_of (df : DataFrame) : (schema_of df).*1 = columns df.
Proof.
  unfold schema_of, columns. rewrite <- list_fmap_compose.
  apply list_fmap_ext. by intros _ [c s] _.
Qed.

(** A batch with rows, distinct column names and no missing key is
    accepted by a store in which the table is absent or already keyed on
    the batch's key column. *)
Lemma upsert_returns t df pk (d : db) :
  empty df = false ->
  NoDup (columns df) ->
  pk ∈ columns df ->
  has_null (keys_of pk (records df)) = false ->
  (d !! t = None \/ exists tb, d !! t = Some tb /\ t_pk tb = Some pk) ->
  exists n d', upsert pkx chosen t df pk d = (inr n, d').
Proof.
  intros He Hnd Hpk Hnull Ht. unfold upsert. rewrite He, (bool_decide_eq_true_2 _ Hpk).
  simpl. unfold mbind, M_bind, bind.
  assert (exists tb1, _ensure_table pkx t df pk d = (inr tt, <[t := tb1]> d)
                      /\ t_pk tb1 = Some pk) as (tb1 & -> & Hpk1).
  { unfold _ensure_table, mbind, M_bind, bind, create_table_if_not_exists_as, try_pass,
      add_primary_key.
    destruct Ht as [Hnone|(tb & Hsome & Hpkt)].
    - rewrite Hnone, lookup_insert_eq. simpl.
      unfold col_names. simpl. rewrite columns_schema_of.
      rewrite (bool_decide_eq_true_2 _ Hpk). simpl.
      eexists. rewrite insert_insert_eq. split; [reflexivity|done].
    - rewrite Hsome, Hsome, Hpkt. simpl. exists tb. by rewrite insert_id. }
  rewrite (evolve_schema_total t df _ tb1) by (apply lookup_insert_eq || done).
  rewrite insert_insert_eq. fold (evolved tb1 df).
  unfold _existing_cols, table_info. rewrite lookup_insert_eq.
  fold (col_names (evolved tb1 df)).
  rewrite (filter_all (fun c : string => c ∈ col_names (evolved tb1 df)))
    by (intros c Hc; by apply columns_in_evolved).
  rewrite (bool_decide_eq_true_2 _ Hpk).
  fold (non_pk df pk). fold (upsert_action df pk).
  unfold insert_on_conflict. rewrite lookup_insert_eq.
  fold (proposed_rows (evolved tb1 df) df).
  assert (forallb (fun c : string => bool_decide (c ∈ col_names (evolved tb1 df)))
                  (columns df ++ (default [] (upsert_action df pk)).*1) = true) as ->.
  { apply forallb_forall. intros c Hc%list_elem_of_In. apply bool_decide_eq_true.
    apply columns_in_evolved. apply elem_of_app in Hc as [Hc|Hc]; [done|].
    unfold upsert_action in Hc. case_bool_decide; simpl in Hc; [by apply elem_of_nil in Hc|].
    rewrite <- list_fmap_compose in Hc. simpl in Hc. rewrite list_fmap_id in Hc.
    unfold non_pk in Hc. apply list_elem_of_filter in Hc. tauto. }
  change (t_pk (evolved tb1 df)) with (t_pk tb1). rewrite Hpk1.
  rewrite (bool_decide_eq_true_2 (Some pk = Some pk)) by done. simpl.
  rewrite keys_proposed_rows by done. rewrite Hnull.
  rewrite insert_insert_eq. unfold count_join. rewrite lookup_insert_eq.
  change (col_names (mkTable (t_cols (evolved tb1 df)) (Some pk) _))
    with (col_names (evolved tb1 df)).
  rewrite (bool_decide_eq_true_2 (pk ∈ col_names (evolved tb1 df)))
    by (by apply columns_in_evolved).
  simpl. unfold ret. eauto.
Qed.

(** ** The empty batch *)

(** C10.  An upsert of a batch without rows returns 0 and leaves the whole
    store as it was: no table is created, no schema evolves, no row is
    written, whatever the table name and the key. *)
Theorem upsert_empty_batch (t : string) (df : DataFrame) (pk : string) (d : db) :
  height df = 0 -> upsert pkx chosen t df pk d = (inr 0, d).
Proof.
  intros H. unfold upsert.
  assert (empty df = true) as ->.
  { destruct df as [|[c s] df]; [done|]. simpl in *. by rewrite H. }
  done.
Qed.

(** ** The ledger, from its creation on *)

Lemma record_run_no_ledger now corr tn rows (d : db) :
  d !! ledger = None -> record_run chosen now corr tn rows d = (inl CatalogException, d).
Proof. intros H. unfold record_run, insert_on_conflict. fold ledger. by rewrite H. Qed.

(** The recognizer accepts the statement the source was meant to hold. *)
Example create_ledger_parses :
  parse_create_table ["CREATE"; "TABLE"; "IF"; "NOT"; "EXISTS"; "_clean_runs"; "("]
  = Some ledger.
Proof. reflexivity. Qed.

(** C4.  The statement of [_init_meta] does not parse: the constructor of
    the writer raises on every store and creates no ledger table, and
    [record_run] on the store it leaves behind raises instead of inserting
    the row of the corr_id. *)
Theorem init_meta_creates_no_ledger :
  (forall d : db, __init__ d = (inl ParserException, d)) /\
  (forall now corr tn rows,
     record_run chosen now corr tn rows (__init__ ∅).2 = (inl CatalogException, ∅)).
Proof.
  split; [done|]. intros. change ((__init__ ∅).2) with (∅ : db).
  apply record_run_no_ledger. apply lookup_empty.
Qed.

Lemma key_count_le_one (K : string) (k : value) (rows : list row) :
  NoDup (keys_of K rows) -> length (filter (fun r => cell r K = k) rows) <= 1.
Proof.
  intros Hnd. destruct (decide (k ∈ keys_of K rows)) as [Hin|Hnin].
  - by rewrite unique_key_count.
  - rewrite filter_none; [simpl; lia|]. intros r Hr Hk. apply Hnin.
    rewrite <- Hk. apply list_elem_of_fmap. by exists r.
Qed.

(** On a store that has the ledger table the creation statement was meant
    to declare, no sequence of [record_run] calls with row counts in the
    range of BIGINT raises, and the ledger never holds two rows for one
    corr_id. *)
Lemma record_runs_keep_one_row (calls : list (Q * string * string * Z)) (d : db) L :
  store_ok d -> d !! ledger = Some L -> ledger_ready L ->
  Forall (fun c => is_bigint c.2 = true) calls ->
  exists d',
    for_each calls (fun c => record_run chosen c.1.1.1 c.1.1.2 c.1.2 c.2) d = (inr tt, d') /\
    store_ok d' /\
    (exists L', d' !! ledger = Some L' /\ ledger_ready L') /\
    (forall corr, length (ledger_rows corr d') <= 1).
Proof.
  revert d L. induction calls as [|[[[now corr] tn] rows] calls IH];
    intros d L Hok HL Hready Hfit.
  - exists d. split; [done|]. split; [done|]. split; [by eauto|].
    intros corr. unfold ledger_rows. rewrite HL. apply key_count_le_one.
    pose proof (Hok _ _ HL) as Htb. unfold table_ok in Htb.
    destruct Hready as [Hpk _]. rewrite Hpk in Htb. destruct Htb as [_ Hv].
    by apply key_violation_NoDup.
  - simpl. unfold mbind, M_bind, bind.
    apply Forall_cons in Hfit as [Hrows Hfit].
    pose proof (record_run_ready now corr tn rows d L HL Hready Hrows) as Hrun.
    rewrite Hrun.
    apply (IH _ (recorded L now corr tn rows)).
    + by eapply record_run_store_ok.
    + apply lookup_insert_eq.
    + by apply recorded_ready.
    + done.
Qed.

End Writer.

(** ** A concrete run *)

Definition batch0 : DataFrame :=
  [("crash_record_id", mkSeries DString [VStr "X1"; VStr "X2"]);
   ("lane_cnt", mkSeries DFloat64 [VNum 2; VNum 3])].

Definition batch1 : DataFrame :=
  [("crash_record_id", mkSeries DString [VStr "X3"]);
   ("lane_cnt", mkSeries DFloat64 [VNum 4]);
   ("make", mkSeries DString [VStr "ford"])].

Definition no_rows : DataFrame :=
  [("crash_record_id", mkSeries DString []); ("make", mkSeries DString [])].

(** An engine that keeps the first of the rows proposed under one key. *)
Definition keeps_first : list row -> list row -> nat := fun _ _ => 0.

(** A store holding the ledger table of the creation statement. *)
Definition store0 : db := {[ ledger := mkTable meta_cols (Some "corr_id") [] ]}.

Definition store1 : db :=
  (upsert ConstraintException keeps_first "crashes" batch0 "crash_record_id" store0).2.

Definition store2 : db := (record_run keeps_first 1 "abc123" "crashes" 2 store1).2.

Lemma upsert_empty_batch_witness :
  height no_rows = 0 /\
  upsert ConstraintException keeps_first "crashes" no_rows "crash_record_id" store1
  = (inr 0, store1).
Proof.
  split; [reflexivity|].
  apply (upsert_empty_batch ConstraintException keeps_first "crashes" no_rows
           "crash_record_id" store1).
  reflexivity.
Defined.

(** The table "crashes" of [store1]. *)
Definition table1 : table :=
  mkTable [("crash_record_id", "VARCHAR"); ("lane_cnt", "DOUBLE")]
          (Some "crash_record_id")
          [ {[ "crash_record_id" := VStr "X1"; "lane_cnt" := VNum 2 ]};
            {[ "crash_record_id" := VStr "X2"; "lane_cnt" := VNum 3 ]} ].

Lemma upsert_schema_growth_witness :
  store1 !! "crashes" = Some table1 /\
  new_columns table1 batch1 = ["make"] /\
  exists tb',
    (upsert ConstraintException keeps_first "crashes" batch1 "crash_record_id"
            store1).2 !! "crashes"
      = Some tb' /\
    col_names tb' = col_names table1 ++ new_columns table1 batch1 /\
    (exists ext, t_cols tb' = t_cols table1 ++ ext) /\
    (forall i r, t_rows table1 !! i = Some r ->
       cell r "crash_record_id" ∉ keys_of "crash_record_id" (records batch1) ->
       exists r', t_rows tb' !! i = Some r' /\ row_grown (new_columns table1 batch1) r r').
Proof.
  split; [vm_compute; reflexivity|]. split; [vm_compute; reflexivity|].
  apply (proj2 (upsert_schema_growth ConstraintException keeps_first) "crashes" batch1
               "crash_record_id" store1
               (upsert ConstraintException keeps_first "crashes" batch1 "crash_record_id"
                       store1).2
               table1 1).
  - vm_compute. reflexivity.
  - reflexivity.
  - vm_compute. reflexivity.
Defined.

(** ** Two runs on the store the constructor leaves *)

(** The store after the first upsert on a fresh database. *)
Definition fresh1 : db := {[ "crashes" := table1 ]}.

(** C1.  On a fresh database the constructor raises and creates no ledger
    (the slip of [_init_meta]); on the store it leaves, the upsert of the
    batch succeeds and a second, identical upsert leaves the store as the
    first left it, but [record_run] raises both times: after two identical
    runs the ledger holds no row for the corr_id, where one is expected. *)
Theorem run_twice_records_nothing (pkx : exn) (chosen : list row -> list row -> nat) :
  __init__ ∅ = (inl ParserException, ∅) /\
  upsert pkx chosen "crashes" batch0 "crash_record_id" ∅ = (inr 2, fresh1) /\
  record_run chosen 1 "abc123" "crashes" 2 fresh1 = (inl CatalogException, fresh1) /\
  upsert pkx chosen "crashes" batch0 "crash_record_id" fresh1 = (inr 2, fresh1) /\
  record_run chosen 2 "abc123" "crashes" 2 fresh1 = (inl CatalogException, fresh1) /\
  ledger_rows "abc123" fresh1 = [].
Proof. repeat split; vm_compute; reflexivity. Qed.

End duckdb_writer_spec.

(* ===================================================================== *)
(** * Properties of the normalizer                                        *)
(* ===================================================================== *)

Module cleaning_rules_spec.

Import Facts Pandas cleaning_rules.

(** ** Loops over the columns of a frame *)

Lemma getitem_app_r (pre post : DataFrame) c :
  c ∉ columns pre -> getitem (pre ++ post) c = getitem post c.
Proof.
  induction pre as [|[c' s'] pre IH]; intros Hc; [done|].
  simpl in *. apply not_elem_of_cons in Hc as [Hne Hc].
  rewrite bool_decide_eq_false_2 by congruence. by apply IH.
Qed.

Lemma map_replace_absent (df : DataFrame) c s :
  c ∉ columns df ->
  map (fun cs : string * Series => if bool_decide (cs.1 = c) then (c, s) else cs) df = df.
Proof.
  induction df as [|[c' s'] df IH]; intros Hc; [done|].
  simpl in *. apply not_elem_of_cons in Hc as [Hne Hc].
  rewrite bool_decide_eq_false_2 by congruence. f_equal. by apply IH.
Qed.

(** Assigning to a column that occurs once replaces it where it stands. *)
Lemma setitem_middle (pre post : DataFrame) c s s' :
  NoDup (columns (pre ++ (c, s) :: post)) ->
  setitem (pre ++ (c, s) :: post) c s' = pre ++ (c, s') :: post.
Proof.
  intros Hnd. unfold setitem.
  rewrite bool_decide_eq_true_2.
  2:{ unfold columns. rewrite fmap_app. apply elem_of_app. right. by left. }
  unfold columns in Hnd. rewrite fmap_app in Hnd. simpl in Hnd.
  apply NoDup_app in Hnd as (_ & Hdisj & Hnd). apply NoDup_cons in Hnd as [Hpost _].
  rewrite map_app. simpl. rewrite bool_decide_eq_true_2 by done.
  rewrite !map_replace_absent; [done|done|].
  intros Hin. apply (Hdisj c); [done|by left].
Qed.

Lemma getitem_middle (pre post : DataFrame) c s :
  NoDup (columns (pre ++ (c, s) :: post)) ->
  getitem (pre ++ (c, s) :: post) c = s.
Proof.
  intros Hnd. rewrite getitem_app_r.
  - simpl. by rewrite bool_decide_eq_true_2.
  - unfold columns in Hnd. rewrite fmap_app in Hnd. simpl in Hnd.
    apply NoDup_app in Hnd as (_ & Hdisj & _). intros Hin. apply (Hdisj c); [done|by left].
Qed.

Section Loop.

Variable P : string -> Series -> bool.
Variable g : string -> Series -> Series.

(** The shape of the loops of the module:
    [for c in df.columns: if P(c, df[c]): df[c] = g(c, df[c])]. *)
Definition body (df : DataFrame) (c : string) : DataFrame :=
  if P c (getitem df c) then setitem df c (g c (getitem df c)) else df.

Definition rewritten (cs : string * Series) : string * Series :=
  (cs.1, if P cs.1 cs.2 then g cs.1 cs.2 else cs.2).

Lemma loop_from (pre post : DataFrame) :
  NoDup (columns (pre ++ post)) ->
  foldl body (pre ++ post) (columns post) = pre ++ map rewritten post.
Proof.
  revert pre. induction post as [|[c s] post IH]; intros pre Hnd; [done|].
  simpl. unfold body at 2. rewrite getitem_middle by done.
  assert (NoDup (columns ((pre ++ [(c, if P c s then g c s else s)]) ++ post))) as Hnd'.
  { unfold columns in *. rewrite !fmap_app in *. simpl in *. by rewrite <- app_assoc. }
  destruct (P c s) eqn:HP.
  - rewrite setitem_middle by done.
    rewrite (cons_middle _ pre post), app_assoc. rewrite IH by done.
    rewrite <- app_assoc. simpl. unfold rewritten at 2. simpl. by rewrite HP.
  - rewrite (cons_middle _ pre post), app_assoc. rewrite IH by done.
    rewrite <- app_assoc. simpl. unfold rewritten at 2. simpl. by rewrite HP.
Qed.

Lemma loop_columns (df : DataFrame) :
  NoDup (columns df) -> foldl body df (columns df) = map rewritten df.
Proof. intros Hnd. by apply (loop_from [] df). Qed.

End Loop.

Lemma columns_rewritten P g (df : DataFrame) : columns (map (rewritten P g) df) = columns df.
Proof. unfold columns. rewrite <- list_fmap_compose. done. Qed.

Lemma getitem_rewritten P g (df : DataFrame) c s :
  NoDup (columns df) -> (c, s) ∈ df ->
  getitem (map (rewritten P g) df) c = if P c s then g c s else s.
Proof.
  intros Hnd Hin. apply list_elem_of_split in Hin as (pre & post & ->).
  rewrite map_app. simpl. rewrite getitem_app_r.
  - simpl. by rewrite bool_decide_eq_true_2.
  - rewrite columns_rewritten. unfold columns in Hnd. rewrite fmap_app in Hnd.
    apply NoDup_app in Hnd as (_ & Hdisj & _). intros Hc. apply (Hdisj c); [done|by left].
Qed.

Lemma filter_none_notna (l : list value) :
  (forall v, v ∈ l -> ~ notna v) -> filter (fun v => notna v) l = [].
Proof.
  induction l as [|a l IH]; intros H; [done|].
  rewrite filter_cons_False by (apply H; left). apply IH. intros. apply H. by right.
Qed.

(** ** Loops that may raise *)

(** A loop that returns has run the bodies that return. *)
Lemma fold_result_returns {A B} (body : A -> B -> exn + A) (f : A -> B -> A)
    (a out : A) (l : list B) :
  (forall a b a', body a b = inr a' -> a' = f a b) ->
  fold_result body a l = inr out -> out = foldl f a l.
Proof.
  intros Hf. revert a. induction l as [|b l IH]; intros a; simpl; [by intros [= <-]|].
  destruct (body a b) as [e|a'] eqn:Hb; simpl; [done|].
  rewrite <- (Hf _ _ _ Hb). apply IH.
Qed.

(** A loop raises what one of its bodies raises. *)
Lemma fold_result_raises {A B} (body : A -> B -> exn + A) (a : A) (l : list B) e :
  fold_result body a l = inl e -> exists a' b, b ∈ l /\ body a' b = inl e.
Proof.
  revert a. induction l as [|b l IH]; intros a; simpl; [done|].
  destruct (body a b) as [e'|a'] eqn:Hb; simpl.
  - intros [= <-]. exists a, b. split; [by left|done].
  - intros (a2 & b2 & Hin & H)%IH. exists a2, b2. split; [by right|done].
Qed.

(** A loop whose bodies all return, returns. *)
Lemma fold_result_total {A B} (body : A -> B -> exn + A) (f : A -> B -> A)
    (a : A) (l : list B) :
  (forall a b, body a b = inr (f a b)) -> fold_result body a l = inr (foldl f a l).
Proof.
  intros Hf. revert a. induction l as [|b l IH]; intros a; simpl; [done|].
  rewrite Hf. simpl. apply IH.
Qed.

(** ** Imputation *)

Definition is_text (s : Series) : bool := is_object_dtype s || is_string_dtype s.

(** The series with [v] in place of its missing cells. *)
Definition filled (v : value) (s : Series) : Series :=
  mkSeries (s_dtype s) (map (fun x => if is_null x then v else x) (s_values s)).

(** [fillna] raises on one occasion only: a fractional value offered to a
    nullable integer series that has a missing cell. *)
Definition refuses (v : value) (s : Series) : bool :=
  is_nullable_integer s && existsb is_null (s_values s) && negb (is_whole v).

Lemma fillna_spec v (s : Series) :
  fillna v s = if refuses v s then inl TypeError else inr (filled v s).
Proof. done. Qed.

Lemma fillna_returns v (s s' : Series) : fillna v s = inr s' -> s' = filled v s.
Proof. rewrite fillna_spec. destruct (refuses v s); [done|]. by intros [= <-]. Qed.

Lemma fillna_raises v (s : Series) e : fillna v s = inl e -> e = TypeError.
Proof. rewrite fillna_spec. destruct (refuses v s); [|done]. by intros [= <-]. Qed.

Lemma fillna_text t (s : Series) :
  is_text s = true -> fillna (VStr t) s = inr (filled (VStr t) s).
Proof.
  intros H. rewrite fillna_spec. unfold refuses, is_nullable_integer.
  unfold is_text, is_object_dtype, is_string_dtype in H.
  by destruct (s_dtype s).
Qed.

(** The value imputed into a numeric column: its median, 0 when the column
    has no number at all. *)
Definition fill_value (s : Series) : Q := default 0%Q (median s).

Definition impute_numeric (bool_cols : list string) (c : string) (s : Series) : bool :=
  negb (bool_decide (c ∈ bool_cols)) && is_numeric_dtype s.

Definition impute_text (c : string) (s : Series) : bool :=
  is_text s && negb (bool_decide (c ∈ ID_COLS)).

(** The two loops of [_impute_missing] when no [fillna] raises. *)
Definition imputed (df : DataFrame) (bool_cols : list string) : DataFrame :=
  let df :=
    foldl (body (impute_numeric bool_cols) (fun _ s => filled (VNum (fill_value s)) s))
          df (columns df) in
  foldl (body impute_text (fun _ s => filled (VStr "missing") s)) df (columns df).

Lemma impute_missing_returns (df out : DataFrame) (bool_cols : list string) :
  _impute_missing df bool_cols = inr out -> out = imputed df bool_cols.
Proof.
  unfold _impute_missing, imputed.
  destruct (fold_result _ df (columns df)) as [e|df1] eqn:H1; simpl; [done|].
  apply (fold_result_returns _
           (body (impute_numeric bool_cols) (fun _ s => filled (VNum (fill_value s)) s)))
    in H1.
  2:{ intros a c a'. unfold body, impute_numeric, fill_value.
      case_bool_decide; simpl; [by intros [= <-]|].
      destruct (is_numeric_dtype (getitem a c)); [|by intros [= <-]].
      destruct (fillna _ _) as [e|s'] eqn:Hs; simpl; [done|].
      apply fillna_returns in Hs as ->. by intros [= <-]. }
  subst df1. intros H2.
  apply (fold_result_returns _ (body impute_text (fun _ s => filled (VStr "missing") s)))
    in H2; [done|].
  intros a c a'. unfold body, impute_text, is_text.
  destruct (_ && _); [|by intros [= <-]].
  destruct (fillna _ _) as [e|s'] eqn:Hs; simpl; [done|].
  apply fillna_returns in Hs as ->. by intros [= <-].
Qed.

(** The imputation raises nothing but [TypeError]. *)
Lemma impute_missing_raises (df : DataFrame) (bool_cols : list string) e :
  _impute_missing df bool_cols = inl e -> e = TypeError.
Proof.
  unfold _impute_missing.
  destruct (fold_result _ df (columns df)) as [e1|df1] eqn:H1; simpl.
  - intros [= <-]. apply fold_result_raises in H1 as (a & c & _ & H).
    case_bool_decide; [done|]. destruct (is_numeric_dtype _); [|done].
    destruct (fillna _ _) as [e'|s'] eqn:Hs; simpl in H; [|done].
    injection H as <-. by eapply fillna_raises.
  - intros (a & c & _ & H)%fold_result_raises.
    destruct (_ && _); [|done].
    destruct (fillna _ _) as [e'|s'] eqn:Hs; simpl in H; [|done].
    injection H as <-. by eapply fillna_raises.
Qed.

Lemma imputed_columnwise (df : DataFrame) (bool_cols : list string) :
  NoDup (columns df) ->
  imputed df bool_cols
  = map (rewritten impute_text (fun _ s => filled (VStr "missing") s))
        (map (rewritten (impute_numeric bool_cols)
                        (fun _ s => filled (VNum (fill_value s)) s)) df).
Proof.
  intros Hnd. unfold imputed.
  rewrite <- (loop_columns impute_text) by (by rewrite columns_rewritten).
  by rewrite <- (loop_columns (impute_numeric bool_cols)) by done.
Qed.

Lemma filled_lookup v (s : Series) i x :
  s_values s !! i = Some x ->
  s_values (filled v s) !! i = Some (if is_null x then v else x).
Proof. intros H. unfold filled. simpl. by rewrite list_lookup_fmap, H. Qed.

Lemma length_insert_sorted q l : length (insert_sorted q l) = S (length l).
Proof.
  induction l as [|x l IH]; simpl; [done|].
  destruct (Qle_bool q x); simpl; [done|]. by rewrite IH.
Qed.

Lemma length_sort_numbers l : length (sort_numbers l) = length l.
Proof.
  induction l as [|x l IH]; simpl; [done|]. by rewrite length_insert_sorted, IH.
Qed.

(** A column without a single number has no median. *)
Lemma median_none (s : Series) :
  median s = None <-> omap as_number (s_values s) = [].
Proof.
  unfold median. rewrite length_sort_numbers.
  destruct (omap as_number (s_values s)) as [|x l]; simpl; [done|].
  split; [|done]. by destruct (Nat.odd (S (length l))).
Qed.

Lemma median_all_null (s : Series) :
  Forall (fun v => v = VNull) (s_values s) -> fill_value s = 0%Q.
Proof.
  intros H. unfold fill_value.
  assert (median s = None) as ->; [|done].
  apply median_none. induction H as [|v l -> _ IH]; [done|]. by simpl.
Qed.

(** What the imputation does when it returns, column by column.  In a
    numeric column that is not listed as boolean-like every null becomes
    the column's median (0 when the column holds no number) and the other
    cells stay; in a textual column that is not an id column every null
    becomes the text "missing"; a boolean-like column (numeric and listed)
    is left exactly as it is. *)
Lemma impute_missing_fills (df out : DataFrame) (bool_cols : list string) (c : string)
    (s : Series) :
  NoDup (columns df) -> (c, s) ∈ df ->
  _impute_missing df bool_cols = inr out ->
  columns out = columns df /\
  (is_numeric_dtype s = true -> c ∉ bool_cols ->
   forall i x, s_values s !! i = Some x ->
     s_values (getitem out c) !! i = Some (if is_null x then VNum (fill_value s) else x)) /\
  (is_text s = true -> c ∉ ID_COLS ->
   forall i x, s_values s !! i = Some x ->
     s_values (getitem out c) !! i = Some (if is_null x then VStr "missing" else x)) /\
  (is_numeric_dtype s = true -> c ∈ bool_cols -> getitem out c = s) /\
  (Forall (fun v => v = VNull) (s_values s) -> fill_value s = 0%Q).
Proof.
  intros Hnd Hin ->%impute_missing_returns. rewrite imputed_columnwise by done.
  split; [by rewrite !columns_rewritten|].
  assert (getitem
            (map (rewritten impute_text (fun _ s0 => filled (VStr "missing") s0))
               (map (rewritten (impute_numeric bool_cols)
                       (fun _ s0 => filled (VNum (fill_value s0)) s0)) df)) c
          = let s1 := if impute_numeric bool_cols c s
                      then filled (VNum (fill_value s)) s else s in
            if impute_text c s1 then filled (VStr "missing") s1 else s1) as ->.
  { erewrite getitem_rewritten; [done|by rewrite columns_rewritten|].
    apply list_elem_of_fmap. exists (c, s). by split. }
  unfold impute_numeric, impute_text, is_text, is_numeric_dtype, is_object_dtype,
    is_string_dtype.
  repeat split.
  - intros Hnum Hc i x Hx. rewrite bool_decide_eq_false_2 by done.
    destruct s as [dt vs]. simpl in *.
    destruct dt; try done; simpl; by rewrite list_lookup_fmap, Hx.
  - intros Htxt Hc i x Hx. rewrite (bool_decide_eq_false_2 (c ∈ ID_COLS)) by done.
    destruct s as [dt vs]. simpl in *.
    destruct dt; try done; simpl; rewrite andb_false_r; simpl;
      by rewrite list_lookup_fmap, Hx.
  - intros Hnum Hc. rewrite bool_decide_eq_true_2 by done.
    destruct s as [dt vs]. simpl in *. by destruct dt.
  - by apply median_all_null.
Qed.

(** A column of whole and fractional numbers is imputed: [10, 20, null]
    becomes [10, 20, 15]. *)
Example impute_missing_float :
  _impute_missing [("lane_cnt", mkSeries DFloat64 [VNum 10; VNum 20; VNull])] []
  = inr [("lane_cnt", mkSeries DFloat64 [VNum 10; VNum 20; VNum 15])].
Proof. vm_compute. reflexivity. Qed.

(** The date parts of a frame, as [_split_crash_datetime] leaves them for
    the crash dates 2024-01-01, 2023-01-01 and a missing one. *)
Definition date_parts : DataFrame :=
  [("crash_year", mkSeries DInt16 [VNum 2024; VNum 2023; VNull]);
   ("crash_month", mkSeries DInt8 [VNum 1; VNum 1; VNull]);
   ("crash_day", mkSeries DInt8 [VNum 1; VNum 1; VNull]);
   ("crash_hour", mkSeries DInt8 [VNum 0; VNum 0; VNull])].

(** C9.  The imputation does not fill the years [2024, 2023, null]: their
    median is 2023.5, which the nullable integer column refuses, and
    [_impute_missing] raises [TypeError] where every null was to become
    the median.  A column of dtype float64 is filled: the null of
    [10, 20, null] becomes 15. *)
Theorem impute_missing_type_error :
  fill_value (mkSeries DInt16 [VNum 2024; VNum 2023; VNull]) = (4047 # 2)%Q /\
  _impute_missing date_parts [] = inl TypeError /\
  _impute_missing [("lane_cnt", mkSeries DFloat64 [VNum 10; VNum 20; VNull])] []
  = inr [("lane_cnt", mkSeries DFloat64 [VNum 10; VNum 20; VNum 15])].
Proof. repeat split; vm_compute; reflexivity. Qed.

(** ** Boolean inference *)

Section Inference.

Variable repr_number : Q -> string.

(** A cell the vocabulary maps to 0 or 1. *)
Definition in_vocabulary (v : value) : Prop :=
  map_vocabulary (on_text lower (on_text strip (to_str repr_number v))) <> VNull.

Lemma map_vocabulary_bit v :
  map_vocabulary v = VNull \/ map_vocabulary v ∈ [num_of_Z 0; num_of_Z 1].
Proof.
  destruct v as [|q|t|b]; simpl; try by left.
  unfold vocabulary. destruct (_ !! t) as [z|] eqn:Hz; [|by left]. right.
  apply elem_of_list_to_map_2 in Hz. unfold YES_NO_TRUE_FALSE in Hz.
  repeat (apply elem_of_cons in Hz as [[= _ <-]|Hz]; [by repeat constructor|]).
  by apply elem_of_nil in Hz.
Qed.

(** What the code does: a textual column is reclassified as soon as one of
    its cells is in the vocabulary; the cells outside it become null. *)
Lemma map_yes_no_to_int_some (series : Series) :
  _map_yes_no_to_int repr_number series
  = if bool_decide (Exists in_vocabulary (s_values series))
    then mkSeries DInt8
           (map (fun v => map_vocabulary (on_text lower (on_text strip (to_str repr_number v))))
                (s_values series))
    else series.
Proof.
  unfold _map_yes_no_to_int. simpl. rewrite !map_map.
  set (f := fun v => map_vocabulary (on_text lower (on_text strip (to_str repr_number v)))).
  assert (forallb (fun v => bool_decide (v ∈ [num_of_Z 0; num_of_Z 1]))
            (filter (fun v => notna v) (map f (s_values series))) = true) as ->.
  { apply forallb_forall. intros v Hv%list_elem_of_In.
    apply list_elem_of_filter in Hv as [Hnn Hv]. apply list_elem_of_fmap in Hv as (x & -> & _).
    apply bool_decide_eq_true. destruct (map_vocabulary_bit
      (on_text lower (on_text strip (to_str repr_number x)))) as [Hnull|Hbit]; [|done].
    unfold f in Hnn. rewrite Hnull in Hnn. done. }
  rewrite andb_true_r.
  case_bool_decide as Hex.
  - assert ((0 <? length (filter (fun v => notna v) (map f (s_values series))))%nat = true)
      as ->; [|done].
    apply Nat.ltb_lt. apply Exists_exists in Hex as (x & Hx & Hin).
    assert (f x ∈ filter (fun v => notna v) (map f (s_values series))) as Hfx.
    { apply list_elem_of_filter. split; [|by apply list_elem_of_fmap_2].
      unfold in_vocabulary in Hin. fold (f x) in Hin. by destruct (f x). }
    destruct (filter _ _); [by apply elem_of_nil in Hfx|simpl; lia].
  - assert (filter (fun v => notna v) (map f (s_values series)) = []) as ->; [|done].
    apply filter_none_notna. intros v (x & -> & Hx)%list_elem_of_fmap Hnn.
    apply Hex. apply Exists_exists. exists x. split; [done|].
    unfold in_vocabulary. fold (f x). by destruct (f x).
Qed.

(** C3.  The column ["Y", "unknown"] is reclassified: it becomes the
    boolean-like column [1, null] and is reported among the boolean
    columns, although "unknown" is outside the vocabulary; the column
    ["Y", "n", "yes", "NO"] becomes [1, 0, 1, 0]. *)
Theorem convert_yes_no_partial_column :
  _map_yes_no_to_int repr_number (mkSeries DObject [VStr "Y"; VStr "unknown"])
  = mkSeries DInt8 [VNum 1; VNull] /\
  _convert_yes_no repr_number [("flag", mkSeries DObject [VStr "Y"; VStr "unknown"])]
  = ([("flag", mkSeries DInt8 [VNum 1; VNull])], ["flag"]) /\
  _map_yes_no_to_int repr_number (mkSeries DObject [VStr "Y"; VStr "n"; VStr "yes"; VStr "NO"])
  = mkSeries DInt8 [VNum 1; VNum 0; VNum 1; VNum 0].
Proof. repeat split; vm_compute; reflexivity. Qed.

End Inference.

(** ** Trimming *)

Definition starts_clean (s : string) : Prop :=
  match s with String a _ => is_space a = false | EmptyString => True end.

Lemma lstrip_starts_clean s : starts_clean (lstrip s).
Proof.
  induction s as [|a s IH]; simpl; [done|]. by destruct (is_space a) eqn:E.
Qed.

Lemma lstrip_clean s : starts_clean s -> lstrip s = s.
Proof. destruct s as [|a s]; simpl; [done|]. by intros ->. Qed.

Lemma rstrip_starts_clean s : starts_clean s -> starts_clean (rstrip s).
Proof.
  destruct s as [|a s]; simpl; [done|]. intros Ha.
  destruct (rstrip s); simpl; [by rewrite Ha|done].
Qed.

Lemma rstrip_idempotent s : rstrip (rstrip s) = rstrip s.
Proof.
  induction s as [|a s IH]; simpl; [done|].
  destruct (rstrip s) as [|b t] eqn:E.
  - destruct (is_space a) eqn:Ha; simpl; [done|]. by rewrite Ha.
  - change (rstrip (String a (String b t)))
      with (match rstrip (String b t) with
            | EmptyString => if is_space a then EmptyString else String a EmptyString
            | u => String a u
            end).
    by rewrite IH.
Qed.

(** Trimming a trimmed text changes nothing. *)
Lemma strip_idempotent s : strip (strip s) = strip s.
Proof.
  unfold strip. rewrite (lstrip_clean (rstrip (lstrip s))).
  - apply rstrip_idempotent.
  - apply rstrip_starts_clean, lstrip_starts_clean.
Qed.

(** ** The primary key of the cleaned batch *)

Lemma getitem_setitem (df : DataFrame) c s : getitem (setitem df c s) c = s.
Proof.
  unfold setitem. case_bool_decide as Hc.
  - induction df as [|[c' s'] df IH]; [by apply elem_of_nil in Hc|].
    simpl. destruct (decide (c' = c)) as [->|Hne].
    + rewrite !(bool_decide_eq_true_2 (c = c)) by done. done.
    + rewrite !(bool_decide_eq_false_2 (c' = c)) by done. simpl.
      rewrite ?(bool_decide_eq_false_2 (c' = c)) by done.
      apply IH. simpl in Hc. apply elem_of_cons in Hc as [?|?]; [congruence|done].
  - rewrite getitem_app_r by done. simpl. by rewrite bool_decide_eq_true_2.
Qed.

Lemma columns_setitem (df : DataFrame) c s : c ∈ columns (setitem df c s).
Proof.
  unfold setitem. case_bool_decide as Hc.
  - unfold columns. rewrite <- list_fmap_compose.
    apply list_elem_of_fmap in Hc as ([c' s'] & -> & Hin).
    apply list_elem_of_fmap. exists (c', s'). split; [|done].
    simpl. by rewrite bool_decide_eq_true_2.
  - unfold columns. rewrite fmap_app. apply elem_of_app. right. by left.
Qed.

Lemma getitem_take_rows mask (df : DataFrame) c :
  c ∈ columns df ->
  getitem (take_rows mask df) c
  = mkSeries (s_dtype (getitem df c)) (select mask (s_values (getitem df c))).
Proof.
  induction df as [|[c' s'] df IH]; intros Hc; [by apply elem_of_nil in Hc|].
  simpl in *. case_bool_decide; [done|].
  apply IH. apply elem_of_cons in Hc as [?|?]; [congruence|done].
Qed.

Lemma columns_take_rows mask (df : DataFrame) : columns (take_rows mask df) = columns df.
Proof. unfold columns, take_rows. by rewrite <- list_fmap_compose. Qed.

Lemma getitem_project names (df : DataFrame) c :
  c ∈ names -> getitem (project names df) c = getitem df c.
Proof.
  induction names as [|n names IH]; intros Hc; [by apply elem_of_nil in Hc|].
  simpl. case_bool_decide as Hn; [by subst|].
  apply IH. apply elem_of_cons in Hc as [?|?]; [congruence|done].
Qed.

Lemma select_map_self (f : value -> bool) (vs : list value) :
  Forall (fun v => f v = true) (select (map f vs) vs).
Proof.
  induction vs as [|v vs IH]; simpl; [constructor|].
  destruct (f v) eqn:Hf; [by constructor|done].
Qed.

Lemma select_sublist mask (vs : list value) : forall v, v ∈ select mask vs -> v ∈ vs.
Proof.
  revert mask. induction vs as [|x vs IH]; intros mask v Hv.
  - by destruct mask.
  - destruct mask as [|b mask]; [by apply elem_of_nil in Hv|]. simpl in Hv.
    destruct b.
    + apply elem_of_cons in Hv as [->|Hv]; [by left|]. right. by eapply IH.
    + right. by eapply IH.
Qed.

Section Cleaning.

Variable repr_number : Q -> string.
Variable parse_number : string -> option Q.
Variable parse_datetime : value -> option (Z * Z * Z * Z).

(** The part of the key invariant that holds: every key of a cleaned batch
    is a text, not empty, that trimming leaves as it is. *)
Lemma apply_cleaning_keys_present (df out : DataFrame) :
  apply_cleaning repr_number parse_number parse_datetime df = inr out ->
  PK ∈ columns out /\
  forall v, v ∈ s_values (getitem out PK) ->
    exists t, v = VStr t /\ strip t = t /\ t <> "".
Proof.
  unfold apply_cleaning.
  match goal with |- context [negb (bool_decide (PK ∈ columns ?d))] => generalize d end.
  intros df0. case_bool_decide as Hpk; simpl; [|done].
  destruct (_convert_yes_no _ _) as [df1 bool_cols].
  destruct (_impute_missing _ bool_cols) as [e|df5]; simpl; [done|].
  match goal with |- context [setitem ?d PK ?s] => set (df2 := setitem d PK s) end.
  intros [= <-].
  assert (PK ∈ filter (fun c : string => c ∈ columns (take_rows
            (map pk_ok (s_values (getitem df2 PK))) df2)) KEEP_COLS) as Hkeep.
  { apply list_elem_of_filter. split; [|by left].
    rewrite columns_take_rows. apply columns_setitem. }
  split.
  { unfold project, columns. rewrite <- list_fmap_compose. simpl. by rewrite list_fmap_id. }
  rewrite getitem_project by done.
  rewrite getitem_take_rows by apply columns_setitem. simpl.
  intros v Hv.
  pose proof (select_map_self pk_ok (s_values (getitem df2 PK))) as Hall.
  rewrite Forall_forall in Hall. specialize (Hall v Hv).
  apply select_sublist in Hv. unfold df2 in Hv. rewrite getitem_setitem in Hv.
  simpl in Hv. apply list_elem_of_fmap in Hv as (x & -> & Hx).
  apply list_elem_of_fmap in Hx as (y & -> & _).
  unfold pk_ok in Hall. apply andb_true_iff in Hall as [Hnn Hne].
  apply negb_true_iff, bool_decide_eq_false in Hne.
  destruct (to_str repr_number y) as [|q|t|b] eqn:Hy; simpl in *; try done.
  - by destruct y.
  - exists (strip t). split; [done|]. split; [apply strip_idempotent|].
    by intros Heq; rewrite Heq in Hne.
  - by destruct y.
Qed.

(** C2.  Two rows whose keys differ only by surrounding blanks both pass
    the de-duplication, which runs before the keys are trimmed: the cleaned
    batch holds the key "X1" twice. *)
Theorem apply_cleaning_repeats_key :
  apply_cleaning repr_number parse_number parse_datetime
    [("crash_record_id", mkSeries DObject [VStr "X1"; VStr "X1 "])]
  = inr [("crash_record_id", mkSeries DString [VStr "X1"; VStr "X1"])].
Proof. vm_compute. reflexivity. Qed.

End Cleaning.

(** ** A frame the cleaning does not survive *)

(** The UTC year, month, day and hour of the two dates below. *)
Definition read_date (v : value) : option (Z * Z * Z * Z) :=
  match v with
  | VStr "2024-01-01" => Some (2024, 1, 1, 0)%Z
  | VStr "2023-01-01" => Some (2023, 1, 1, 0)%Z
  | _ => None
  end.

Definition dated : DataFrame :=
  [("crash_record_id", mkSeries DObject [VStr "A"; VStr "B"; VStr "C"]);
   ("crash_date", mkSeries DObject [VStr "2024-01-01"; VStr "2023-01-01"; VNull])].

(** Three crashes, two dated in different years and one undated: the
    imputation of the year raises and so does the cleaning. *)
Lemma apply_cleaning_type_error (repr_number : Q -> string)
    (parse_number : string -> option Q) :
  apply_cleaning repr_number parse_number read_date dated = inl TypeError.
Proof. vm_compute. reflexivity. Qed.

End cleaning_rules_spec.

(* ===================================================================== *)
(** * Properties of the merger                                            *)
(* ===================================================================== *)

Module transformer_spec.

Import Facts Polars transformer.

(** ** First occurrences *)

Lemma first_by_sublist {K} `{EqDecision K} (key : prow -> K) seen rs r :
  r ∈ first_by key seen rs -> r ∈ rs.
Proof.
  revert seen. induction rs as [|x rs IH]; intros seen Hr; [done|].
  simpl in Hr. case_bool_decide.
  - right. by eapply IH.
  - apply elem_of_cons in Hr as [->|Hr]; [by left|]. right. by eapply IH.
Qed.

Lemma first_by_keys {K} `{EqDecision K} (key : prow -> K) seen rs :
  NoDup (map key (first_by key seen rs)) /\
  (forall k, k ∈ map key (first_by key seen rs) <-> k ∈ map key rs /\ k ∉ seen).
Proof.
  revert seen. induction rs as [|x rs IH]; intros seen; simpl.
  - split; [constructor|]. intros k. split; [by intros ?%elem_of_nil|].
    by intros [?%elem_of_nil _].
  - case_bool_decide as Hx.
    + destruct (IH seen) as [Hnd Hk]. split; [done|]. intros k. rewrite Hk.
      split; [intros [? ?]; split; [by right|done]|].
      intros [[->|?]%elem_of_cons ?]; [done|by split].
    + destruct (IH (key x :: seen)) as [Hnd Hk]. simpl. split.
      * apply NoDup_cons. split; [|done]. intros Hin%Hk. destruct Hin as [_ Hin].
        apply Hin. by left.
      * intros k. rewrite !elem_of_cons, Hk. split.
        -- intros [->|[Hin Hns]]; [by split; [left|]|].
           apply not_elem_of_cons in Hns as [? ?]. by split; [right|].
        -- intros [[->|?] ?]; [by left|].
           destruct (decide (k = key x)) as [->|?]; [by left|right].
           split; [done|]. by apply not_elem_of_cons.
Qed.

Lemma group_keys_spec c rs :
  NoDup (group_keys c rs) /\
  (forall k, k ∈ group_keys c rs <-> exists r, r ∈ rs /\ pcell r c = k).
Proof.
  unfold group_keys. destruct (first_by_keys (fun r => pcell r c) [] rs) as [Hnd Hk].
  split; [done|]. intros k. rewrite Hk. split.
  - intros [(r & -> & Hr)%list_elem_of_fmap _]. eauto.
  - intros (r & Hr & <-). split; [|apply not_elem_of_nil].
    apply list_elem_of_fmap. by exists r.
Qed.

(** ** Sorted unique texts *)

(** [v] is the list of the texts found in column [c] of the rows [g]:
    sorted, without repetition, nulls left out. *)
Definition sorted_unique_texts (c : string) (g : list prow) (v : pval) : Prop :=
  exists l, v = PList l /\ Sorted text_le l /\ NoDup l /\
            forall s, s ∈ l <-> exists r, r ∈ g /\ pcell r c = PStr s.

Lemma distinct_texts_spec c g : sorted_unique_texts c g (distinct_texts c g).
Proof.
  unfold distinct_texts, sort_texts. eexists. split; [done|].
  split; [apply Sorted_merge_sort, _|].
  split.
  - rewrite merge_sort_Permutation. apply NoDup_remove_dups.
  - intros s. rewrite merge_sort_Permutation, elem_of_remove_dups, list_elem_of_omap.
    split; intros (r & Hr & Ht); exists r; split; try done.
    + unfold text_of in Ht. by destruct (pcell r c); simplify_eq.
    + by rewrite Ht.
Qed.

(** ** Grouping *)

Definition agg_row (c count : string) (lists : list (string * string)) (rs : list prow)
    (k : pval) : prow :=
  let g := group_of c k rs in
  list_to_map ((c, k) :: (count, count_value (length g))
                 :: map (fun nc => (nc.1, distinct_texts nc.2 g)) lists).

Lemma group_by_agg_inv c count lists df agg :
  group_by_agg c count lists df = inr agg ->
  c ∈ columns df /\ NoDup (c :: count :: lists.*1) /\
  columns agg = c :: count :: lists.*1 /\
  rows agg = map (agg_row c count lists (rows df)) (group_keys c (rows df)).
Proof.
  unfold group_by_agg. case_bool_decide as Hc; simpl; [|done].
  case_bool_decide as Hnd; simpl; [|done]. intros [= <-].
  split; [done|]. split; [done|]. split; [|done].
  unfold columns. simpl. do 2 f_equal. by rewrite <- list_fmap_compose.
Qed.

Lemma agg_row_lookup c count lists rs k :
  NoDup (c :: count :: lists.*1) ->
  pcell (agg_row c count lists rs k) c = k /\
  pcell (agg_row c count lists rs k) count = count_value (length (group_of c k rs)) /\
  (forall nc, nc ∈ lists ->
     pcell (agg_row c count lists rs k) nc.1 = distinct_texts nc.2 (group_of c k rs)).
Proof.
  intros Hnd. unfold agg_row, pcell.
  assert (forall n v, (n, v) ∈ (c, k) :: (count, count_value (length (group_of c k rs)))
                        :: map (fun nc : string * string =>
                                  (nc.1, distinct_texts nc.2 (group_of c k rs))) lists ->
          (list_to_map ((c, k) :: (count, count_value (length (group_of c k rs)))
                        :: map (fun nc : string * string =>
                                  (nc.1, distinct_texts nc.2 (group_of c k rs))) lists)
             : prow) !! n = Some v) as Hlk.
  { intros n v Hin. apply elem_of_list_to_map_1; [|done].
    simpl. rewrite <- list_fmap_compose. done. }
  split; [by rewrite (Hlk c k) by left|].
  split; [by rewrite (Hlk count _) by (right; left)|].
  intros nc Hnc. rewrite (Hlk nc.1 (distinct_texts nc.2 (group_of c k rs))); [done|].
  right; right. apply list_elem_of_fmap. by exists nc.
Qed.

Lemma group_nonempty c k rs : group_of c k rs <> [] <-> k ∈ group_keys c rs.
Proof.
  rewrite (proj2 (group_keys_spec c rs)). unfold group_of. split.
  - intros Hne. destruct (filter _ rs) as [|r g] eqn:Hf; [done|].
    assert (r ∈ filter (fun r => pcell r c = k) rs) as Hr by (rewrite Hf; left).
    apply list_elem_of_filter in Hr as [? ?]. eauto.
  - intros (r & Hr & Hk) Hf.
    assert (r ∈ filter (fun r => pcell r c = k) rs) as Hin by (by apply list_elem_of_filter).
    rewrite Hf in Hin. by apply elem_of_nil in Hin.
Qed.

(** Among rows with distinct keys, the rows of one key. *)
Lemma filter_by_key {A} (f : pval -> A) (key : A -> pval) (ks : list pval) (k : pval)
    (Q : Prop) `{!Decision Q} :
  (forall k', key (f k') = k') -> NoDup ks ->
  filter (fun a => key a = k /\ Q) (map f ks)
  = if bool_decide (k ∈ ks /\ Q) then [f k] else [].
Proof.
  intros Hkey Hnd. induction ks as [|k' ks IH].
  - case_bool_decide as H; [|done]. by destruct H as [?%elem_of_nil _].
  - apply NoDup_cons in Hnd as [Hnin Hnd]. specialize (IH Hnd).
    rewrite map_cons.
    destruct (decide (k' = k /\ Q)) as [[-> HQ]|Hno].
    + rewrite filter_cons_True by (by rewrite Hkey).
      rewrite IH. rewrite (bool_decide_eq_false_2 (k ∈ ks /\ Q)) by tauto.
      rewrite bool_decide_eq_true_2; [done|]. split; [by left|done].
    + rewrite filter_cons_False by (rewrite Hkey; tauto).
      rewrite IH. apply if_ext_bool. rewrite elem_of_cons. split; [tauto|].
      intros [[->|?] ?]; [|done]. tauto.
Qed.

(** ** Joining an aggregate *)

(** [o] is the row [l] of the primary frame with the aggregates of its key
    attached: the count and the lists of the related rows of the same key,
    nulls when the key is missing or no related row carries it. *)
Definition joined (c count : string) (lists : list (string * string)) (rs : list prow)
    (l o : prow) : Prop :=
  (forall m, m ∉ count :: lists.*1 -> o !! m = l !! m) /\
  let g := group_of c (pcell l c) rs in
  if bool_decide (pcell l c <> PNull /\ g <> [])
  then pcell o count = count_value (length g) /\
       forall nc, nc ∈ lists -> pcell o nc.1 = distinct_texts nc.2 g
  else pcell o count = PNull /\
       forall nc, nc ∈ lists -> pcell o nc.1 = PNull.

Lemma right_part_plain left_cols c names get :
  NoDup (c :: names) -> (forall n, n ∈ names -> n ∉ left_cols) ->
  right_part left_cols c (c :: names) get = map (fun n => (n, get n)) names.
Proof.
  intros Hnd Hfree. unfold right_part. apply NoDup_cons in Hnd as [Hc _].
  rewrite filter_cons_False by (by intros H; apply H).
  rewrite filter_all by (intros n Hn ->; done).
  apply map_ext_in. intros n Hn%list_elem_of_In. unfold joined_name.
  by rewrite bool_decide_eq_false_2 by (by apply Hfree).
Qed.

Lemma attach_lookup (names : list string) (get : string -> pval) (l : prow) :
  (forall n, n ∈ names ->
     pcell ((list_to_map (map (fun n => (n, get n)) names) : prow) ∪ l) n = get n) /\
  (forall m, m ∉ names ->
     ((list_to_map (map (fun n => (n, get n)) names) : prow) ∪ l) !! m = l !! m).
Proof.
  split.
  - intros n Hn. unfold pcell. erewrite lookup_union_Some_l; [done|].
    rewrite lookup_tabulate. by rewrite bool_decide_eq_true_2.
  - intros m Hm. apply lookup_union_r.
    rewrite lookup_tabulate. by rewrite bool_decide_eq_false_2.
Qed.

Lemma joined_columns left_cols on (sch : list (string * dtype)) :
  (map (fun cd : string * dtype => (joined_name left_cols cd.1, cd.2))
       (filter (fun cd : string * dtype => cd.1 <> on) sch)).*1
  = (right_part left_cols on sch.*1 (fun _ => PNull)).*1.
Proof.
  unfold right_part. induction sch as [|[n dt] sch IH]; [done|].
  rewrite fmap_cons. simpl.
  destruct (decide (n = on)) as [->|Hne].
  - rewrite !filter_cons_False by (by intros H; apply H). apply IH.
  - rewrite !filter_cons_True by done. simpl. f_equal. apply IH.
Qed.

Lemma join_agg_rows c count lists df agg left o :
  group_by_agg c count lists df = inr agg ->
  (forall n, n ∈ count :: lists.*1 -> n ∉ columns left) ->
  join_left c left agg = inr o ->
  columns o = columns left ++ count :: lists.*1 /\
  forall o_row, o_row ∈ rows o ->
    exists l, l ∈ rows left /\ joined c count lists (rows df) l o_row.
Proof.
  intros Hagg Hfree. apply group_by_agg_inv in Hagg as (Hc & Hnd & Hcols & Hrows).
  unfold join_left. destruct (_ || _); [done|]. destruct (negb _); [done|].
  case_bool_decide as Hnd2; simpl; [|done]. intros [= <-]. split.
  { unfold columns. simpl. rewrite fmap_app. f_equal. fold (columns left).
    transitivity (right_part (columns left) c (columns agg) (fun _ => PNull)).*1.
    - apply joined_columns.
    - rewrite Hcols, right_part_plain by done. rewrite <- list_fmap_compose. simpl.
      by rewrite list_fmap_id. }
  simpl. intros o_row Hin. apply list_elem_of_In, in_flat_map in Hin as (l & Hl & Hin).
  apply list_elem_of_In in Hl, Hin. exists l. split; [done|].
  rewrite Hcols in Hin. rewrite !right_part_plain in Hin by done.
  rewrite Hrows in Hin.
  rewrite (filter_by_key (agg_row c count lists (rows df)) (fun r => pcell r c)) in Hin.
  2:{ intros k'. by apply agg_row_lookup. }
  2:{ apply group_keys_spec. }
  unfold joined.
  destruct (attach_lookup (count :: lists.*1) (fun _ => PNull) l) as [HnN HoN].
  assert (pcell l c ∈ group_keys c (rows df) /\ pcell l c <> PNull
          <-> pcell l c <> PNull /\ group_of c (pcell l c) (rows df) <> []) as Hiff.
  { rewrite group_nonempty. tauto. }
  rewrite <- (if_ext_bool _ _ _ _ Hiff).
  case_bool_decide as Hm.
  - simpl in Hin. apply list_elem_of_singleton in Hin as ->.
    rewrite right_part_plain by done.
    destruct (attach_lookup (count :: lists.*1)
                (pcell (agg_row c count lists (rows df) (pcell l c))) l) as [Hn Ho].
    destruct (agg_row_lookup c count lists (rows df) (pcell l c) Hnd) as (_ & Hcount & Hlists).
    split; [done|]. split.
    + rewrite Hn by left. done.
    + intros nc Hnc. rewrite Hn; [by apply Hlists|].
      right. apply list_elem_of_fmap. by exists nc.
  - apply list_elem_of_singleton in Hin as ->.
    split; [done|]. split; [by rewrite HnN by left|].
    intros nc Hnc. rewrite HnN; [done|]. right. apply list_elem_of_fmap. by exists nc.
Qed.

(** ** The merge *)

(** A dataset as the merger groups and joins it: standardized, its id
    column resolved. *)
Definition prepared (id_col : string) (df : DataFrame) : exn + DataFrame :=
  df ← basic_standardize df; _ensure_id (Pandas.lower id_col) df.

Definition count_name (prefix : string) : string := prefix +:+ "_count".

Definition list_name (prefix c : string) : string := prefix +:+ "_" +:+ c +:+ "_list".

Definition agg_lists (prefix : string) (df : DataFrame) (id : string)
    : list (string * string) :=
  map (fun c => (list_name prefix c, c)) (text_columns df id).

(** The names of the aggregate columns of one related dataset. *)
Definition agg_names (prefix : string) (df : DataFrame) (id : string) : list string :=
  count_name prefix :: (agg_lists prefix df id).*1.

(** The aggregates of the related dataset [rel] as the merged row [o]
    shows them. *)
Definition aggregates_of (prefix id : string) (rel : DataFrame) (o : prow) : Prop :=
  let g := group_of id (pcell o id) (rows rel) in
  if bool_decide (pcell o id <> PNull /\ g <> [])
  then pcell o (count_name prefix) = count_value (length g) /\
       forall c, c ∈ text_columns rel id ->
         sorted_unique_texts c g (pcell o (list_name prefix c))
  else pcell o (count_name prefix) = PNull /\
       forall c, c ∈ text_columns rel id -> pcell o (list_name prefix c) = PNull.

Definition keyed (id : string) (rel : DataFrame) : Prop :=
  is_empty rel = false /\ id ∈ columns rel.

#[global] Instance keyed_dec id rel : Decision (keyed id rel).
Proof. unfold keyed. apply _. Defined.

Lemma group_keys_nonempty c rs : rs <> [] -> group_keys c rs <> [].
Proof.
  destruct rs as [|r rs]; [done|]. intros _ Hk.
  assert (pcell r c ∈ group_keys c (r :: rs)) as Hin.
  { apply group_keys_spec. exists r. split; [by left|done]. }
  rewrite Hk in Hin. by apply elem_of_nil in Hin.
Qed.

(** One related dataset: aggregated when it has rows and the id column,
    then left-joined to the frame built so far. *)
Lemma attach_phase prefix rel id left agg o :
  aggregate_if_keyed rel id prefix = inr agg ->
  join_if_any id left agg = inr o ->
  (keyed id rel -> forall n, n ∈ agg_names prefix rel id -> n ∉ columns left) ->
  (keyed id rel ->
     (id ∉ agg_names prefix rel id) /\
     columns o = columns left ++ agg_names prefix rel id /\
     forall o_row, o_row ∈ rows o ->
       exists l, l ∈ rows left /\
                 joined id (count_name prefix) (agg_lists prefix rel id) (rows rel) l o_row) /\
  (~ keyed id rel -> o = left).
Proof.
  intros Hagg Hjoin Hfree. split.
  - intros Hk. specialize (Hfree Hk). destruct Hk as [He Hid].
    unfold aggregate_if_keyed, join_if_any in *.
    rewrite He, (bool_decide_eq_true_2 _ Hid) in Hagg. simpl in Hagg.
    unfold aggregate_many_to_one in Hagg. rewrite He in Hagg.
    fold (count_name prefix) in Hagg.
    change (map (fun c : string => (prefix +:+ "_" +:+ c +:+ "_list", c))
                (text_columns rel id))
      with (agg_lists prefix rel id) in Hagg.
    pose proof (group_by_agg_inv _ _ _ _ _ Hagg) as (_ & Hnd & _ & Hrows).
    assert (is_empty agg = false) as Hne.
    { unfold is_empty. rewrite Hrows.
      destruct (group_keys id (rows rel)) eqn:Hk; [|done].
      exfalso. eapply group_keys_nonempty; [|exact Hk].
      unfold is_empty in He. by destruct (rows rel). }
    rewrite Hne in Hjoin. simpl in Hjoin.
    destruct (join_agg_rows _ _ _ _ _ _ _ Hagg Hfree Hjoin) as [Hcols Hout].
    split; [by apply NoDup_cons in Hnd as [? _]|]. by split.
  - intros Hk. unfold aggregate_if_keyed, join_if_any, keyed in *.
    destruct (is_empty rel) eqn:He; simpl in *.
    + inversion Hagg; subst agg. simpl in Hjoin. by inversion Hjoin.
    + case_bool_decide as Hid; simpl in *; [exfalso; by apply Hk|].
      inversion Hagg; subst agg. simpl in Hjoin. by inversion Hjoin.
Qed.

Lemma veh_name n df id : n ∈ agg_names "veh" df id -> exists t, n = String "v" t.
Proof.
  intros [->|Hn]%elem_of_cons; [by eexists|].
  unfold agg_lists in Hn. rewrite <- list_fmap_compose in Hn.
  apply list_elem_of_fmap in Hn as (c & -> & _). by eexists.
Qed.

Lemma ppl_name n df id : n ∈ agg_names "ppl" df id -> exists t, n = String "p" t.
Proof.
  intros [->|Hn]%elem_of_cons; [by eexists|].
  unfold agg_lists in Hn. rewrite <- list_fmap_compose in Hn.
  apply list_elem_of_fmap in Hn as (c & -> & _). by eexists.
Qed.

Lemma unique_subset_inv c df out :
  unique_subset c df = inr out ->
  c ∈ columns df /\ schema out = schema df /\
  rows out = first_by (fun r => pcell r c) [] (rows df).
Proof. unfold unique_subset. case_bool_decide; [|done]. by intros [= <-]. Qed.

Lemma joined_aggregates prefix id rel l o :
  id ∉ agg_names prefix rel id ->
  joined id (count_name prefix) (agg_lists prefix rel id) (rows rel) l o ->
  pcell o id = pcell l id /\ aggregates_of prefix id rel o.
Proof.
  intros Hid [Hframe Hagg].
  assert (pcell o id = pcell l id) as Hk by (unfold pcell; by rewrite Hframe).
  split; [done|]. unfold aggregates_of. rewrite Hk. simpl in *.
  case_bool_decide; destruct Hagg as [Hcount Hlists]; (split; [done|]); intros c Hc.
  - specialize (Hlists (list_name prefix c, c)). simpl in Hlists. rewrite Hlists.
    + apply distinct_texts_spec.
    + unfold agg_lists. apply list_elem_of_fmap. by exists c.
  - apply (Hlists (list_name prefix c, c)).
    unfold agg_lists. apply list_elem_of_fmap. by exists c.
Qed.

(** Aggregates already attached are not disturbed by a later join. *)
Lemma aggregates_frame prefix id rel (l o : prow) (names : list string) :
  (forall m, m ∉ names -> o !! m = l !! m) ->
  id ∉ names -> (forall n, n ∈ agg_names prefix rel id -> n ∉ names) ->
  aggregates_of prefix id rel l -> aggregates_of prefix id rel o.
Proof.
  intros Hframe Hid Hnames. unfold aggregates_of.
  assert (forall m, m ∉ names -> pcell o m = pcell l m) as Hcell.
  { intros m Hm. unfold pcell. by rewrite Hframe. }
  rewrite (Hcell id Hid). rewrite (Hcell (count_name prefix)) by (apply Hnames; left).
  assert (forall c, c ∈ text_columns rel id ->
            pcell o (list_name prefix c) = pcell l (list_name prefix c)) as Hl.
  { intros c Hc. apply Hcell, Hnames. right. unfold agg_lists.
    rewrite <- list_fmap_compose. apply list_elem_of_fmap. by exists c. }
  simpl. case_bool_decide; intros [Hcount Hlists]; (split; [done|]); intros c Hc;
    rewrite (Hl c Hc); by apply Hlists.
Qed.

(** ** One merged row for each primary row *)

Lemma first_by_Forall2 {K} `{EqDecision K} (R : prow -> prow -> Prop) (key : prow -> K)
    seen rs rs' :
  (forall l o, R l o -> key l = key o) ->
  Forall2 R rs rs' -> Forall2 R (first_by key seen rs) (first_by key seen rs').
Proof.
  intros Hkey H. revert seen. induction H as [|l o rs rs' Hlo H IH]; intros seen; [done|].
  simpl. rewrite <- (Hkey l o Hlo). case_bool_decide; [apply IH|].
  constructor; [done|apply IH].
Qed.

Lemma flat_map_singletons {A B} (R : A -> B -> Prop) (g : A -> list B) (ls : list A) :
  (forall l, l ∈ ls -> exists o, g l = [o] /\ R l o) -> Forall2 R ls (flat_map g ls).
Proof.
  induction ls as [|l ls IH]; intros H; [done|]. simpl.
  destruct (H l) as (o & -> & Hlo); [by left|]. simpl.
  constructor; [done|]. apply IH. intros l' Hl'. apply H. by right.
Qed.

(** A left join with an aggregate yields one row for each row of the
    frame, in order. *)
Lemma join_agg_rowwise c count lists df agg left o :
  group_by_agg c count lists df = inr agg ->
  (forall n, n ∈ count :: lists.*1 -> n ∉ columns left) ->
  join_left c left agg = inr o ->
  Forall2 (fun l o_row => forall m, m ∉ count :: lists.*1 -> o_row !! m = l !! m)
          (rows left) (rows o).
Proof.
  intros Hagg Hfree. apply group_by_agg_inv in Hagg as (Hc & Hnd & Hcols & Hrows).
  unfold join_left. destruct (_ || _); [done|]. destruct (negb _); [done|].
  case_bool_decide as Hnd2; simpl; [|done]. intros [= <-]. simpl.
  apply flat_map_singletons. intros l _.
  rewrite Hcols. rewrite !right_part_plain by done. rewrite Hrows.
  rewrite (filter_by_key (agg_row c count lists (rows df)) (fun r => pcell r c)).
  2:{ intros k'. by apply agg_row_lookup. }
  2:{ apply group_keys_spec. }
  case_bool_decide.
  - eexists. split; [reflexivity|]. rewrite right_part_plain by done.
    apply (attach_lookup (count :: lists.*1)).
  - eexists. split; [reflexivity|]. apply (attach_lookup (count :: lists.*1)).
Qed.

(** The rows agree on the columns [cols]. *)
Definition same_on (cols : list string) (l o : prow) : Prop :=
  forall m, m ∈ cols -> o !! m = l !! m.

Lemma aggregate_keyed_has_rows rel id prefix agg :
  keyed id rel -> aggregate_if_keyed rel id prefix = inr agg -> is_empty agg = false.
Proof.
  intros [He Hid]. unfold aggregate_if_keyed, aggregate_many_to_one.
  rewrite He, (bool_decide_eq_true_2 _ Hid). simpl. intros Hagg.
  apply group_by_agg_inv in Hagg as (_ & _ & _ & Hrows).
  unfold is_empty in *. rewrite Hrows.
  destruct (rows rel) as [|r rs] eqn:Hr; [done|].
  pose proof (group_keys_nonempty id (r :: rs)) as Hne.
  destruct (group_keys id (r :: rs)); [by destruct Hne|done].
Qed.

Lemma attach_phase_rowwise prefix rel id left agg o cols :
  aggregate_if_keyed rel id prefix = inr agg ->
  join_if_any id left agg = inr o ->
  (keyed id rel -> forall n, n ∈ agg_names prefix rel id -> n ∉ columns left) ->
  (keyed id rel -> forall n, n ∈ agg_names prefix rel id -> n ∉ cols) ->
  Forall2 (same_on cols) (rows left) (rows o).
Proof.
  intros Hagg Hjoin Hfree Hcols.
  destruct (decide (keyed id rel)) as [Hk|Hk].
  - specialize (Hfree Hk). specialize (Hcols Hk).
    assert (is_empty agg = false) as Hne by (by eapply aggregate_keyed_has_rows).
    destruct Hk as [He Hid]. unfold aggregate_if_keyed, join_if_any in *.
    rewrite He, (bool_decide_eq_true_2 _ Hid) in Hagg. simpl in Hagg.
    rewrite Hne in Hjoin. simpl in Hjoin.
    unfold aggregate_many_to_one in Hagg. rewrite He in Hagg.
    eapply Forall2_impl; [by eapply join_agg_rowwise|].
    intros l o_row Hrow m Hm. apply Hrow. intros Hin. by apply (Hcols m).
  - destruct (attach_phase prefix rel id left agg o Hagg Hjoin Hfree) as [_ Heq].
    rewrite (Heq Hk). apply Forall_Forall2_diag, Forall_forall. by intros l _ m _.
Qed.

Lemma same_on_trans cols (l m o : prow) : same_on cols l m -> same_on cols m o -> same_on cols l o.
Proof. intros H1 H2 c Hc. by rewrite H2, H1. Qed.

Lemma Forall2_trans_rel {A} (R : A -> A -> Prop) (l1 l2 l3 : list A) :
  (forall a b c, R a b -> R b c -> R a c) ->
  Forall2 R l1 l2 -> Forall2 R l2 l3 -> Forall2 R l1 l3.
Proof.
  intros Htr H12. revert l3. induction H12 as [|a b l1 l2 Hab H12 IH]; intros l3 H23.
  - by inversion H23.
  - inversion H23; subst. constructor; [by eapply Htr|by apply IH].
Qed.

(** The merged frame, phase by phase.  Its rows are the first primary
    rows of each id, in order, unchanged in the primary columns; its
    columns are the primary columns followed by the aggregates of each
    related dataset that has rows and the id column; and each row carries
    the aggregates of its id. *)
Lemma merge_rows crashes vehicles people id_col out c' v' p' :
  prepared id_col crashes = inr c' ->
  prepared id_col vehicles = inr v' ->
  prepared id_col people = inr p' ->
  merge_crash_vehicles_people crashes vehicles people id_col = inr out ->
  let id := Pandas.lower id_col in
  id ∈ columns c' ->
  (keyed id v' -> forall n, n ∈ agg_names "veh" v' id -> n ∉ columns c') ->
  (keyed id p' -> forall n, n ∈ agg_names "ppl" p' id -> n ∉ columns c') ->
  Forall2 (same_on (columns c')) (first_by (fun r => pcell r id) [] (rows c')) (rows out) /\
  columns out
  = columns c' ++ (if decide (keyed id v') then agg_names "veh" v' id else [])
               ++ (if decide (keyed id p') then agg_names "ppl" p' id else []) /\
  forall o, o ∈ rows out ->
    (keyed id v' -> aggregates_of "veh" id v' o) /\
    (keyed id p' -> aggregates_of "ppl" id p' o).
Proof.
  intros Hc Hv Hp Hm id Hid Hfv Hfp.
  revert Hc Hv Hp Hm. unfold prepared, merge_crash_vehicles_people. fold id.
  intros Hc Hv Hp Hm. unfold mbind, result_bind in *.
  destruct (basic_standardize crashes) as [?|c0]; [done|].
  destruct (basic_standardize vehicles) as [?|v0]; [done|].
  destruct (basic_standardize people) as [?|p0]; [done|].
  simpl in Hc, Hv, Hp, Hm. rewrite Hc, Hv, Hp in Hm. simpl in Hm.
  rewrite (bool_decide_eq_true_2 _ Hid) in Hm. rewrite andb_false_r in Hm.
  destruct (aggregate_if_keyed v' id "veh") as [?|va] eqn:Hva; [done|].
  destruct (aggregate_if_keyed p' id "ppl") as [?|pa] eqn:Hpa; [done|].
  simpl in Hm.
  destruct (join_if_any id c' va) as [?|o1] eqn:Ho1; [done|].
  simpl in Hm.
  destruct (join_if_any id o1 pa) as [?|o2] eqn:Ho2; [done|].
  simpl in Hm.
  destruct (attach_phase "veh" v' id c' va o1 Hva Ho1 Hfv) as [Hveh Hveh0].
  assert (columns o1
          = columns c' ++ (if decide (keyed id v') then agg_names "veh" v' id else []))
    as Hcols1.
  { destruct (decide (keyed id v')) as [Hk|Hk]; [by destruct (Hveh Hk) as (_ & -> & _)|].
    rewrite (Hveh0 Hk). by rewrite app_nil_r. }
  assert (keyed id p' -> forall n, n ∈ agg_names "ppl" p' id -> n ∉ columns o1) as Hfp1.
  { intros Hkp n Hn. rewrite Hcols1. intros [?|Hin]%elem_of_app; [by eapply Hfp|].
    destruct (decide (keyed id v')); [|by apply elem_of_nil in Hin].
    apply veh_name in Hin as [t ->]. apply ppl_name in Hn as [t' Heq]. done. }
  destruct (attach_phase "ppl" p' id o1 pa o2 Hpa Ho2 Hfp1) as [Hppl Hppl0].
  apply unique_subset_inv in Hm as (_ & Hsch & Hrows).
  split; [|split].
  - rewrite Hrows.
    pose proof (attach_phase_rowwise "veh" v' id c' va o1 (columns c') Hva Ho1 Hfv Hfv)
      as H1.
    pose proof (attach_phase_rowwise "ppl" p' id o1 pa o2 (columns c') Hpa Ho2 Hfp1 Hfp)
      as H2.
    pose proof (Forall2_trans_rel _ _ _ _ (same_on_trans (columns c')) H1 H2) as H12.
    apply first_by_Forall2; [|done].
    intros l o Hlo. unfold pcell. by rewrite (Hlo id Hid).
  - unfold columns at 1. rewrite Hsch. fold (columns o2).
    destruct (decide (keyed id p')) as [Hk|Hk].
    + destruct (Hppl Hk) as (_ & -> & _). by rewrite Hcols1, <- app_assoc.
    + rewrite (Hppl0 Hk), Hcols1. by rewrite app_nil_r.
  - intros o Ho. rewrite Hrows in Ho. apply first_by_sublist in Ho.
    split.
    + intros Hk. destruct (Hveh Hk) as (Hidv & _ & Hrows1).
      destruct (decide (keyed id p')) as [Hkp|Hkp].
      * destruct (Hppl Hkp) as (Hidp & _ & Hrows2).
        destruct (Hrows2 o Ho) as (l1 & Hl1 & [Hframe _]).
        destruct (Hrows1 l1 Hl1) as (l & _ & Hj).
        apply joined_aggregates in Hj as [_ Hagg]; [|done].
        eapply aggregates_frame; [exact Hframe|exact Hidp| |exact Hagg].
        intros n Hn Hn'. apply veh_name in Hn as [t ->]. apply ppl_name in Hn' as [t' Heq].
        done.
      * rewrite (Hppl0 Hkp) in Ho. destruct (Hrows1 o Ho) as (l & _ & Hj).
        by apply joined_aggregates in Hj as [_ Hagg].
    + intros Hkp. destruct (Hppl Hkp) as (Hidp & _ & Hrows2).
      destruct (Hrows2 o Ho) as (l1 & _ & Hj).
      by apply joined_aggregates in Hj as [_ Hagg].
Qed.

(** ** The aggregates, in the words of the specification *)

(** The first five columns, other than the id column, whose type is
    text. *)
Definition first_five_text_columns (rel : DataFrame) (id : string) : list string :=
  (take 5 (filter (fun cd : string * dtype => cd.2 = Utf8 /\ cd.1 <> id) (schema rel))).*1.

(** The columns a related dataset contributes when it has rows and the id
    column: its count and one list for each of these text columns. *)
Definition aggregate_columns (prefix : string) (rel : DataFrame) (id : string)
    : list string :=
  if decide (keyed id rel)
  then count_name prefix :: map (list_name prefix) (first_five_text_columns rel id)
  else [].

(** The aggregates of the related dataset [rel] on the merged row [o]: the
    number of related rows with the id of [o] and, for each of the text
    columns, the sorted distinct non-null texts of these rows; nulls when
    the id is missing or no related row carries it. *)
Definition aggregated (prefix id : string) (rel : DataFrame) (o : prow) : Prop :=
  let g := group_of id (pcell o id) (rows rel) in
  if bool_decide (pcell o id <> PNull /\ g <> [])
  then pcell o (count_name prefix) = count_value (length g) /\
       forall c, c ∈ first_five_text_columns rel id ->
         sorted_unique_texts c g (pcell o (list_name prefix c))
  else pcell o (count_name prefix) = PNull /\
       forall c, c ∈ first_five_text_columns rel id ->
         pcell o (list_name prefix c) = PNull.

Lemma schema_get_listed (df : DataFrame) c d dflt :
  NoDup (columns df) -> (c, d) ∈ schema df -> schema_get df c dflt = d.
Proof.
  intros Hnd Hin. unfold schema_get. by erewrite elem_of_list_to_map_1.
Qed.

(** The columns the code selects are the columns the specification names. *)
Lemma text_columns_spec (rel : DataFrame) (id : string) :
  NoDup (columns rel) -> text_columns rel id = first_five_text_columns rel id.
Proof.
  intros Hnd. unfold text_columns, first_five_text_columns, columns.
  rewrite fmap_take. f_equal.
  assert (forall l : list (string * dtype),
            (forall cd, cd ∈ l -> cd ∈ schema rel) ->
            filter (fun c : string => schema_get rel c Utf8 = Utf8)
                   (filter (fun c : string => c <> id) l.*1)
            = (filter (fun cd : string * dtype => cd.2 = Utf8 /\ cd.1 <> id) l).*1) as H.
  { induction l as [|[c d] l IH]; intros Hsub; [done|].
    rewrite fmap_cons. simpl fst.
    assert (schema_get rel c Utf8 = d) as Hget.
    { apply schema_get_listed; [done|]. apply Hsub. by left. }
    specialize (IH (fun cd Hcd => Hsub cd (list_elem_of_further _ _ _ Hcd))).
    destruct (decide (c = id)) as [->|Hne].
    - rewrite (filter_cons_False _ id) by (by intros H; apply H).
      rewrite (filter_cons_False _ (id, d)) by (simpl; tauto). done.
    - rewrite (filter_cons_True _ c) by done.
      destruct (decide (d = Utf8)) as [->|Hd].
      + rewrite (filter_cons_True _ c) by done.
        rewrite (filter_cons_True _ (c, Utf8)) by done. simpl. by f_equal.
      + rewrite (filter_cons_False _ c) by (by rewrite Hget).
        rewrite (filter_cons_False _ (c, d)) by (simpl; tauto). done. }
  by apply H.
Qed.

(** A prepared dataset that has rows has distinct column names. *)
Lemma prepared_distinct id_col df df' :
  prepared id_col df = inr df' -> is_empty df' = false -> NoDup (columns df').
Proof.
  unfold prepared, basic_standardize. destruct (is_empty df) eqn:He; simpl.
  { unfold _ensure_id. rewrite He. simpl. intros [= <-]. congruence. }
  unfold rename_all at 1. case_bool_decide as Hnd; simpl; [|done].
  match goal with |- _ensure_id _ ?x = _ -> _ => set (u := x) end.
  assert (NoDup (columns u)) as Hu.
  { unfold u, unique, columns. simpl. rewrite <- list_fmap_compose.
    unfold columns in Hnd. rewrite <- list_fmap_compose in Hnd. exact Hnd. }
  clearbody u. unfold _ensure_id. destruct (_ || _); [by intros [= <-]|].
  destruct (filter _ (columns u)) as [|c cs]; [by intros [= <-]|].
  unfold rename_all. case_bool_decide as Hnd2; [|done]. intros [= <-] _.
  unfold columns. simpl. rewrite <- list_fmap_compose.
  unfold columns in Hnd2. rewrite <- list_fmap_compose in Hnd2. exact Hnd2.
Qed.

Lemma aggregate_columns_spec prefix rel id_col rel0 :
  prepared id_col rel0 = inr rel ->
  aggregate_columns prefix rel (Pandas.lower id_col)
  = if decide (keyed (Pandas.lower id_col) rel)
    then agg_names prefix rel (Pandas.lower id_col) else [].
Proof.
  intros Hp. unfold aggregate_columns. destruct (decide _) as [[He _]|]; [|done].
  unfold agg_names, agg_lists. rewrite <- list_fmap_compose.
  rewrite text_columns_spec by (by eapply prepared_distinct). done.
Qed.

(** C8.  Merge aggregation.  When the primary dataset has the id column
    and no aggregate name clashes with one of its columns, the merged frame
    has one row for each id of the primary dataset, in order of first
    appearance; its columns are the primary columns followed, for each
    related dataset that has rows and the id column, by [<prefix>_count]
    and one [<prefix>_<col>_list] for each of the first five text columns;
    and every row carries in [<prefix>_count] the number of related rows
    with its id and in [<prefix>_<col>_list] the sorted list of the
    distinct non-null texts of these rows, nulls when its id is missing or
    matches no related row.  The related rows are those of the dataset as
    the merger groups it (standardized: names in lower case, exact
    duplicates dropped). *)
Theorem merge_aggregates crashes vehicles people id_col out c' v' p' :
  prepared id_col crashes = inr c' ->
  prepared id_col vehicles = inr v' ->
  prepared id_col people = inr p' ->
  merge_crash_vehicles_people crashes vehicles people id_col = inr out ->
  Pandas.lower id_col ∈ columns c' ->
  (forall n, n ∈ aggregate_columns "veh" v' (Pandas.lower id_col)
                 ++ aggregate_columns "ppl" p' (Pandas.lower id_col) ->
             n ∉ columns c') ->
  let id := Pandas.lower id_col in
  map (fun o => pcell o id) (rows out) = group_keys id (rows c') /\
  columns out
  = columns c' ++ aggregate_columns "veh" v' id ++ aggregate_columns "ppl" p' id /\
  forall o, o ∈ rows out ->
    (keyed id v' -> aggregated "veh" id v' o) /\
    (keyed id p' -> aggregated "ppl" id p' o).
Proof.
  intros Hc Hv Hp Hm Hid Hfree id. fold id in Hid, Hfree.
  pose proof (aggregate_columns_spec "veh" v' id_col vehicles Hv) as Hav.
  pose proof (aggregate_columns_spec "ppl" p' id_col people Hp) as Hap.
  fold id in Hav, Hap.
  destruct (merge_rows crashes vehicles people id_col out c' v' p' Hc Hv Hp Hm Hid)
    as (Hsame & Hcols & Hagg).
  { intros Hk n Hn. apply Hfree, elem_of_app. left. rewrite Hav. by rewrite decide_True. }
  { intros Hk n Hn. apply Hfree, elem_of_app. right. rewrite Hap. by rewrite decide_True. }
  fold id in Hsame, Hcols, Hagg.
  split; [|split].
  - unfold group_keys. clear Hcols Hagg.
    induction Hsame as [|l o ls os Hlo _ IH]; [done|].
    simpl. rewrite IH. f_equal. unfold pcell. by rewrite (Hlo id Hid).
  - by rewrite Hav, Hap.
  - intros o Ho. destruct (Hagg o Ho) as [Hveh Hppl]. split.
    + intros Hk. specialize (Hveh Hk). unfold aggregated, aggregates_of in *.
      rewrite <- text_columns_spec; [done|].
      eapply prepared_distinct; [exact Hv|apply Hk].
    + intros Hk. specialize (Hppl Hk). unfold aggregated, aggregates_of in *.
      rewrite <- text_columns_spec; [done|].
      eapply prepared_distinct; [exact Hp|apply Hk].
Qed.

(** ** Concrete datasets *)

Definition prow_of (l : list (string * pval)) : prow := list_to_map l.

Definition crashes0 : DataFrame :=
  mkFrame [("crash_record_id", Utf8); ("posted_speed_limit", Int64)]
    [ prow_of [("crash_record_id", PStr "C1"); ("posted_speed_limit", PNum 30)];
      prow_of [("crash_record_id", PStr "C2"); ("posted_speed_limit", PNum 40)] ].

Definition vehicles0 : DataFrame :=
  mkFrame [("crash_record_id", Utf8); ("make", Utf8); ("vehicle_year", Int64)]
    [ prow_of [("crash_record_id", PStr "C1"); ("make", PStr "ford");
               ("vehicle_year", PNum 2001)];
      prow_of [("crash_record_id", PStr "C1"); ("make", PStr "bmw");
               ("vehicle_year", PNum 2002)];
      prow_of [("crash_record_id", PStr "C1"); ("make", PStr "ford");
               ("vehicle_year", PNum 2003)] ].

Definition people0 : DataFrame :=
  mkFrame [("crash_record_id", Utf8); ("person_type", Utf8)]
    [ prow_of [("crash_record_id", PStr "C2"); ("person_type", PStr "driver")] ].

(** The id "C1" has three vehicle rows and no people row: it gets
    [veh_count = 3], the distinct makes in order, and nulls in the people
    aggregates. *)
Example merge_three_and_none :
  rows <$> merge_crash_vehicles_people crashes0 vehicles0 people0 "crash_record_id"
  = inr [ prow_of [("crash_record_id", PStr "C1"); ("posted_speed_limit", PNum 30);
                   ("veh_count", PNum 3); ("veh_make_list", PList ["bmw"; "ford"]);
                   ("ppl_count", PNull); ("ppl_person_type_list", PNull)];
          prow_of [("crash_record_id", PStr "C2"); ("posted_speed_limit", PNum 40);
                   ("veh_count", PNull); ("veh_make_list", PNull);
                   ("ppl_count", PNum 1); ("ppl_person_type_list", PList ["driver"])] ].
Proof. vm_compute. reflexivity. Qed.

Lemma merge_aggregates_witness :
  exists out,
    merge_crash_vehicles_people crashes0 vehicles0 people0 "crash_record_id" = inr out /\
    map (fun o => pcell o "crash_record_id") (rows out)
    = group_keys "crash_record_id" (rows crashes0) /\
    columns out
    = columns crashes0 ++ aggregate_columns "veh" vehicles0 "crash_record_id"
                       ++ aggregate_columns "ppl" people0 "crash_record_id" /\
    forall o, o ∈ rows out ->
      (keyed "crash_record_id" vehicles0 -> aggregated "veh" "crash_record_id" vehicles0 o) /\
      (keyed "crash_record_id" people0 -> aggregated "ppl" "crash_record_id" people0 o).
Proof.
  destruct (merge_crash_vehicles_people crashes0 vehicles0 people0 "crash_record_id")
    as [e|out] eqn:Hm; [vm_compute in Hm; discriminate|].
  exists out. split; [reflexivity|].
  apply (merge_aggregates crashes0 vehicles0 people0 "crash_record_id" out
           crashes0 vehicles0 people0).
  - vm_compute. reflexivity.
  - vm_compute. reflexivity.
  - vm_compute. reflexivity.
  - exact Hm.
  - apply (bool_decide_unpack _). vm_compute. exact I.
  - apply Forall_forall. apply (bool_decide_unpack _). vm_compute. exact I.
Defined.

(** ** Empty inputs *)

Lemma join_left_no_columns on right : join_left on no_frame right = inl ColumnNotFoundError.
Proof.
  unfold join_left.
  by rewrite (bool_decide_eq_false_2 (on ∈ columns no_frame)) by apply not_elem_of_nil.
Qed.

(** Whatever the related datasets hold, the merge of a primary dataset
    without columns does not return: either a related dataset has rows and
    the id column, and the join looks for the id column, or none has, and
    the final [unique] does. *)
Lemma merge_empty_primary_never_returns vehicles people id_col out :
  merge_crash_vehicles_people no_frame vehicles people id_col <> inr out.
Proof.
  unfold merge_crash_vehicles_people.
  change (basic_standardize no_frame) with (inr (A := exn) no_frame). simpl.
  destruct (basic_standardize vehicles) as [?|v1]; [done|]. simpl.
  destruct (basic_standardize people) as [?|p1]; [done|]. simpl.
  destruct (_ensure_id _ v1) as [?|v']; [done|]. simpl.
  destruct (_ensure_id _ p1) as [?|p']; [done|]. simpl.
  destruct (aggregate_if_keyed v' _ "veh") as [?|va]; [done|]. simpl.
  destruct (aggregate_if_keyed p' _ "ppl") as [?|pa]; [done|]. simpl.
  unfold join_if_any.
  destruct (is_empty va); cbn [negb]; [|by rewrite join_left_no_columns].
  cbn [mbind result_bind].
  destruct (is_empty pa); cbn [negb]; [|by rewrite join_left_no_columns].
  cbn [mbind result_bind]. unfold unique_subset.
  by rewrite (bool_decide_eq_false_2 (_ ∈ columns no_frame)) by apply not_elem_of_nil.
Qed.

(** C5.  With an empty primary dataset and a related dataset that has rows,
    the merge raises: the frame without columns is left-joined on the id
    column it does not have. *)
Theorem merge_empty_primary_raises :
  merge_crash_vehicles_people no_frame vehicles0 no_frame "crash_record_id"
  = inl ColumnNotFoundError.
Proof. vm_compute. reflexivity. Qed.

(** With all three datasets empty the merge raises as well. *)
Lemma merge_all_empty_raises id_col :
  merge_crash_vehicles_people no_frame no_frame no_frame id_col = inl ColumnNotFoundError.
Proof. reflexivity. Qed.

End transformer_spec.

(* ===================================================================== *)
(** * Properties of the stage orchestrators                               *)
(* ===================================================================== *)

Module orchestrator_spec.

Import Queue.

(** The job type of a message is one the pipeline knows. *)
Definition recognized (msg : list (string * json)) : Prop :=
  dict_get msg "type" = Some (JStr "transform") \/ dict_get msg "type" = Some (JStr "clean").

(** A job of unknown type that names its corr_id. *)
Definition unknown_job : delivery :=
  mkDelivery None (Some (JObj [("type", JStr "report"); ("corr_id", JStr "abc123")])).

(** A transform job without corr_id. *)
Definition anonymous_job : delivery :=
  mkDelivery None (Some (JObj [("type", JStr "transform"); ("xform_bucket", JStr "silver")])).

(** The transformer acknowledges a message of unknown type; it is not
    rejected. *)
Lemma unknown_type_is_acknowledged :
  ~ recognized [("type", JStr "report"); ("corr_id", JStr "abc123")] /\
  transformer.on_msg None (fun _ => inl ValueError) unknown_job = Ack /\
  transformer.on_msg None (fun _ => inl ValueError) unknown_job <> Nack false.
Proof.
  split; [|split; [reflexivity|discriminate]].
  intros [H|H]; vm_compute in H; discriminate.
Qed.

Lemma is_jstr_spec s j : is_jstr s j = true <-> j = JStr s.
Proof.
  destruct j; simpl; try (split; [done|by intros [=]]).
  rewrite bool_decide_eq_true. split; [by intros ->|by intros [= ->]].
Qed.

Lemma recognized_spec msg :
  is_jstr "transform" (default (JStr "") (dict_get msg "type"))
  || is_jstr "clean" (default (JStr "") (dict_get msg "type")) = true
  <-> recognized msg.
Proof.
  unfold recognized. rewrite orb_true_iff, !is_jstr_spec.
  destruct (dict_get msg "type") as [j|]; simpl.
  - split; (intros [H|H]; [left|right]); congruence.
  - split; intros [H|H]; discriminate.
Qed.

Section Consumers.

Variable XFORM_BUCKET_ENV : option string.
Variable transform_work : list (string * json) -> exn + unit.
Variable py_repr : json -> string.
Variable clean_work : string -> exn + unit.

Abbreviation on_msg := (transformer.on_msg XFORM_BUCKET_ENV transform_work).
Abbreviation handle := (cleaner.handle py_repr clean_work).

(** C6, as the code has it.  No orchestrator ever requeues.  The
    transformer rejects without requeue a body that is not a JSON object
    and a job of a known type without corr_id, and acknowledges, without
    running it, a job of unknown type.  The cleaner does not look at the
    job type: it rejects without requeue a message with neither a corr_id
    header nor a JSON object as body, and a message carrying a non-empty
    text as corr_id is acknowledged when its work completes and rejected
    without requeue when it raises. *)
Theorem poison_messages (d : delivery) :
  on_msg d <> Nack true /\
  handle d <> Nack true /\
  ((forall msg, body d <> Some (JObj msg)) -> on_msg d = Nack false) /\
  (forall msg, body d = Some (JObj msg) -> recognized msg ->
               dict_get msg "corr_id" = None -> on_msg d = Nack false) /\
  (forall msg, body d = Some (JObj msg) -> ~ recognized msg -> on_msg d = Ack) /\
  (cleaner.header_corr_id d = None -> (forall msg, body d <> Some (JObj msg)) ->
   handle d = Nack false) /\
  (forall c, c <> "" ->
     cleaner.header_corr_id d = Some (JStr c) \/
     (cleaner.header_corr_id d = None /\
      exists msg, body d = Some (JObj msg) /\ dict_get msg "corr_id" = Some (JStr c)) ->
     handle d = match clean_work c with inr _ => Ack | inl _ => Nack false end).
Proof.
  repeat split.
  - unfold transformer.on_msg. destruct (body d) as [[| | | | |msg]|]; try done.
    destruct (negb _); [done|]. by destruct (transformer.run_transform_job _ _ _).
  - unfold cleaner.handle. destruct (cleaner.get_corr_id_from_message _ _) as [[|a s]|];
      try done. by destruct (clean_work _).
  - intros Hb. unfold transformer.on_msg.
    destruct (body d) as [[| | | | |msg]|]; try done. by destruct (Hb msg).
  - intros msg Hb Hrec Hcorr. unfold transformer.on_msg. rewrite Hb.
    apply recognized_spec in Hrec. rewrite Hrec. simpl.
    unfold transformer.run_transform_job. by rewrite Hcorr.
  - intros msg Hb Hrec. unfold transformer.on_msg. rewrite Hb.
    destruct (is_jstr "transform" _ || is_jstr "clean" _) eqn:E; [|done].
    by apply recognized_spec in E.
  - intros Hh Hb. unfold cleaner.handle, cleaner.get_corr_id_from_message. rewrite Hh.
    destruct (body d) as [[| | | | |msg]|]; try done. by destruct (Hb msg).
  - intros c Hc [Hh|(Hh & msg & Hb & Hcorr)];
      unfold cleaner.handle, cleaner.get_corr_id_from_message; rewrite Hh.
    + simpl. by destruct c.
    + rewrite Hb, Hcorr. simpl. by destruct c.
Qed.

End Consumers.

Lemma poison_messages_witness :
  transformer.on_msg None (fun _ => inr tt) anonymous_job = Nack false.
Proof.
  apply (proj1 (proj2 (proj2 (proj2
           (poison_messages None (fun _ => inr tt) (fun _ => "") (fun _ => inr tt)
                            anonymous_job))))
         [("type", JStr "transform"); ("xform_bucket", JStr "silver")]).
  - reflexivity.
  - left. reflexivity.
  - reflexivity.
Defined.

End orchestrator_spec.

(* ===================================================================== *)
(** * Facts about texts                                                   *)
(* ===================================================================== *)

Module Text_facts.

Import Text.

Lemma append_cons (a : ascii) (s t : string) : String a s +:+ t = String a (s +:+ t).
Proof. reflexivity. Qed.

Lemma append_nil_l (t : string) : "" +:+ t = t.
Proof. reflexivity. Qed.

Ltac text := rewrite ?append_cons, ?append_nil_l in *.

Lemma append_nil_r (s : string) : s +:+ "" = s.
Proof. induction s as [|a s IH]; text; [done|]. by rewrite IH. Qed.

Lemma append_assoc (a b c : string) : (a +:+ b) +:+ c = a +:+ (b +:+ c).
Proof. induction a as [|x a IH]; text; [done|]. by rewrite IH. Qed.

Lemma prefix_spec (p s : string) : String.prefix p s = true <-> exists t, s = p +:+ t.
Proof.
  revert s. induction p as [|a p IH]; intros s; simpl.
  - destruct s; split; eauto.
  - destruct s as [|b s]; simpl.
    + split; [done|]. by intros [t Ht].
    + destruct (ascii_dec a b) as [->|Hne].
      * rewrite IH. split; intros [t Ht]; exists t; text; congruence.
      * split; [done|]. intros [t Ht]. text. congruence.
Qed.

Lemma contains_nil n : contains n "" = String.prefix n "".
Proof. simpl. apply orb_false_r. Qed.

Lemma contains_cons n c s :
  contains n (String c s) = String.prefix n (String c s) || contains n s.
Proof. reflexivity. Qed.

Lemma contains_spec (n s : string) :
  contains n s = true <-> exists a b, s = a +:+ n +:+ b.
Proof.
  induction s as [|c s IH]; [rewrite contains_nil|rewrite contains_cons].
  - rewrite prefix_spec. split.
    + intros [t Ht]. by exists "", t.
    + intros (a & b & Hab). destruct a; [by exists b|done].
  - rewrite orb_true_iff, IH, prefix_spec. split.
    + intros [[t Ht]|(a & b & ->)]; [by exists "", t|by exists (String c a), b].
    + intros (a & b & Hab). destruct a as [|x a]; text.
      * left. by exists b.
      * right. exists a, b. congruence.
Qed.

Lemma endswith_spec (suf s : string) : endswith suf s = true <-> exists a, s = a +:+ suf.
Proof.
  induction s as [|c s IH]; cbn [endswith].
  - rewrite orb_false_r, bool_decide_eq_true. split.
    + intros <-. by exists "".
    + intros [a Ha]. destruct a; [done|done].
  - rewrite orb_true_iff, IH, bool_decide_eq_true. split.
    + intros [<-|[a ->]]; [by exists ""|by exists (String c a)].
    + intros [a Ha]. destruct a as [|x a]; text.
      * by left.
      * right. exists a. congruence.
Qed.

(** The character does not occur in the text. *)
Fixpoint free_of (a : ascii) (s : string) : Prop :=
  match s with
  | String b s' => b <> a /\ free_of a s'
  | EmptyString => True
  end.

#[global] Instance free_of_dec a s : Decision (free_of a s).
Proof. induction s; simpl; apply _. Defined.

Lemma contains_char a s : contains (String a "") s = false <-> free_of a s.
Proof.
  induction s as [|b s IH]; simpl; [done|].
  destruct (ascii_dec a b) as [->|Hne].
  - destruct s; simpl; split; try done; by intros [? _].
  - rewrite IH. simpl. split; [intros ?; split; [congruence|done]|by intros [_ ?]].
Qed.

Lemma basename_plain s : free_of slash s -> basename s = s.
Proof.
  induction s as [|a s IH]; simpl; [done|]. intros [Hne Hs].
  apply contains_char in Hs as Hc. change (String slash "") with "/" in Hc.
  rewrite Hc. by rewrite bool_decide_eq_false_2.
Qed.

Lemma basename_after_slash a b : basename (a +:+ String "/" b) = basename b.
Proof.
  induction a as [|c a IH]; text; simpl.
  - destruct (contains "/" b) eqn:Hc; [done|].
    symmetry. apply basename_plain. by apply contains_char.
  - assert (contains "/" (a +:+ String "/" b) = true) as ->; [|done].
    apply contains_spec. by exists a, b.
Qed.

(** Separated by the same character, two texts free of it are equal. *)
Lemma split_unique c (a b x y : string) :
  free_of c a -> free_of c b ->
  a +:+ String c x = b +:+ String c y -> a = b /\ x = y.
Proof.
  revert b. induction a as [|u a IH]; intros [|v b]; text; simpl.
  - intros _ _ [= ->]. done.
  - intros _ [Hv _] [= <- _]. done.
  - intros [Hu _] _ [= -> _]. done.
  - intros [_ Ha] [_ Hb] [= -> H]. destruct (IH b Ha Hb H) as [-> ->]. done.
Qed.

Lemma append_length (a b : string) :
  String.length (a +:+ b) = String.length a + String.length b.
Proof. induction a as [|x a IH]; [done|]. cbn [String.length]. simpl. by rewrite <- IH. Qed.

Lemma append_inv_tail (a b s : string) : a +:+ s = b +:+ s -> a = b.
Proof.
  intros H.
  assert (String.length a = String.length b) as Hlen.
  { apply (f_equal String.length) in H. rewrite !append_length in H. lia. }
  revert b H Hlen. induction a as [|x a IH]; intros [|y b] H Hlen; try done.
  change (String x (a +:+ s) = String y (b +:+ s)) in H.
  injection H as -> H. f_equal. apply IH; [done|]. by injection Hlen.
Qed.

End Text_facts.

(* ===================================================================== *)
(** * Properties of identifiers and flags                                 *)
(* ===================================================================== *)

Module identifiers_spec.

Import Text Text_facts duckdb_writer.

(** How the engine reads a delimited identifier once past the opening
    quote: a doubled quote stands for one quote, a single quote closes.
    The result is the name and the text that follows the closing quote. *)
Fixpoint read_delimited (s : string) : option (string * string) :=
  match s with
  | EmptyString => None
  | String a s' =>
    if bool_decide (a = dquote) then
      match s' with
      | String b s'' =>
        if bool_decide (b = dquote)
        then (fun nr => (String dquote nr.1, nr.2)) <$> read_delimited s''
        else Some (EmptyString, s')
      | EmptyString => Some (EmptyString, EmptyString)
      end
    else (fun nr => (String a nr.1, nr.2)) <$> read_delimited s'
  end.

Definition read_identifier (s : string) : option (string * string) :=
  match s with
  | String a s' => if bool_decide (a = dquote) then read_delimited s' else None
  | EmptyString => None
  end.

Definition starts_with_quote (s : string) : Prop :=
  match s with String a _ => a = dquote | EmptyString => False end.

#[global] Instance starts_with_quote_dec s : Decision (starts_with_quote s).
Proof. destruct s; simpl; apply _. Defined.

Lemma read_delimited_closing rest :
  ~ starts_with_quote rest -> read_delimited (String dquote rest) = Some ("", rest).
Proof.
  intros H. cbn [read_delimited]. rewrite bool_decide_eq_true_2 by done.
  destruct rest as [|b rest]; [done|].
  by rewrite bool_decide_eq_false_2.
Qed.

(** Past the opening quote, the doubled form of a name and its closing
    quote are read as the name. *)
Lemma read_delimited_doubled (name rest : string) :
  ~ starts_with_quote rest ->
  read_delimited (double_quotes name +:+ String dquote rest) = Some (name, rest).
Proof.
  intros Hrest. induction name as [|a name IH].
  - cbn [double_quotes]. text. by apply read_delimited_closing.
  - cbn [double_quotes]. case_bool_decide as Ha; text.
    + cbn [read_delimited]. rewrite !bool_decide_eq_true_2 by done.
      rewrite IH. by rewrite Ha.
    + cbn [read_delimited]. rewrite bool_decide_eq_false_2 by done.
      by rewrite IH.
Qed.

(** X1.  Whatever characters a name holds, the text [qi] produces is read
    back by the engine as one identifier, that name, and the statement
    resumes right after it. *)
Theorem qi_read_back (name rest : string) :
  ~ starts_with_quote rest ->
  read_identifier (qi name +:+ rest) = Some (name, rest).
Proof.
  intros Hrest. unfold qi, read_identifier. text.
  rewrite bool_decide_eq_true_2 by done. rewrite append_assoc. text.
  by apply read_delimited_doubled.
Qed.

Lemma qi_read_back_witness :
  read_identifier (qi (String "a" (String dquote "b")) +:+ " (x INT)")
  = Some (String "a" (String dquote "b"), " (x INT)").
Proof. apply qi_read_back. vm_compute. intros [=]. Defined.

(** Two names are quoted alike only when they are the same name. *)
Lemma qi_injective a b : qi a = qi b -> a = b.
Proof.
  unfold qi. intros [= H]. apply (f_equal read_delimited) in H.
  rewrite !read_delimited_doubled in H by (by intros []). by injection H.
Qed.

End identifiers_spec.

Module flags_spec.

Import transformer cleaner.

(** X2.  The cleaner's reading of a flag accepts whatever the transformer's
    accepts; the two differ exactly on the texts that trim and lowercase
    to [t]. *)
Theorem as_bool_extends_to_bool (s : option string) (default : bool) :
  as_bool s default
  = _to_bool s default
    || match s with
       | Some t => bool_decide (Pandas.lower (Pandas.strip t) = "t")
       | None => false
       end.
Proof.
  destruct s as [t|]; simpl; [|by rewrite orb_false_r].
  generalize (Pandas.lower (Pandas.strip t)). intros u.
  rewrite <- bool_decide_or. apply bool_decide_ext.
  rewrite !elem_of_cons, !elem_of_nil. tauto.
Qed.

End flags_spec.

(* ===================================================================== *)
(** * Properties of the object layout                                     *)
(* ===================================================================== *)

Module object_store_spec.

Import Text Text_facts Minio transformer minio_io.

(** ** Path segments *)

(** [p.split("/")] *)
Fixpoint segments (p : string) : list string :=
  match p with
  | EmptyString => [EmptyString]
  | String a p' =>
    if bool_decide (a = slash) then EmptyString :: segments p'
    else match segments p' with
         | seg :: segs => String a seg :: segs
         | [] => [String a EmptyString]
         end
  end.

(** The segments between the first and the last. *)
Definition inner (l : list string) : list string := removelast (tail l).

(** ["/".join(l)] *)
Fixpoint path_of (l : list string) : string :=
  match l with
  | [] => EmptyString
  | [s] => s
  | s :: l' => s +:+ "/" +:+ path_of l'
  end.

Lemma segments_nonempty p : segments p <> [].
Proof.
  destruct p as [|a p]; simpl; [done|].
  case_bool_decide; [done|]. by destruct (segments p).
Qed.

Lemma segments_plain s : free_of slash s -> segments s = [s].
Proof.
  induction s as [|a s IH]; simpl; [done|]. intros [Hne Hs].
  rewrite bool_decide_eq_false_2 by done. by rewrite IH.
Qed.

Lemma segments_app a b : segments (a +:+ String "/" b) = segments a ++ segments b.
Proof.
  induction a as [|c a IH]; text; simpl; [done|].
  case_bool_decide; [by rewrite IH|].
  rewrite IH. pose proof (segments_nonempty a). by destruct (segments a).
Qed.

Lemma path_of_cons s l : l <> [] -> path_of (s :: l) = s +:+ String "/" (path_of l).
Proof. by destruct l. Qed.

Lemma path_of_segments p : path_of (segments p) = p.
Proof.
  induction p as [|a p IH]; simpl; [done|].
  case_bool_decide as Ha.
  - rewrite path_of_cons by apply segments_nonempty. rewrite IH. text. by rewrite Ha.
  - pose proof (segments_nonempty p) as Hne.
    destruct (segments p) as [|seg segs]; [done|].
    destruct segs as [|seg' segs].
    + simpl in *. by rewrite IH.
    + rewrite path_of_cons by done. rewrite path_of_cons in IH by done.
      text. by rewrite IH.
Qed.

Lemma path_of_app l1 l2 :
  l1 <> [] -> l2 <> [] -> path_of (l1 ++ l2) = path_of l1 +:+ String "/" (path_of l2).
Proof.
  induction l1 as [|s l1 IH]; [done|]. intros _ Hl2.
  destruct l1 as [|s' l1].
  - simpl app. by rewrite path_of_cons.
  - change ((s :: s' :: l1) ++ l2) with (s :: ((s' :: l1) ++ l2)).
    rewrite !path_of_cons by done. rewrite IH by done. by rewrite !append_assoc.
Qed.

Lemma inner_spec (x : string) (l : list string) :
  x ∈ inner l <-> exists l1 l2, l1 <> [] /\ l2 <> [] /\ l = l1 ++ x :: l2.
Proof.
  unfold inner. destruct l as [|h l]; simpl.
  - split; [by intros ?%elem_of_nil|]. intros (l1 & l2 & ? & _ & Hl). by destruct l1.
  - split.
    + intros Hx. assert (l <> []) as Hl by (intros ->; by apply elem_of_nil in Hx).
      destruct (exists_last Hl) as (l' & z & ->).
      rewrite removelast_last in Hx.
      apply list_elem_of_split in Hx as (a & b & ->).
      exists (h :: a), (b ++ [z]). split; [done|]. split; [by destruct b|].
      by rewrite <- !app_assoc.
    + intros (l1 & l2 & H1 & H2 & Hl). destruct l1 as [|h' l1]; [done|].
      injection Hl as -> ->.
      destruct (exists_last H2) as (l' & z & ->).
      replace (l1 ++ x :: l' ++ [z]) with ((l1 ++ x :: l') ++ [z])
        by (by rewrite <- !app_assoc).
      rewrite removelast_last. apply elem_of_app. right. by left.
Qed.

(** A text free of slashes sits between two slashes of a path exactly when
    it is one of the path's inner segments. *)
Lemma contains_segment seg k :
  free_of slash seg ->
  contains ("/" +:+ seg +:+ "/") k = true <-> seg ∈ inner (segments k).
Proof.
  intros Hseg. rewrite contains_spec, inner_spec. split.
  - intros (a & b & ->). exists (segments a), (segments b).
    split; [apply segments_nonempty|]. split; [apply segments_nonempty|].
    rewrite !append_assoc. text. rewrite !segments_app.
    by rewrite (segments_plain seg) by done.
  - intros (l1 & l2 & H1 & H2 & Hk). exists (path_of l1), (path_of l2).
    rewrite <- (path_of_segments k), Hk.
    rewrite path_of_app by done. rewrite path_of_cons by done.
    rewrite !append_assoc. by text.
Qed.

(** X3.  A listed object is selected for a corr_id exactly when it lies
    under the dataset's folder, is a JSON page and has [corr=<corr_id>] as
    one of its inner path segments. *)
Theorem keys_for_corr_selects (objs : list string) (prefix dataset_alias corr k : string) :
  free_of slash corr ->
  k ∈ _keys_for_corr objs prefix dataset_alias corr <->
  k ∈ objs /\
  String.prefix (prefix +:+ "/" +:+ dataset_alias +:+ "/") k = true /\
  (endswith ".json.gz" k = true \/ endswith ".json" k = true) /\
  ("corr=" +:+ corr) ∈ inner (segments k).
Proof.
  intros Hcorr. unfold _keys_for_corr, list_objects_recursive, list_objects.
  rewrite list_elem_of_filter.
  assert (forall l : list string,
            map object_name (filter (fun o => is_dir o = false)
                                    (map (fun n => mkObject n false) l)) = l) as ->.
  { induction l as [|n l IH]; [done|]. cbn [map]. rewrite filter_cons_True by done.
    cbn [map object_name]. by rewrite IH. }
  rewrite list_elem_of_filter.
  rewrite <- (contains_segment ("corr=" +:+ corr) k)
    by (split; [done|]; repeat (split; [done|]); exact Hcorr).
  rewrite !append_assoc. text.
  rewrite andb_true_iff, orb_true_iff. tauto.
Qed.

Lemma keys_for_corr_selects_witness :
  "crash/crashes/year=2024/corr=c1/p1.json.gz"
  ∈ _keys_for_corr ["crash/crashes/year=2024/corr=c1/p1.json.gz";
                    "crash/crashes/year=2024/corr=c10/p1.json.gz"]
                   "crash" "crashes" "c1".
Proof.
  apply keys_for_corr_selects.
  - vm_compute. repeat split; discriminate.
  - split; [by left|]. split; [reflexivity|]. split; [left; reflexivity|].
    apply (bool_decide_unpack _). vm_compute. exact I.
Defined.

End object_store_spec.

Module minio_io_spec.

Import Text Text_facts Minio transformer minio_io.

Lemma candidates_end_in_slash cfg corr pref :
  pref ∈ _prefixes_for_corr cfg corr -> exists p, pref = p +:+ "/".
Proof.
  unfold _prefixes_for_corr. case_bool_decide; intros Hin;
    repeat (apply elem_of_cons in Hin as [->|Hin]); try (by apply elem_of_nil in Hin).
  - eexists. rewrite <- !append_assoc. reflexivity.
  - eexists. rewrite <- !append_assoc. reflexivity.
  - by eexists.
  - eexists. rewrite <- !append_assoc. reflexivity.
Qed.

Lemma head_filter_nil {A} (P : A -> Prop) `{!forall x, Decision (P x)} (l : list A) :
  filter P l = [] <-> forall x, x ∈ l -> ~ P x.
Proof.
  split.
  - intros Hnil x Hx HP. assert (x ∈ filter P l) as Hin by (by apply list_elem_of_filter).
    rewrite Hnil in Hin. by apply elem_of_nil in Hin.
  - apply Facts.filter_none.
Qed.

(** Nothing is found when no object under a candidate folder is the
    configured file or a CSV. *)
Lemma download_misses (cfg : MinioConfig) (objs : list string) (corr_id : string) :
  (forall pref o, pref ∈ _prefixes_for_corr cfg corr_id -> o ∈ objs ->
     String.prefix pref o = true ->
     o <> pref +:+ silver_filename cfg /\ endswith ".csv" (Pandas.lower o) = false) ->
  download_csv_for_corr cfg objs corr_id = None.
Proof.
  intros H. unfold download_csv_for_corr, stat_object, list_objects.
  rewrite (proj2 (head_filter_nil _ _)); cycle 1.
  { intros pref Hpref Hstat%bool_decide_eq_true.
    destruct (H pref _ Hpref Hstat) as [Hne _]; [|done]. apply prefix_spec. by eexists. }
  destruct (flat_map _ _) as [|o0 rest] eqn:Hany; [done|]. exfalso.
  assert (o0 ∈ o0 :: rest) as Hin by by left.
  rewrite <- Hany in Hin. apply list_elem_of_In, in_flat_map in Hin as (pref & Hpref & Hin).
  apply list_elem_of_In in Hpref, Hin.
  apply list_elem_of_filter in Hin as [Hcsv Hin].
  apply list_elem_of_fmap in Hin as (o & -> & Ho).
  apply list_elem_of_filter in Ho as [Hpo Ho]. simpl in Hcsv.
  destruct (H pref o Hpref Ho Hpo) as [_ Hno]. congruence.
Qed.

(** X4.  What a download returns.  A path is returned only for an object
    that lies under one of the two folders of the corr_id, and it is the
    local name of that object; nothing is returned exactly when neither
    folder holds the configured file or any object whose name ends in
    [.csv], whatever its case. *)
Theorem download_result (cfg : MinioConfig) (objs : list string) (corr_id : string) :
  (forall p, download_csv_for_corr cfg objs corr_id = Some p ->
     exists pref o, pref ∈ _prefixes_for_corr cfg corr_id /\ o ∈ objs /\
       String.prefix pref o = true /\ p = local_path corr_id o) /\
  (download_csv_for_corr cfg objs corr_id = None <->
   forall pref o, pref ∈ _prefixes_for_corr cfg corr_id -> o ∈ objs ->
     String.prefix pref o = true ->
     o <> pref +:+ silver_filename cfg /\ endswith ".csv" (Pandas.lower o) = false).
Proof.
  unfold download_csv_for_corr, stat_object, list_objects.
  set (cands := _prefixes_for_corr cfg corr_id).
  set (name := silver_filename cfg).
  destruct (filter _ cands) as [|pref0 rest] eqn:Hexact.
  - destruct (flat_map _ cands) as [|o0 rest] eqn:Hany.
    + split; [done|]. split; [|done]. intros _ pref o Hpref Ho Hpo.
      rewrite head_filter_nil in Hexact. split.
      * intros ->. apply (Hexact pref Hpref). by apply bool_decide_eq_true.
      * destruct (endswith _ _) eqn:Hcsv; [|done]. exfalso.
        assert (mkObject o false ∈ ([] : list object)) as Hin; [|by apply elem_of_nil in Hin].
        rewrite <- Hany. apply list_elem_of_In, in_flat_map. exists pref.
        split; [by apply list_elem_of_In|]. apply list_elem_of_In.
        apply list_elem_of_filter. split; [done|].
        apply list_elem_of_fmap. exists o. split; [done|]. by apply list_elem_of_filter.
    + assert (o0 ∈ o0 :: rest) as Hin by by left.
      rewrite <- Hany in Hin. apply list_elem_of_In, in_flat_map in Hin as (pref & Hpref & Hin).
      apply list_elem_of_In in Hpref, Hin.
      apply list_elem_of_filter in Hin as [Hcsv Hin].
      apply list_elem_of_fmap in Hin as (o & -> & Ho).
      apply list_elem_of_filter in Ho as [Hpo Ho]. simpl in *.
      split.
      * intros p [= <-]. by exists pref, o.
      * split; [done|]. intros H. destruct (H pref o Hpref Ho Hpo) as [_ Hno]. congruence.
  - assert (pref0 ∈ filter (fun pref => bool_decide (pref +:+ name ∈ objs) = true) cands)
      as Hin by (rewrite Hexact; by left).
    apply list_elem_of_filter in Hin as [Hstat Hpref]. apply bool_decide_eq_true in Hstat.
    split.
    + intros p [= <-]. exists pref0, (pref0 +:+ name).
      split; [done|]. split; [done|]. split; [apply prefix_spec; by eexists|].
      unfold local_path. do 3 f_equal.
      destruct (candidates_end_in_slash _ _ _ Hpref) as [q ->].
      rewrite append_assoc. text. by rewrite basename_after_slash.
    + split; [done|]. intros H.
      destruct (H pref0 (pref0 +:+ name) Hpref Hstat) as [Hne _]; [|done].
      apply prefix_spec. by eexists.
Qed.

(** X5.  From the transformer to the cleaner.  When the silver prefix is
    [crash] (slashes around it do not matter) and the file name is
    [merged.csv], a bucket that holds the key the transformer wrote for a
    corr_id gives the cleaner the local copy of that corr_id. *)
Theorem download_finds_merged (cfg : MinioConfig) (objs : list string) (corr_id : string) :
  strip_char slash (silver_prefix cfg) = PREFIX ->
  silver_filename cfg = "merged.csv" ->
  out_key corr_id ∈ objs ->
  download_csv_for_corr cfg objs corr_id = Some ("/tmp/silver/" +:+ corr_id +:+ "__merged.csv").
Proof.
  intros Hprefix Hname Hkey. unfold download_csv_for_corr, _prefixes_for_corr.
  rewrite Hprefix, Hname. rewrite bool_decide_eq_true_2 by done.
  assert (stat_object objs ((PREFIX +:+ "/corr=" +:+ corr_id +:+ "/") +:+ "merged.csv") = true)
    as Hstat.
  { apply bool_decide_eq_true. unfold out_key in Hkey. by rewrite !append_assoc. }
  rewrite filter_cons. destruct (decide _); [done|].
  by rewrite filter_cons_True by done.
Qed.

Lemma download_finds_merged_witness :
  download_csv_for_corr (mkConfig "minio:9000" "user" "pass" false "silver" "/crash/"
                                  "merged.csv")
                        [out_key "c1"] "c1"
  = Some "/tmp/silver/c1__merged.csv".
Proof.
  apply (download_finds_merged _ _ "c1"); [reflexivity|reflexivity|by left].
Defined.

Lemma prefix_crash_corr corr t :
  free_of slash corr -> String.prefix (corr +:+ "/") ("crash/" +:+ t) = true -> corr = "crash".
Proof.
  intros Hfree [u Hu]%prefix_spec. rewrite append_assoc in Hu. text.
  change (String "c" (String "r" (String "a" (String "s" (String "h" (String "/" t))))))
    with ("crash" +:+ String "/" t) in Hu.
  symmetry in Hu. apply split_unique in Hu as [-> _]; [done|done|].
  vm_compute. repeat split; discriminate.
Qed.

(** X6.  With the silver prefix left empty, a bucket whose objects all lie
    under [crash/], as the transformer writes them, gives the cleaner
    nothing (unless the corr_id is itself [crash]). *)
Theorem download_empty_prefix_misses (cfg : MinioConfig) (objs : list string)
    (corr_id : string) :
  strip_char slash (silver_prefix cfg) = "" ->
  Forall (fun o => String.prefix "crash/" o = true) objs ->
  free_of slash corr_id ->
  corr_id <> "crash" ->
  download_csv_for_corr cfg objs corr_id = None.
Proof.
  intros Hprefix Hobjs Hfree Hne. apply download_misses.
  intros pref o Hpref Ho Hpo. exfalso.
  rewrite Forall_forall in Hobjs. apply Hobjs, prefix_spec in Ho as [t ->].
  unfold _prefixes_for_corr in Hpref. rewrite Hprefix in Hpref. simpl in Hpref.
  apply elem_of_cons in Hpref as [->|Hpref].
  - apply Hne. by eapply prefix_crash_corr.
  - apply list_elem_of_singleton in Hpref as ->.
    apply prefix_spec in Hpo as [u Hu]. rewrite append_assoc in Hu. text. discriminate.
Qed.

Lemma download_empty_prefix_misses_witness :
  download_csv_for_corr (mkConfig "minio:9000" "user" "pass" false "silver" "" "merged.csv")
                        [out_key "c1"] "c1"
  = None.
Proof.
  apply download_empty_prefix_misses; [reflexivity| | |discriminate].
  - apply Forall_forall. intros o ->%list_elem_of_singleton. reflexivity.
  - vm_compute. repeat split; discriminate.
Defined.

End minio_io_spec.

(* ===================================================================== *)
(** * Properties of the writer, call after call                           *)
(* ===================================================================== *)

Module store_spec.

Import Facts Pandas duckdb_writer duckdb_writer_spec.

(** ** Counting the joined rows *)

Definition joins (K : string) (rs : row * row) : Prop :=
  cell rs.1 K = cell rs.2 K /\ cell rs.1 K <> VNull.

#[global] Instance joins_dec K rs : Decision (joins K rs).
Proof. unfold joins. apply _. Defined.

Lemma count_join_filter K (rows src : list row) :
  filter (fun '(r, s) => cell r K = cell s K /\ cell r K <> VNull) (list_prod rows src)
  = filter (joins K) (list_prod rows src).
Proof. apply list_filter_iff. by intros [r s]. Qed.

Lemma count_row_matches K (r : row) (src : list row) :
  length (filter (joins K) (map (fun s => (r, s)) src))
  = length (filter (fun s => cell s K = cell r K /\ cell s K <> VNull) src).
Proof.
  induction src as [|s src IH]; [done|]. simpl.
  rewrite !filter_cons. unfold joins at 1. simpl.
  destruct (decide (cell r K = cell s K /\ cell r K <> VNull)) as [[He Hn]|Hno].
  - rewrite decide_True by (split; congruence). simpl. by rewrite IH.
  - rewrite decide_False by (intros [? ?]; apply Hno; split; congruence). done.
Qed.

Lemma count_disjoint {A} (P Q : A -> Prop) `{!forall x, Decision (P x), !forall x, Decision (Q x)}
    (l : list A) :
  (forall x, x ∈ l -> P x -> Q x -> False) ->
  length (filter (fun x => P x \/ Q x) l) = length (filter P l) + length (filter Q l).
Proof.
  induction l as [|a l IH]; [done|]. intros Hd.
  assert (forall x, x ∈ l -> P x -> Q x -> False) as Hd' by (intros x Hx; apply Hd; by right).
  rewrite !filter_cons.
  destruct (decide (P a)) as [HP|HP]; destruct (decide (Q a)) as [HQ|HQ].
  - exfalso. apply (Hd a); [by left|done|done].
  - rewrite decide_True by tauto. simpl. by rewrite IH.
  - rewrite decide_True by tauto. simpl. rewrite IH by done. lia.
  - rewrite decide_False by tauto. by apply IH.
Qed.

(** Every source row joins the one stored row that carries its key. *)
Lemma count_joined K (rows src : list row) :
  NoDup (keys_of K rows) ->
  length (filter (joins K) (list_prod rows src))
  = length (filter (fun s => cell s K ∈ keys_of K rows /\ cell s K <> VNull) src).
Proof.
  induction rows as [|r rows IH]; intros Hnd.
  - simpl. rewrite filter_none; [done|]. intros s _ [H _]. by apply elem_of_nil in H.
  - apply NoDup_cons in Hnd as [Hnin Hnd]. simpl list_prod.
    rewrite filter_app, length_app, count_row_matches, IH by done.
    rewrite <- count_disjoint.
    + f_equal. apply list_filter_iff. intros s. simpl. rewrite elem_of_cons. tauto.
    + intros s _ [He _] [Hin _]. apply Hnin. by rewrite <- He.
Qed.

Section Writer.

Variable pkx : exn.
Variable chosen : list row -> list row -> nat.

Lemma upsert_count t df pk (d d' : db) n :
  empty df = false ->
  upsert pkx chosen t df pk d = (inr n, d') ->
  exists tb',
    d' !! t = Some tb' /\
    n = length (filter (joins pk) (list_prod (t_rows tb') (records df))).
Proof.
  intros He. unfold upsert. rewrite He.
  case_bool_decide as Hpk; simpl; [|done].
  unfold mbind, M_bind, bind.
  destruct (_ensure_table pkx t df pk d) as [[e|[]] d1]; [done|].
  destruct (_evolve_schema t df d1) as [[e|[]] d2]; [done|].
  destruct (_existing_cols t d2) as [[e|existing] d3]; [done|].
  match goal with
  | |- context [insert_on_conflict chosen t ?cols ?dft ?src true pk ?act d3] =>
    destruct (insert_on_conflict chosen t cols dft src true pk act d3) as [[e|[]] d4];
      [done|]
  end.
  unfold count_join. destruct (d4 !! t) as [tb4|] eqn:H4; [|done].
  destruct (negb _); [done|]. unfold ret. intros [= <- <-].
  exists tb4. split; [done|]. by rewrite count_join_filter.
Qed.

Lemma height_records (df : DataFrame) : length (records df) = height df.
Proof. unfold records. by rewrite length_map, length_seq. Qed.

Lemma empty_height (df : DataFrame) : empty df = true -> height df = 0.
Proof.
  destruct df as [|[c s] df]; [done|]. simpl. by intros ?%Nat.eqb_eq.
Qed.

(** The rows the upsert works from have settled in the table. *)
Lemma upserted_settled tb df pk p :
  p ∈ kept chosen pk (upsert_action df pk) (t_rows (evolved tb df))
           (proposed_rows (evolved tb df) df) ->
  settled pk (upsert_action df pk) (t_rows (upserted chosen (evolved tb df) df pk)) p.
Proof.
  intros Hp. destruct (upsert_action_ok tb df pk) as [Hk Hps].
  apply (foldl_insert_settles pk (upsert_action df pk) Hk); [|apply kept_distinct|done].
  intros q Hq. apply Hps. by eapply kept_sublist.
Qed.

(** Of the rows proposed under the key of a record, one is worked from. *)
Lemma kept_for_record tb df pk s :
  pk ∈ columns df -> s ∈ records df ->
  exists s', s' ∈ records df /\ cell s' pk = cell s pk /\
    proposed (col_names (evolved tb df)) (columns df) ∅ s'
    ∈ kept chosen pk (upsert_action df pk) (t_rows (evolved tb df))
           (proposed_rows (evolved tb df) df).
Proof.
  intros Hpk Hs.
  set (ks := kept chosen pk (upsert_action df pk) (t_rows (evolved tb df))
                  (proposed_rows (evolved tb df) df)).
  assert (cell s pk ∈ keys_of pk ks) as Hin.
  { apply kept_keys. rewrite keys_proposed_rows by done.
    apply list_elem_of_fmap. by exists s. }
  apply list_elem_of_fmap in Hin as (p & Hkp & Hp).
  pose proof (kept_sublist _ _ _ _ _ _ Hp) as Hp'.
  apply list_elem_of_fmap in Hp' as (s' & -> & Hs').
  exists s'. split; [done|]. split; [|done].
  rewrite cell_proposed in Hkp by (by apply columns_in_evolved).
  by rewrite bool_decide_eq_true_2 in Hkp.
Qed.

(** Every row of a batch that was written joins one stored row. *)
Lemma upsert_counts_records t df pk (d d' : db) n :
  store_ok d ->
  empty df = false ->
  upsert pkx chosen t df pk d = (inr n, d') ->
  n = length (records df).
Proof.
  intros Hok He Hup.
  pose proof (upsert_store_ok pkx chosen _ _ _ _ _ _ Hok Hup) as Hok'.
  destruct (upsert_count _ _ _ _ _ _ He Hup) as (tb' & Ht' & ->).
  apply upsert_inv in Hup as (tb1 & _ & _ & Hpk1 & Hpk & Hnull & ->); [|done].
  rewrite lookup_insert_eq in Ht'. injection Ht' as <-.
  pose proof (Hok' t _ (lookup_insert_eq _ _ _)) as Htb. unfold table_ok in Htb.
  change (t_pk (upserted chosen (evolved tb1 df) df pk)) with (t_pk tb1) in Htb.
  rewrite Hpk1 in Htb. destruct Htb as [_ Hv].
  rewrite count_joined by (by apply key_violation_NoDup).
  rewrite filter_all; [done|].
  intros s Hs. rewrite keys_proposed_rows in Hnull by done.
  split.
  + destruct (kept_for_record tb1 df pk s Hpk Hs) as (s' & _ & Hk' & Hp).
    destruct (upserted_settled tb1 df pk _ Hp) as [(r & Hr & Hkr) _].
    rewrite cell_proposed in Hkr by (by apply columns_in_evolved).
    rewrite bool_decide_eq_true_2 in Hkr by done.
    rewrite <- Hk', <- Hkr. apply list_elem_of_fmap. by exists r.
  + intros Hn. apply has_null_spec in Hnull. apply Hnull. rewrite <- Hn.
    apply list_elem_of_fmap. by exists s.
Qed.


(** Two records of a batch without repeated keys that carry one key are
    one record. *)
Lemma same_key_same_record pk (rs : list row) s s' :
  NoDup (keys_of pk rs) -> s ∈ rs -> s' ∈ rs -> cell s' pk = cell s pk -> s' = s.
Proof.
  induction rs as [|x rs IH]; intros Hnd Hs Hs' Hk; [by apply elem_of_nil in Hs|].
  simpl in Hnd. apply NoDup_cons in Hnd as [Hx Hnd].
  apply elem_of_cons in Hs as [->|Hs]; apply elem_of_cons in Hs' as [->|Hs'].
  - done.
  - exfalso. apply Hx. rewrite <- Hk. apply list_elem_of_fmap. by exists s'.
  - exfalso. apply Hx. rewrite Hk. apply list_elem_of_fmap. by exists s.
  - by apply IH.
Qed.

(** The table is declared as the batch is typed: every column of the batch
    has a dtype of its own (not [object], whose values the engine types one
    by one) and the table declares it with the type the engine gives this
    dtype, so that a value is stored as the batch holds it. *)
Definition stored_as_is (df : DataFrame) (tb : table) : Prop :=
  Forall (fun cs : string * Series =>
            s_dtype cs.2 <> DObject /\ (cs.1, duck_type (s_dtype cs.2)) ∈ t_cols tb) df.

#[global] Instance stored_as_is_dec df tb : Decision (stored_as_is df tb).
Proof. unfold stored_as_is. apply _. Defined.

(** A row of a batch that was written is in the table under its key, and
    every stored row that carries its key holds, in the columns of the
    batch, the values of one batch row with this key. *)
Lemma upsert_stores_row t df pk (d d' : db) n s :
  empty df = false ->
  upsert pkx chosen t df pk d = (inr n, d') ->
  s ∈ records df ->
  exists tb',
    d' !! t = Some tb' /\
    (exists r, r ∈ t_rows tb' /\ cell r pk = cell s pk) /\
    (forall r, r ∈ t_rows tb' -> cell r pk = cell s pk ->
       exists s', s' ∈ records df /\ cell s' pk = cell s pk /\
                  forall c, c ∈ columns df -> cell r c = cell s' c).
Proof.
  intros He Hup Hs.
  apply upsert_inv in Hup as (tb1 & _ & _ & Hpk1 & Hpk & Hnull & ->); [|done].
  eexists. split; [apply lookup_insert_eq|].
  destruct (kept_for_record tb1 df pk s Hpk Hs) as (s' & Hs' & Hk' & Hp).
  set (p := proposed (col_names (evolved tb1 df)) (columns df) ∅ s') in *.
  assert (forall c, c ∈ columns df -> cell p c = cell s' c) as Hcell.
  { intros c Hc. unfold p. rewrite cell_proposed by (by apply columns_in_evolved).
    by rewrite bool_decide_eq_true_2. }
  destruct (upserted_settled tb1 df pk p Hp) as [(r & Hr & Hkr) Hall].
  rewrite Hcell, Hk' in Hkr by done. split; [by exists r|].
  intros r' Hr' Hkr'. exists s'. split; [done|]. split; [done|]. intros c Hc.
  destruct (decide (c = pk)) as [->|Hne]; [congruence|].
  rewrite <- Hk', <- (Hcell pk Hpk) in Hkr'. specialize (Hall r' Hr' Hkr').
  assert (c ∈ non_pk df pk) as Hcn by (by apply list_elem_of_filter).
  unfold assignments, upsert_action in Hall.
  rewrite bool_decide_eq_false_2 in Hall by (intros Hnil; rewrite Hnil in Hcn;
                                            by apply elem_of_nil in Hcn).
  simpl in Hall.
  specialize (Hall (c, fun p : row => cell p c)). simpl in Hall.
  unfold cell at 1. rewrite Hall.
  - simpl. by apply Hcell.
  - apply list_elem_of_fmap. by exists c.
Qed.

(** X8.  Reading a batch back.  After an upsert into a table declared as
    the batch is typed, every key of the batch is in the table, and every
    stored row that carries the key of a batch row holds, in each column of
    the batch, the values of one batch row with this key: of that very row
    when the batch holds no key twice, of one of the rows that share the
    key otherwise (the engine keeps one of them). *)
Theorem upsert_read_back t df pk (d d' : db) n :
  empty df = false ->
  upsert pkx chosen t df pk d = (inr n, d') ->
  (forall tb', d' !! t = Some tb' -> stored_as_is df tb') ->
  exists tb',
    d' !! t = Some tb' /\
    forall s, s ∈ records df ->
      (exists r, r ∈ t_rows tb' /\ cell r pk = cell s pk) /\
      (forall r, r ∈ t_rows tb' -> cell r pk = cell s pk ->
         exists s', s' ∈ records df /\ cell s' pk = cell s pk /\
                    forall c, c ∈ columns df -> cell r c = cell s' c) /\
      (NoDup (keys_of pk (records df)) ->
       forall r c, r ∈ t_rows tb' -> cell r pk = cell s pk -> c ∈ columns df ->
         cell r c = cell s c).
Proof.
  intros He Hup _.
  destruct (upsert_count _ _ _ _ _ _ He Hup) as (tb' & Htb & _).
  exists tb'. split; [done|]. intros s Hs.
  destruct (upsert_stores_row _ _ _ _ _ _ _ He Hup Hs) as (tb'' & Htb'' & Hex & Hrow).
  rewrite Htb in Htb''. injection Htb'' as <-.
  split; [done|]. split; [done|].
  intros Hnd r c Hr Hk Hc. destruct (Hrow r Hr Hk) as (s' & Hs' & Hk' & Hcells).
  rewrite (Hcells c Hc). f_equal. by eapply same_key_same_record.
Qed.

(** ** Sequences of writer calls *)

(** One call of the writer, as the cleaner issues them. *)
Inductive call :=
| Upsert (t : string) (df : DataFrame) (pk : string)
| RecordRun (now : Q) (corr_id table_name : string) (rows : Z).

(** The store a call leaves behind, whether it returns or raises (the
    consumer catches what it raises and goes on with the next message). *)
Definition run_call (c : call) (d : db) : db :=
  match c with
  | Upsert t df pk => (upsert pkx chosen t df pk d).2
  | RecordRun now corr_id table_name rows => (record_run chosen now corr_id table_name rows d).2
  end.

Definition run_calls (calls : list call) (d : db) : db :=
  foldl (fun d c => run_call c d) d calls.

Lemma run_call_ok c d : store_ok d -> store_ok (run_call c d).
Proof.
  intros Hok. destruct c as [t df pk|now corr tn rows]; simpl.
  - destruct (upsert pkx chosen t df pk d) as [r d1] eqn:E. by eapply upsert_store_ok.
  - destruct (record_run chosen now corr tn rows d) as [r d1] eqn:E. by eapply record_run_store_ok.
Qed.

(** X9.  No sequence of upserts and ledger writes, failing or not, leaves a
    table whose declared key is missing from its columns, null in a row or
    repeated between two rows. *)
Theorem writer_calls_keep_keys (calls : list call) (d : db) :
  store_ok d -> store_ok (run_calls calls d).
Proof.
  revert d. induction calls as [|c calls IH]; intros d Hok; [done|].
  simpl. apply IH. by apply run_call_ok.
Qed.

(** ** The ledger row of a run *)

Lemma filter_insert_one_other K sets (rows : list row) (p : row) (k : value) :
  K ∉ sets.*1 -> cell p K <> k ->
  filter (fun r => cell r K = k) (insert_one K (Some sets) rows p)
  = filter (fun r => cell r K = k) rows.
Proof.
  intros HK Hne. unfold insert_one.
  destruct (existsb (key_matches K (cell p K)) rows).
  - induction rows as [|r rows IH]; [done|]. simpl.
    rewrite !filter_cons, IH.
    destruct (key_matches K (cell p K) r) eqn:Hm; [|done].
    apply key_matches_spec in Hm.
    rewrite decide_False by (rewrite apply_sets_key by done; congruence).
    by rewrite decide_False by congruence.
  - rewrite filter_app. rewrite (filter_cons _ p), decide_False by done.
    by rewrite filter_nil, app_nil_r.
Qed.

(** The row the ledger holds for a corr_id once its run is recorded. *)
Lemma recorded_row now corr tn rows (d : db) L :
  store_ok d -> d !! ledger = Some L -> ledger_ready L -> is_bigint rows = true ->
  exists r,
    ledger_rows corr (<[ledger := recorded L now corr tn rows]> d) = [r] /\
    cell r "table_name" = VStr tn /\
    cell r "row_count" = num_of_Z rows /\
    cell r "processed_at" = VNum now.
Proof.
  intros Hok HL Hready Hfit.
  pose proof (record_run_ready chosen now corr tn rows d L HL Hready Hfit) as Hrun.
  pose proof (record_run_store_ok _ _ _ _ _ _ _ _ Hok Hrun) as Hok'.
  pose proof (Hok' ledger _ (lookup_insert_eq _ _ _)) as Htb.
  destruct Hready as [Hpk Hcols].
  unfold table_ok in Htb. simpl in Htb. rewrite Hpk in Htb. destruct Htb as [_ Hv].
  apply key_violation_NoDup in Hv.
  set (p := run_row L now corr tn rows) in *.
  assert (cell p "corr_id" = VStr corr) as Hkp by (apply run_row_key, Hcols; by left).
  assert (settled "corr_id" (Some (run_assignments now))
            (insert_one "corr_id" (Some (run_assignments now)) (t_rows L) p) p)
    as [(r & Hr & Hkr) Hall].
  { apply insert_one_settles; [apply run_key_not_assigned| |].
    - intros ce1 ce2 H1 H2 He. unfold assignments in H1, H2. simpl in H1, H2.
      repeat (apply elem_of_cons in H1 as [->|H1]); try (by apply elem_of_nil in H1);
        repeat (apply elem_of_cons in H2 as [->|H2]); try (by apply elem_of_nil in H2);
        simpl in He; done.
    - intros ce Hce. unfold assignments in Hce. simpl in Hce.
      repeat (apply elem_of_cons in Hce as [->|Hce]); try (by apply elem_of_nil in Hce);
        simpl; unfold p, run_row.
      + rewrite proposed_lookup by (apply Hcols; right; by left).
        by rewrite cell_proposed by (apply Hcols; right; by left).
      + rewrite proposed_lookup by (apply Hcols; right; right; by left).
        by rewrite cell_proposed by (apply Hcols; right; right; by left).
      + rewrite proposed_lookup by (apply Hcols; right; right; right; by left).
        rewrite bool_decide_eq_false_2; [done|].
        intros Hin. repeat (apply elem_of_cons in Hin as [Hin|Hin]); try done.
        by apply elem_of_nil in Hin. }
  rewrite Hkp in Hkr.
  exists r.
  assert (ledger_rows corr (<[ledger:=recorded L now corr tn rows]> d) = [r]) as Hrows.
  { unfold ledger_rows. rewrite lookup_insert_eq.
    assert (length (filter (fun r0 : row => cell r0 "corr_id" = VStr corr)
                           (t_rows (recorded L now corr tn rows))) = 1) as Hlen.
    { apply unique_key_count; [done|]. rewrite <- Hkr. apply list_elem_of_fmap. by exists r. }
    assert (r ∈ filter (fun r0 : row => cell r0 "corr_id" = VStr corr)
                       (t_rows (recorded L now corr tn rows))) as Hin.
    { by apply list_elem_of_filter. }
    destruct (filter _ _) as [|r1 [|r2 l]]; simpl in Hlen; try done.
    apply list_elem_of_singleton in Hin. by subst. }
  split; [done|].
  assert (absorbs (run_assignments now) p r) as Habs.
  { apply Hall; [done|]. by rewrite Hkp. }
  assert (forall c, c ∈ ["table_name"; "row_count"] ->
                    cell p c = cell ({[ "corr_id" := VStr corr; "table_name" := VStr tn;
                                        "row_count" := num_of_Z rows ]} : row) c) as Hp.
  { intros c Hc. unfold p, run_row. rewrite cell_proposed.
    - rewrite bool_decide_eq_true_2; [done|].
      repeat (apply elem_of_cons in Hc as [->|Hc]); try (by apply elem_of_nil in Hc).
      + right; by left.
      + right; right; by left.
    - apply Hcols. repeat (apply elem_of_cons in Hc as [->|Hc]);
        try (by apply elem_of_nil in Hc).
      + right; by left.
      + right; right; by left. }
  pose proof (Habs ("table_name", fun p : row => cell p "table_name")) as H1.
  pose proof (Habs ("row_count", fun p : row => cell p "row_count")) as H2.
  pose proof (Habs ("processed_at", fun _ : row => VNum now)) as H3.
  simpl in H1, H2, H3.
  split; [|split].
  - unfold cell at 1. rewrite H1 by (by left). simpl. by rewrite Hp by (by left).
  - unfold cell at 1. rewrite H2 by (right; by left). simpl.
    by rewrite Hp by (right; by left).
  - unfold cell at 1. by rewrite H3 by (right; right; by left).
Qed.

(** Recording a run leaves the rows of the other corr_ids alone. *)
Lemma recorded_others now corr tn rows (d : db) L corr' :
  d !! ledger = Some L -> ledger_ready L -> corr' <> corr ->
  ledger_rows corr' (<[ledger := recorded L now corr tn rows]> d) = ledger_rows corr' d.
Proof.
  intros HL [Hpk Hcols] Hne. unfold ledger_rows. rewrite lookup_insert_eq, HL.
  unfold recorded. simpl. apply filter_insert_one_other.
  - apply run_key_not_assigned.
  - rewrite run_row_key by (apply Hcols; by left). congruence.
Qed.

(** A row count that does not fit the column is refused. *)
Lemma record_run_unfit now corr tn rows (d : db) L :
  d !! ledger = Some L -> ledger_ready L -> is_bigint rows = false ->
  record_run chosen now corr tn rows d = (inl ConversionException, d).
Proof.
  intros HL [Hpk Hcols] Hfit. unfold record_run, insert_on_conflict. fold ledger.
  rewrite HL, Hfit.
  match goal with
  | |- context [forallb ?f ?l] => assert (forallb f l = true) as ->
  end.
  { apply forallb_forall. intros c Hc. apply bool_decide_eq_true.
    apply Hcols. simpl in Hc.
    repeat (destruct Hc as [<-|Hc]; [by repeat first [left|right]|]). done. }
  simpl. rewrite Hpk. by case_bool_decide.
Qed.

(** X10.  The ledger keeps the last run of a corr_id.  On a store whose
    ledger table is ready, [record_run] with a row count in the range of
    BIGINT (from -2^63 to 2^63 - 1, the type of the column) returns;
    afterwards the ledger has one row for the corr_id, which shows the table
    name, the row count and the time of this call, and the rows of every
    other corr_id are as they were.  With a row count out of this range it
    raises and leaves the store as it was. *)
Theorem record_run_overwrites now corr tn rows (d : db) L :
  store_ok d -> d !! ledger = Some L -> ledger_ready L ->
  if is_bigint rows then
  exists d' r,
    record_run chosen now corr tn rows d = (inr tt, d') /\
    ledger_rows corr d' = [r] /\
    cell r "table_name" = VStr tn /\
    cell r "row_count" = num_of_Z rows /\
    cell r "processed_at" = VNum now /\
    (forall corr', corr' <> corr -> ledger_rows corr' d' = ledger_rows corr' d)
  else record_run chosen now corr tn rows d = (inl ConversionException, d).
Proof.
  intros Hok HL Hready. destruct (is_bigint rows) eqn:Hfit.
  - destruct (recorded_row now corr tn rows d L Hok HL Hready Hfit)
      as (r & Hrows & Ht & Hc & Hp).
    exists (<[ledger := recorded L now corr tn rows]> d), r.
    split; [by apply record_run_ready|].
    repeat (split; [done|]).
    intros corr' Hne. by apply recorded_others.
  - by apply (record_run_unfit now corr tn rows d L).
Qed.

(** ** What the writer never removes *)

(** [tb'] extends [tb]: the columns of [tb] come first in [tb'], with
    their types; a declared key is still declared, and the keys stored
    under it are still there, in place; no row is gone. *)
Definition table_le (tb tb' : table) : Prop :=
  (exists ext, t_cols tb' = t_cols tb ++ ext) /\
  (forall k, t_pk tb = Some k ->
     t_pk tb' = Some k /\ keys_of k (t_rows tb) `prefix_of` keys_of k (t_rows tb')) /\
  length (t_rows tb) <= length (t_rows tb').

Definition store_le (d d' : db) : Prop :=
  forall t tb, d !! t = Some tb -> exists tb', d' !! t = Some tb' /\ table_le tb tb'.

Lemma table_le_refl tb : table_le tb tb.
Proof. split; [exists []; by rewrite app_nil_r|]. split; [|done]. by intros k ->. Qed.

Lemma table_le_trans tb1 tb2 tb3 : table_le tb1 tb2 -> table_le tb2 tb3 -> table_le tb1 tb3.
Proof.
  intros ([e1 H1] & Hk1 & Hl1) ([e2 H2] & Hk2 & Hl2). split; [|split; [|lia]].
  - exists (e1 ++ e2). by rewrite H2, H1, app_assoc.
  - intros k Hk. destruct (Hk1 k Hk) as [Hk' Hp1]. destruct (Hk2 k Hk') as [Hk'' Hp2].
    split; [done|]. by etrans.
Qed.

Lemma store_le_refl d : store_le d d.
Proof. intros t tb Ht. exists tb. split; [done|apply table_le_refl]. Qed.

Lemma store_le_trans d1 d2 d3 : store_le d1 d2 -> store_le d2 d3 -> store_le d1 d3.
Proof.
  intros H12 H23 t tb Ht. destruct (H12 t tb Ht) as (tb2 & Ht2 & Hle2).
  destruct (H23 t tb2 Ht2) as (tb3 & Ht3 & Hle3). exists tb3.
  split; [done|]. by eapply table_le_trans.
Qed.

Lemma store_le_insert (d : db) t tb' :
  (forall tb, d !! t = Some tb -> table_le tb tb') -> store_le d (<[t := tb']> d).
Proof.
  intros H t0 tb0 Ht0. destruct (decide (t0 = t)) as [->|Hne].
  - exists tb'. split; [apply lookup_insert_eq|by apply H].
  - exists tb0. split; [by rewrite lookup_insert_ne|apply table_le_refl].
Qed.

Lemma ensure_table_le t df pk (d d1 : db) r :
  _ensure_table pkx t df pk d = (r, d1) -> store_le d d1.
Proof.
  unfold _ensure_table, mbind, M_bind, bind, create_table_if_not_exists_as,
    try_pass, add_primary_key.
  destruct (d !! t) as [tb|] eqn:Ht; simpl.
  - rewrite Ht. destruct (t_pk tb) eqn:Hpk; simpl; [intros [= <- <-]; apply store_le_refl|].
    case_bool_decide as Hin; simpl; [|intros [= <- <-]; apply store_le_refl].
    destruct (key_violation pk (t_rows tb)) eqn:Hv; simpl.
    + case_bool_decide; intros [= <- <-]; apply store_le_refl.
    + intros [= <- <-]. apply store_le_insert. intros tb0 Ht0.
      rewrite Ht in Ht0. injection Ht0 as <-.
      split; [exists []; by rewrite app_nil_r|]. split; [|done]. intros k Hk. congruence.
  - rewrite lookup_insert_eq. simpl.
    case_bool_decide as Hin; simpl; intros [= <- <-].
    + rewrite insert_insert_eq. apply store_le_insert. intros tb0 Ht0. congruence.
    + apply store_le_insert. intros tb0 Ht0. congruence.
Qed.

Lemma add_column_le t c ty (d d1 : db) r :
  store_ok d -> add_column t c ty d = (r, d1) -> store_le d d1.
Proof.
  intros Hok. unfold add_column.
  destruct (d !! t) as [tb|] eqn:Ht; [|intros [= <- <-]; apply store_le_refl].
  case_bool_decide as Hc; intros [= <- <-]; [apply store_le_refl|].
  apply store_le_insert. intros tb0 Ht0. rewrite Ht in Ht0. injection Ht0 as <-.
  split; [by eexists|]. simpl. split; [|by rewrite length_map].
  intros k Hk. split; [done|].
  pose proof (Hok _ _ Ht) as Htb. unfold table_ok in Htb. rewrite Hk in Htb.
  destruct Htb as [Hin _].
  assert (keys_of k (map (fun r0 : row => <[c:=VNull]> r0) (t_rows tb))
          = keys_of k (t_rows tb)) as ->; [|done].
  unfold keys_of. rewrite map_map. apply map_ext. intros r0. unfold cell.
  rewrite lookup_insert_ne; [done|]. by intros ->.
Qed.

Lemma for_each_add_column_le ty t cs (d d1 : db) r :
  store_ok d -> for_each cs (fun c => add_column t c (ty c)) d = (r, d1) -> store_le d d1.
Proof.
  revert d. induction cs as [|c cs IH]; intros d Hok; simpl.
  - intros [= <- <-]. apply store_le_refl.
  - unfold mbind, M_bind, bind.
    destruct (add_column t c (ty c) d) as [[e|[]] d0] eqn:E.
    + intros [= <- <-]. by eapply add_column_le.
    + intros H. eapply store_le_trans; [by eapply add_column_le|].
      eapply IH; [|done]. by eapply add_column_ok.
Qed.

Lemma evolve_schema_le t df (d d1 : db) r :
  store_ok d -> _evolve_schema t df d = (r, d1) -> store_le d d1.
Proof.
  intros Hok. unfold _evolve_schema, _existing_cols, table_info, mbind, M_bind, bind.
  destruct (d !! t) as [tb|]; [|intros [= <- <-]; apply store_le_refl].
  case_bool_decide; [intros [= <- <-]; apply store_le_refl|].
  unfold _infer_df_types, ret. by apply for_each_add_column_le.
Qed.

Lemma foldl_insert_keys_prefix K action ps rows0 :
  K ∉ (assignments action).*1 ->
  keys_of K rows0 `prefix_of` keys_of K (foldl (insert_one K action) rows0 ps).
Proof.
  intros HK. revert rows0. induction ps as [|p ps IH]; intros rows0; [done|].
  simpl. etrans; [|apply IH]. rewrite keys_insert_one by done.
  destruct (existsb _ _); [done|]. by apply prefix_app_r.
Qed.

Lemma insert_on_conflict_le t cols defaults src converts target action (d d1 : db) r :
  target ∉ (assignments action).*1 ->
  insert_on_conflict chosen t cols defaults src converts target action d = (r, d1) ->
  store_le d d1.
Proof.
  intros Hkey. unfold insert_on_conflict.
  destruct (d !! t) as [tb|] eqn:Ht; [|intros [= <- <-]; apply store_le_refl].
  destruct (negb (forallb _ _)); [intros [= <- <-]; apply store_le_refl|].
  case_bool_decide as Hpk; simpl; [|intros [= <- <-]; apply store_le_refl].
  destruct converts; simpl; [|intros [= <- <-]; apply store_le_refl].
  destruct (has_null _) eqn:Hnull; [intros [= <- <-]; apply store_le_refl|].
  intros [= <- <-].
  apply store_le_insert. intros tb0 Ht0. rewrite Ht in Ht0. injection Ht0 as <-.
  match goal with
  | |- context [foldl (insert_one target action) (t_rows tb) ?ps] =>
    pose proof (foldl_insert_keys_prefix target action ps (t_rows tb) Hkey) as Hp
  end.
  split; [exists []; by rewrite app_nil_r|]. simpl. split.
  - intros k Hk. split; [done|]. rewrite Hpk in Hk. by injection Hk as <-.
  - apply prefix_length in Hp. unfold keys_of in Hp. by rewrite !length_map in Hp.
Qed.

Lemma upsert_le t df pk (d d1 : db) r :
  store_ok d -> upsert pkx chosen t df pk d = (r, d1) -> store_le d d1.
Proof.
  intros Hok. unfold upsert. destruct (empty df); [intros [= <- <-]; apply store_le_refl|].
  case_bool_decide as Hpk; simpl; [|intros [= <- <-]; apply store_le_refl].
  unfold mbind, M_bind, bind.
  destruct (_ensure_table pkx t df pk d) as [[e|[]] d0] eqn:E0;
    [intros [= <- <-]; by eapply ensure_table_le|].
  pose proof (ensure_table_le _ _ _ _ _ _ E0) as H0.
  apply ensure_table_ok in E0; [|done].
  destruct (_evolve_schema t df d0) as [[e|[]] d2] eqn:E2.
  { intros [= <- <-]. eapply store_le_trans; [done|]. by eapply evolve_schema_le. }
  pose proof (evolve_schema_le _ _ _ _ _ E0 E2) as H2.
  unfold _existing_cols, table_info.
  destruct (d2 !! t) as [tb|] eqn:Ht.
  2:{ intros [= <- <-]. by eapply store_le_trans. }
  match goal with
  | |- context [insert_on_conflict chosen t ?cols ?dft ?src true pk ?act d2] =>
    destruct (insert_on_conflict chosen t cols dft src true pk act d2)
      as [[e|[]] d3] eqn:E3
  end.
  - intros [= <- <-]. eapply store_le_trans; [done|]. eapply store_le_trans; [done|].
    eapply insert_on_conflict_le; [|exact E3]. apply action_skips_key.
  - apply insert_on_conflict_le in E3; [|apply action_skips_key].
    unfold count_join. destruct (d3 !! t).
    2:{ intros [= <- <-]. eapply store_le_trans; [done|]. by eapply store_le_trans. }
    destruct (negb _); intros [= <- <-];
      (eapply store_le_trans; [done|]; by eapply store_le_trans).
Qed.

Lemma run_call_le c d : store_ok d -> store_le d (run_call c d).
Proof.
  intros Hok. destruct c as [t df pk|now corr tn rows]; simpl.
  - destruct (upsert pkx chosen t df pk d) as [r d1] eqn:E. by eapply upsert_le.
  - destruct (record_run chosen now corr tn rows d) as [r d1] eqn:E.
    eapply insert_on_conflict_le; [|exact E]. apply run_key_not_assigned.
Qed.

(** X11.  The writer only adds.  Through any sequence of upserts and ledger
    writes, failing or not, every table stays, its columns stay first and
    in order with their types, its declared key stays declared, the keys
    stored under it stay in place, new keys coming after them, and the
    number of rows never decreases. *)
Theorem writer_calls_only_add (calls : list call) (d : db) :
  store_ok d -> store_le d (run_calls calls d).
Proof.
  revert d. induction calls as [|c calls IH]; intros d Hok; [apply store_le_refl|].
  simpl. eapply store_le_trans; [by apply run_call_le|].
  apply IH. by apply run_call_ok.
Qed.

End Writer.

(** ** A concrete store *)


Lemma upsert_read_back_witness :
  exists tb',
    store1 !! "crashes" = Some tb' /\
    forall s, s ∈ records batch0 ->
      (exists r, r ∈ t_rows tb' /\ cell r "crash_record_id" = cell s "crash_record_id") /\
      (forall r, r ∈ t_rows tb' -> cell r "crash_record_id" = cell s "crash_record_id" ->
         exists s', s' ∈ records batch0 /\
                    cell s' "crash_record_id" = cell s "crash_record_id" /\
                    forall c, c ∈ columns batch0 -> cell r c = cell s' c) /\
      (NoDup (keys_of "crash_record_id" (records batch0)) ->
       forall r c, r ∈ t_rows tb' -> cell r "crash_record_id" = cell s "crash_record_id" ->
         c ∈ columns batch0 -> cell r c = cell s c).
Proof.
  apply (upsert_read_back ConstraintException keeps_first "crashes" batch0
           "crash_record_id" store0 store1 2).
  - reflexivity.
  - vm_compute. reflexivity.
  - intros tb' Htb. vm_compute in Htb. injection Htb as <-.
    apply (bool_decide_unpack _). vm_compute. exact I.
Defined.

Definition calls0 : list call :=
  [Upsert "crashes" batch0 "crash_record_id"; RecordRun 1 "abc123" "crashes" 2;
   Upsert "crashes" batch1 "lane_cnt"].

Lemma writer_calls_keep_keys_witness :
  store_ok (run_calls ConstraintException keeps_first calls0 store0).
Proof.
  apply (writer_calls_keep_keys ConstraintException keeps_first calls0 store0).
  apply (bool_decide_unpack _). vm_compute. exact I.
Defined.

Lemma writer_calls_only_add_witness :
  store_le store0 (run_calls ConstraintException keeps_first calls0 store0).
Proof.
  apply (writer_calls_only_add ConstraintException keeps_first calls0 store0).
  apply (bool_decide_unpack _). vm_compute. exact I.
Defined.

Lemma record_run_overwrites_witness :
  exists d' r,
    record_run keeps_first 2 "abc123" "crashes" 5 store2 = (inr tt, d') /\
    ledger_rows "abc123" d' = [r] /\
    cell r "table_name" = VStr "crashes" /\
    cell r "row_count" = num_of_Z 5 /\
    cell r "processed_at" = VNum 2 /\
    (forall corr', corr' <> "abc123" -> ledger_rows corr' d' = ledger_rows corr' store2).
Proof.
  apply (record_run_overwrites keeps_first 2 "abc123" "crashes" 5 store2
           (mkTable meta_cols (Some "corr_id")
              [ {[ "corr_id" := VStr "abc123"; "table_name" := VStr "crashes";
                   "row_count" := VNum 2; "processed_at" := VNum 1 ]} ])).
  - apply (bool_decide_unpack _). vm_compute. exact I.
  - vm_compute. reflexivity.
  - split; [reflexivity|]. intros c Hc.
    repeat (apply elem_of_cons in Hc as [->|Hc]); try (by apply elem_of_nil in Hc);
      apply (bool_decide_unpack _); vm_compute; exact I.
Defined.

End store_spec.

(* ===================================================================== *)
(** * Properties of the cleaned batch                                     *)
(* ===================================================================== *)

Module cleaning_spec.

Import Facts Pandas cleaning_rules cleaning_rules_spec.

(** ** The columns of a frame through the stages *)

Lemma columns_setitem_in (df : DataFrame) c s :
  c ∈ columns df -> columns (setitem df c s) = columns df.
Proof.
  intros Hc. unfold setitem. rewrite bool_decide_eq_true_2 by done.
  unfold columns. rewrite <- list_fmap_compose. apply list_fmap_ext.
  intros i [c' s'] _. simpl. by case_bool_decide.
Qed.

Lemma columns_setitem_new (df : DataFrame) c s :
  c ∉ columns df -> columns (setitem df c s) = columns df ++ [c].
Proof.
  intros Hc. unfold setitem. rewrite bool_decide_eq_false_2 by done.
  unfold columns. by rewrite fmap_app.
Qed.

Lemma elem_of_columns_setitem (df : DataFrame) c s c' :
  c' ∈ columns (setitem df c s) <-> c' ∈ columns df \/ c' = c.
Proof.
  destruct (decide (c ∈ columns df)) as [Hc|Hc].
  - rewrite columns_setitem_in by done. split; [by left|]. by intros [?| ->].
  - rewrite columns_setitem_new by done. by rewrite elem_of_app, list_elem_of_singleton.
Qed.

Lemma foldl_keeps_columns (f : DataFrame -> string -> DataFrame) (cs : list string)
    (df : DataFrame) :
  (forall acc c, c ∈ cs -> columns acc = columns df -> columns (f acc c) = columns df) ->
  columns (foldl f df cs) = columns df.
Proof.
  intros Hf. assert (forall acc, columns acc = columns df ->
                                 columns (foldl f acc cs) = columns df) as H; [|by apply H].
  induction cs as [|c cs IH]; intros acc Hacc; [done|].
  simpl. apply IH.
  - intros acc' c' Hc'. apply Hf. by right.
  - apply Hf; [by left|done].
Qed.

Lemma filter_iff_in {A} (P Q : A -> Prop) `{!forall x, Decision (P x), !forall x, Decision (Q x)}
    (l : list A) :
  (forall x, x ∈ l -> P x <-> Q x) -> filter P l = filter Q l.
Proof.
  induction l as [|a l IH]; intros Hl; [done|].
  rewrite !filter_cons. rewrite IH by (intros x Hx; apply Hl; by right).
  destruct (decide (P a)) as [HP|HP].
  - by rewrite decide_True by (apply Hl; [by left|done]).
  - by rewrite decide_False by (intros HQ; apply HP, Hl; [by left|done]).
Qed.

Lemma getitem_setitem_ne (df : DataFrame) c s c' :
  c' <> c -> getitem (setitem df c s) c' = getitem df c'.
Proof.
  intros Hne. unfold setitem. case_bool_decide as Hc.
  - clear Hc. induction df as [|[c0 s0] df IH]; [done|]. simpl.
    destruct (decide (c0 = c)) as [->|Hc0].
    + rewrite (bool_decide_eq_true_2 (c = c)) by done. simpl.
      rewrite !bool_decide_eq_false_2 by congruence. apply IH.
    + rewrite (bool_decide_eq_false_2 (c0 = c)) by done. simpl.
      case_bool_decide; [done|apply IH].
  - induction df as [|[c0 s0] df IH]; simpl.
    + by rewrite bool_decide_eq_false_2 by congruence.
    + case_bool_decide; [done|]. apply IH. simpl in Hc.
      by apply not_elem_of_cons in Hc as [_ ?].
Qed.

Lemma foldl_invariant {A B} (f : A -> B -> A) (I : A -> Prop) (cs : list B) (a : A) :
  (forall acc c, c ∈ cs -> I acc -> I (f acc c)) -> I a -> I (foldl f a cs).
Proof.
  revert a. induction cs as [|c cs IH]; intros a HI Ha; [done|].
  simpl. apply IH.
  - intros acc c' Hc'. apply HI. by right.
  - apply HI; [by left|done].
Qed.

(** A loop that keeps [I], and establishes [K] when it meets [b0] and keeps
    it from then on. *)
Lemma foldl_establish {A B} (f : A -> B -> A) (I K : A -> Prop) (b0 : B)
    (cs : list B) (a : A) :
  (forall acc c, c ∈ cs -> I acc -> I (f acc c)) ->
  (forall acc c, c ∈ cs -> I acc -> K acc -> K (f acc c)) ->
  (forall acc, I acc -> K (f acc b0)) ->
  I a -> b0 ∈ cs -> I (foldl f a cs) /\ K (foldl f a cs).
Proof.
  intros HI HK H0 Ha Hin. split; [by apply foldl_invariant|].
  revert a Ha. induction cs as [|c cs IH]; intros a Ha; [by apply elem_of_nil in Hin|].
  simpl.
  assert (forall acc c', c' ∈ cs -> I acc -> I (f acc c')) as HI'
    by (intros acc c' Hc'; apply HI; by right).
  assert (forall acc c', c' ∈ cs -> I acc -> K acc -> K (f acc c')) as HK'
    by (intros acc c' Hc'; apply HK; by right).
  apply elem_of_cons in Hin as [<-|Hin].
  - apply (foldl_invariant f (fun acc => I acc /\ K acc)).
    + intros acc c' Hc' [? ?]. split; [by apply HI'|by apply HK'].
    + split; [apply HI; [by left|done]|by apply H0].
  - apply IH; [done|done|done|]. apply HI; [by left|done].
Qed.

Lemma select_filter (f : value -> bool) (vs : list value) :
  select (map f vs) vs = filter (fun v => f v = true) vs.
Proof.
  induction vs as [|v vs IH]; [done|]. simpl. rewrite filter_cons.
  destruct (f v) eqn:Hf.
  - rewrite decide_True by done. by rewrite IH.
  - rewrite decide_False by done. apply IH.
Qed.

Lemma select_keep_last_NoDup (ks : list value) : NoDup (select (keep_last ks) ks).
Proof.
  induction ks as [|k ks IH]; simpl; [constructor|].
  case_bool_decide as Hk; simpl; [done|].
  constructor; [|done]. intros Hin. apply Hk. by eapply select_sublist.
Qed.

Section Stages.

Variable repr_number : Q -> string.
Variable parse_number : string -> option Q.
Variable parse_datetime : value -> option (Z * Z * Z * Z).

Lemma columns_coerce_numeric (df : DataFrame) :
  columns (_coerce_numeric parse_number df) = columns df.
Proof.
  unfold _coerce_numeric. apply foldl_keeps_columns. intros acc c _ Hacc.
  case_bool_decide as Hc; [|done]. by rewrite columns_setitem_in.
Qed.

Lemma columns_normalize_text (df : DataFrame) :
  columns (_normalize_text repr_number df) = columns df.
Proof.
  unfold _normalize_text. apply foldl_keeps_columns. intros acc c Hc Hacc.
  rewrite <- Hacc in Hc.
  case_bool_decide; [by rewrite columns_setitem_in|].
  destruct (_ || _); [by rewrite columns_setitem_in|done].
Qed.

Lemma columns_convert_yes_no (df : DataFrame) :
  columns (_convert_yes_no repr_number df).1 = columns df.
Proof.
  unfold _convert_yes_no.
  assert (forall cs acc bs, cs ⊆ columns df -> columns acc = columns df ->
            columns (foldl (fun '(df, bool_cols) c =>
               if is_object_dtype (getitem df c) || is_string_dtype (getitem df c) then
                 let new_s := _map_yes_no_to_int repr_number (getitem df c) in
                 if bool_decide (s_dtype new_s = DInt8)
                 then (setitem df c new_s, bool_cols ++ [c])
                 else (df, bool_cols)
               else (df, bool_cols)) (acc, bs) cs).1 = columns df) as H.
  { induction cs as [|c cs IH]; intros acc bs Hcs Hacc; [done|].
    assert (c ∈ columns acc) as Hc by (rewrite Hacc; apply Hcs; by left).
    assert (cs ⊆ columns df) as Hcs' by (intros x Hx; apply Hcs; by right).
    simpl. destruct (_ || _); [|by apply IH].
    case_bool_decide; [|by apply IH].
    apply IH; [done|]. by rewrite columns_setitem_in. }
  by apply H.
Qed.

Lemma elem_of_columns_split (df : DataFrame) c :
  c ∈ columns (_split_crash_datetime parse_datetime df)
  <-> c ∈ columns df \/ (DATE_COL ∈ columns df /\ c ∈ DERIVED_DATE_COLS).
Proof.
  unfold _split_crash_datetime. case_bool_decide as Hd.
  - rewrite !elem_of_columns_setitem. unfold DERIVED_DATE_COLS.
    rewrite !elem_of_cons, elem_of_nil. tauto.
  - tauto.
Qed.

Lemma columns_impute_missing (df : DataFrame) bool_cols :
  columns (imputed df bool_cols) = columns df.
Proof.
  unfold imputed.
  set (df1 := foldl _ df (columns df)).
  assert (columns df1 = columns df) as H1.
  { apply foldl_keeps_columns. intros acc c Hc Hacc. rewrite <- Hacc in Hc.
    unfold body. destruct (impute_numeric _ _ _); [|done].
    by rewrite columns_setitem_in. }
  rewrite <- H1. apply foldl_keeps_columns. intros acc c Hc Hacc. rewrite <- Hacc in Hc.
  unfold body. destruct (impute_text _ _); [|done]. by rewrite columns_setitem_in.
Qed.

Lemma columns_project names (df : DataFrame) : columns (project names df) = names.
Proof. unfold project, columns. rewrite <- list_fmap_compose. apply list_fmap_id. Qed.

Lemma columns_rename old new (df : DataFrame) :
  columns (rename old new df)
  = map (fun c => if bool_decide (c = old) then new else c) (columns df).
Proof.
  unfold rename, columns. rewrite <- !list_fmap_compose. apply list_fmap_ext.
  intros i [c s] _. simpl. by case_bool_decide.
Qed.

(** The names under which the key may come. *)
Definition key_names : list string := [PK; "record_id"; "id"; "crash_id"].

Lemma first_alias_spec (df : DataFrame) :
  match first_alias df with
  | Some alt => alt ∈ ["record_id"; "id"; "crash_id"] /\ alt ∈ columns df
  | None => forall alt, alt ∈ ["record_id"; "id"; "crash_id"] -> alt ∉ columns df
  end.
Proof.
  unfold first_alias.
  destruct (filter _ _) as [|alt l] eqn:Hf; simpl.
  - intros alt Halt Hin.
    assert (alt ∈ filter (fun alt => alt ∈ columns df) ["record_id"; "id"; "crash_id"]) as H'.
    { by apply list_elem_of_filter. }
    rewrite Hf in H'. by apply elem_of_nil in H'.
  - assert (alt ∈ filter (fun alt => alt ∈ columns df) ["record_id"; "id"; "crash_id"]) as H'.
    { rewrite Hf. by left. }
    apply list_elem_of_filter in H'. tauto.
Qed.

(** ** When the cleaning raises *)

(** No column is of a nullable integer dtype ([Int8], [Int16]). *)
Definition plain (df : DataFrame) : Prop :=
  Forall (fun cs : string * Series => is_nullable_integer cs.2 = false) df.

(** The columns of a nullable integer dtype are among [bs]. *)
Definition integers_in (bs : list string) (df : DataFrame) : Prop :=
  forall c s, (c, s) ∈ df -> is_nullable_integer s = true -> c ∈ bs.

Lemma elem_of_setitem (df : DataFrame) c s c' s' :
  (c', s') ∈ setitem df c s -> (c' = c /\ s' = s) \/ (c', s') ∈ df.
Proof.
  unfold setitem. case_bool_decide.
  - intros (cs & Heq & Hcs)%list_elem_of_fmap. case_bool_decide.
    + left. by injection Heq.
    + right. by subst.
  - intros [?|Hin%list_elem_of_singleton]%elem_of_app; [by right|]. left. by injection Hin.
Qed.

Lemma getitem_elem (df : DataFrame) c : c ∈ columns df -> (c, getitem df c) ∈ df.
Proof.
  induction df as [|[c0 s0] df IH]; simpl; [by intros ?%elem_of_nil|].
  intros Hc. case_bool_decide as Heq; [simpl in Heq; subst; by left|].
  right. apply IH. apply elem_of_cons in Hc as [?|?]; [simpl in Heq; congruence|done].
Qed.

Lemma plain_integers_in (df : DataFrame) : plain df -> integers_in [] df.
Proof.
  intros H c s Hin Hn. unfold plain in H. rewrite Forall_forall in H.
  specialize (H _ Hin). simpl in H. congruence.
Qed.

Lemma plain_setitem (df : DataFrame) c s :
  plain df -> is_nullable_integer s = false -> plain (setitem df c s).
Proof.
  unfold plain. rewrite !Forall_forall. intros H Hs [c' s'] Hin.
  apply elem_of_setitem in Hin as [[-> ->]|Hin]; [done|by apply (H _ Hin)].
Qed.

Lemma plain_take_rows mask (df : DataFrame) : plain df -> plain (take_rows mask df).
Proof.
  unfold plain, take_rows. intros H. apply Forall_fmap.
  eapply Forall_impl; [exact H|]. by intros [c s].
Qed.

Lemma plain_rename old new (df : DataFrame) : plain df -> plain (rename old new df).
Proof.
  unfold plain, rename. intros H. apply Forall_fmap.
  eapply Forall_impl; [exact H|]. intros [c s] Hs. simpl. by case_bool_decide.
Qed.

Lemma integers_in_setitem bs (df : DataFrame) c s :
  integers_in bs df -> (is_nullable_integer s = true -> c ∈ bs) ->
  integers_in bs (setitem df c s).
Proof.
  intros H Hs c' s' [[-> ->]|Hin]%elem_of_setitem Hn; [by apply Hs|by eapply H].
Qed.

Lemma plain_coerce_numeric (df : DataFrame) :
  plain df -> plain (_coerce_numeric parse_number df).
Proof.
  intros H. unfold _coerce_numeric. apply (foldl_invariant _ plain); [|done].
  intros acc c _ Hacc. case_bool_decide; [|done]. apply plain_setitem; [done|].
  unfold is_nullable_integer, to_numeric. simpl. by destruct (forallb _ _).
Qed.

Lemma plain_normalize_text (df : DataFrame) :
  plain df -> plain (_normalize_text repr_number df).
Proof.
  intros H. unfold _normalize_text. apply (foldl_invariant _ plain); [|done].
  intros acc c _ Hacc. case_bool_decide; [by apply plain_setitem|].
  destruct (_ || _); [by apply plain_setitem|done].
Qed.

(** The yes/no columns are the only columns the conversion makes
    nullable integers. *)
Lemma integers_convert_yes_no (df : DataFrame) :
  plain df ->
  integers_in (_convert_yes_no repr_number df).2 (_convert_yes_no repr_number df).1.
Proof.
  intros H. unfold _convert_yes_no.
  apply (foldl_invariant _ (fun st : DataFrame * list string => integers_in st.2 st.1)).
  - intros [acc bs] c _ Hacc. simpl in *.
    destruct (_ || _); [|done]. case_bool_decide; [|done]. simpl.
    apply integers_in_setitem.
    + intros c' s' Hin Hn. apply elem_of_app. left. by eapply Hacc.
    + intros _. apply elem_of_app. right. by left.
  - by apply plain_integers_in.
Qed.

(** A loop that keeps [I] and whose bodies return under [I], returns. *)
Lemma fold_result_invariant {A B} (body : A -> B -> exn + A) (I : A -> Prop)
    (a : A) (l : list B) :
  (forall a b, b ∈ l -> I a -> exists a', body a b = inr a' /\ I a') ->
  I a -> exists out, fold_result body a l = inr out /\ I out.
Proof.
  revert a. induction l as [|b l IH]; intros a Hb Ha; simpl; [by exists a|].
  destruct (Hb a b) as (a' & -> & Ha'); [by left|done|]. simpl.
  apply IH; [|done]. intros a2 b2 Hin. apply Hb. by right.
Qed.

(** With the nullable integer columns among those it skips, the
    imputation returns. *)
Lemma impute_missing_total (df : DataFrame) bool_cols :
  integers_in bool_cols df -> exists out, _impute_missing df bool_cols = inr out.
Proof.
  intros H. unfold _impute_missing.
  match goal with
  | |- context [fold_result ?b df (columns df)] =>
    destruct (fold_result_invariant b
                (fun a => integers_in bool_cols a /\ columns a = columns df)
                df (columns df)) as (df1 & -> & _)
  end.
  - intros a c Hc [Ha Hcols]. case_bool_decide as Hb; [by exists a|].
    destruct (is_numeric_dtype (getitem a c)) eqn:Hn; [|by exists a].
    assert (is_nullable_integer (getitem a c) = false) as Hplain.
    { destruct (is_nullable_integer (getitem a c)) eqn:Hi; [|done].
      exfalso. apply Hb. apply (Ha c (getitem a c)); [|done].
      apply getitem_elem. by rewrite Hcols. }
    rewrite fillna_spec. unfold refuses. rewrite Hplain. simpl.
    eexists. split; [reflexivity|]. split.
    + apply integers_in_setitem; [done|]. unfold is_nullable_integer, filled. simpl.
      unfold is_nullable_integer in Hplain. by rewrite Hplain.
    + rewrite columns_setitem_in; [done|]. by rewrite Hcols.
  - by split.
  - simpl.
    rewrite (fold_result_total _ (body impute_text (fun _ s => filled (VStr "missing") s))).
    + by eexists.
    + intros a c. unfold body, impute_text, is_text.
      destruct (_ || _) eqn:Ht; simpl; [|done].
      destruct (negb _); [|done]. by rewrite fillna_text.
Qed.

(** A frame that has the key column, no crash date and no nullable
    integer column is cleaned. *)
Lemma apply_cleaning_returns (df : DataFrame) :
  PK ∈ columns df -> DATE_COL ∉ columns df -> plain df ->
  exists out, apply_cleaning repr_number parse_number parse_datetime df = inr out.
Proof.
  intros Hpk Hdate Hplain. unfold apply_cleaning.
  rewrite (bool_decide_eq_true_2 _ Hpk). rewrite (bool_decide_eq_true_2 _ Hpk). simpl.
  set (df3 := _normalize_text repr_number
                (_coerce_numeric parse_number (drop_duplicates_last PK df))).
  assert (plain df3) as H3.
  { apply plain_normalize_text, plain_coerce_numeric. by apply plain_take_rows. }
  pose proof (integers_convert_yes_no df3 H3) as H4.
  pose proof (columns_convert_yes_no df3) as Hc4.
  unfold df3 in Hc4 at 2.
  rewrite columns_normalize_text, columns_coerce_numeric in Hc4.
  unfold drop_duplicates_last in Hc4. rewrite columns_take_rows in Hc4.
  destruct (_convert_yes_no repr_number df3) as [df4 bool_cols]. simpl in H4, Hc4.
  unfold _split_crash_datetime.
  rewrite bool_decide_eq_false_2 by (by rewrite Hc4).
  destruct (impute_missing_total df4 bool_cols H4) as [out ->]. simpl. by eexists.
Qed.

Lemma apply_cleaning_alias (df : DataFrame) alt :
  PK ∉ columns df -> first_alias df = Some alt ->
  apply_cleaning repr_number parse_number parse_datetime df
  = apply_cleaning repr_number parse_number parse_datetime (rename alt PK df).
Proof.
  intros Hpk Halt. pose proof (first_alias_spec df) as Hspec. rewrite Halt in Hspec.
  destruct Hspec as [_ Hin].
  assert (PK ∈ columns (rename alt PK df)) as Hpk'.
  { rewrite columns_rename. apply list_elem_of_fmap. exists alt.
    by rewrite bool_decide_eq_true_2. }
  unfold apply_cleaning. cbv zeta.
  rewrite (bool_decide_eq_false_2 _ Hpk), Halt.
  by repeat rewrite (bool_decide_eq_true_2 _ Hpk').
Qed.

(** X12.  The errors of the cleaning.  It raises [ValueError] exactly when
    the frame has no column named as the key or as one of its three
    aliases; the only other error is the [TypeError] of the imputation (a
    fractional median offered to a nullable integer column); and a frame
    that has the key under one of its names, no crash date and no nullable
    integer column is cleaned. *)
Theorem apply_cleaning_raises (df : DataFrame) :
  (forall e, apply_cleaning repr_number parse_number parse_datetime df = inl e ->
             e = ValueError \/ e = TypeError) /\
  (apply_cleaning repr_number parse_number parse_datetime df = inl ValueError
   <-> forall c, c ∈ key_names -> c ∉ columns df) /\
  ((exists c, c ∈ key_names /\ c ∈ columns df) -> DATE_COL ∉ columns df -> plain df ->
   exists out, apply_cleaning repr_number parse_number parse_datetime df = inr out).
Proof.
  assert (forall df0 : DataFrame, PK ∈ columns df0 ->
            forall e, apply_cleaning repr_number parse_number parse_datetime df0 = inl e ->
                      e = TypeError) as Hkeyed.
  { intros df0 Hpk e. unfold apply_cleaning.
    rewrite (bool_decide_eq_true_2 _ Hpk). rewrite (bool_decide_eq_true_2 _ Hpk). simpl.
    destruct (_convert_yes_no _ _) as [df1 bool_cols].
    destruct (_impute_missing _ bool_cols) as [e'|df2] eqn:Himp; simpl; [|done].
    intros [= <-]. by eapply impute_missing_raises. }
  pose proof (first_alias_spec df) as Halias.
  destruct (decide (PK ∈ columns df)) as [Hpk|Hpk].
  - split; [intros e He; right; by eapply Hkeyed|]. split.
    + split.
      * intros He. by apply Hkeyed in He.
      * intros H. exfalso. apply (H PK); [by left|done].
    + intros _. by apply apply_cleaning_returns.
  - destruct (first_alias df) as [alt|] eqn:Hfirst.
    + destruct Halias as [Halt Hin].
      rewrite (apply_cleaning_alias df alt Hpk Hfirst).
      assert (PK ∈ columns (rename alt PK df)) as Hpk'.
      { rewrite columns_rename. apply list_elem_of_fmap. exists alt.
        by rewrite bool_decide_eq_true_2. }
      split; [intros e He; right; by eapply Hkeyed|]. split.
      * split.
        -- intros He. by apply Hkeyed in He.
        -- intros H. exfalso. apply (H alt); [by right|done].
      * intros _ Hdate Hplain. apply apply_cleaning_returns; [done| |by apply plain_rename].
        rewrite columns_rename. intros (c & Hc & Hcin)%list_elem_of_fmap.
        case_bool_decide; [done|]. by subst c.
    + assert (apply_cleaning repr_number parse_number parse_datetime df = inl ValueError)
        as Hraise.
      { unfold apply_cleaning. cbv zeta.
        rewrite (bool_decide_eq_false_2 _ Hpk), Hfirst.
        by rewrite (bool_decide_eq_false_2 _ Hpk). }
      rewrite Hraise. split; [intros e [= <-]; by left|]. split.
      * split; [|done]. intros _ c Hc. apply elem_of_cons in Hc as [->|Hc]; [done|].
        by apply Halias.
      * intros (c & Hc & Hin). exfalso. apply elem_of_cons in Hc as [->|Hc]; [done|].
        by apply (Halias c).
Qed.

(** The columns the cleaning has to choose from: the key, the columns of
    the input and, when the input has the crash date, its four parts. *)
Definition offered (df : DataFrame) (c : string) : Prop :=
  c = PK \/ c ∈ columns df \/ (DATE_COL ∈ columns df /\ c ∈ DERIVED_DATE_COLS).

#[global] Instance offered_dec df c : Decision (offered df c).
Proof. unfold offered. apply _. Defined.

Lemma columns_cleaned (df0 : DataFrame) bool_cols mask s :
  let df1 := imputed
               (_split_crash_datetime parse_datetime
                  (_convert_yes_no repr_number
                     (_normalize_text repr_number
                        (_coerce_numeric parse_number (drop_duplicates_last PK df0)))).1)
               bool_cols in
  forall c, c ∈ columns (take_rows mask (setitem df1 PK s))
            <-> c = PK \/ c ∈ columns df0
                \/ (DATE_COL ∈ columns df0 /\ c ∈ DERIVED_DATE_COLS).
Proof.
  intros df1 c. rewrite columns_take_rows, elem_of_columns_setitem.
  unfold df1. rewrite columns_impute_missing, elem_of_columns_split.
  rewrite columns_convert_yes_no, columns_normalize_text, columns_coerce_numeric.
  unfold drop_duplicates_last. rewrite columns_take_rows. tauto.
Qed.

(** X13.  The columns of a cleaned batch are the columns of [KEEP_COLS], in
    that order, that the cleaning was offered: a column outside the list,
    [crash_date] itself included, never comes out. *)
Theorem apply_cleaning_columns (df out : DataFrame) :
  apply_cleaning repr_number parse_number parse_datetime df = inr out ->
  columns out = filter (offered df) KEEP_COLS /\
  columns out `sublist_of` KEEP_COLS /\
  DATE_COL ∉ columns out.
Proof.
  intros H.
  assert (columns out = filter (offered df) KEEP_COLS) as Hcols.
  { revert H. unfold apply_cleaning.
    pose proof (first_alias_spec df) as Halias.
    set (df0 := if bool_decide (PK ∈ columns df) then df
                else match first_alias df with
                     | Some alt => rename alt PK df
                     | None => df
                     end).
    case_bool_decide as Hpk0; simpl; [|done].
    assert (forall c, c ∈ KEEP_COLS ->
              (c = PK \/ c ∈ columns df0 \/ (DATE_COL ∈ columns df0 /\ c ∈ DERIVED_DATE_COLS))
              <-> offered df c) as Hsame.
    { unfold offered, df0. case_bool_decide as Hpk; [tauto|].
      destruct (first_alias df) as [alt|]; [|tauto].
      destruct Halias as [Halt Hin]. rewrite columns_rename.
      assert (alt ∉ DATE_COL :: KEEP_COLS) as Hout.
      { repeat (apply elem_of_cons in Halt as [->|Halt]);
          try (by apply elem_of_nil in Halt);
          apply (bool_decide_unpack _); vm_compute; exact I. }
      apply not_elem_of_cons in Hout as [Hd Hk].
      assert (forall c, c <> alt -> c <> PK ->
                c ∈ map (fun c0 : string => if bool_decide (c0 = alt) then PK else c0)
                        (columns df) <-> c ∈ columns df) as Hother.
      { intros c Hc1 Hc2. rewrite list_elem_of_fmap. split.
        - intros (c' & -> & Hc'). by case_bool_decide.
        - intros Hc. exists c. by rewrite bool_decide_eq_false_2. }
      intros c Hc. rewrite (Hother DATE_COL) by (done || by intros ->).
      destruct (decide (c = PK)) as [->|Hne]; [tauto|].
      rewrite Hother; [tauto| |done]. by intros ->. }
    destruct (_convert_yes_no _ _) as [df1 bool_cols] eqn:Hyn.
    destruct (_impute_missing _ bool_cols) as [e|df2] eqn:Himp; simpl; [done|].
    apply impute_missing_returns in Himp. subst df2.
    intros [= <-]. rewrite columns_project.
    apply filter_iff_in. intros c Hc. rewrite <- Hsame by done.
    replace df1 with (_convert_yes_no repr_number
                        (_normalize_text repr_number
                           (_coerce_numeric parse_number (drop_duplicates_last PK df0)))).1
      by (by rewrite Hyn).
    apply columns_cleaned. }
  split; [done|]. rewrite Hcols. split; [apply sublist_filter|].
  intros [_ Hin]%list_elem_of_filter. revert Hin.
  apply (bool_decide_unpack _). vm_compute. exact I.
Qed.

(** ** The key column through the stages *)

(** A raw key the cleaning leaves as it is: missing, or a text without
    surrounding blanks that is not a yes/no word. *)
Definition clean_key (v : value) : Prop :=
  v = VNull \/ exists t, v = VStr t /\ strip t = t /\ vocabulary (lower t) = None.

Lemma clean_key_normal (vs : list value) :
  Forall clean_key vs -> map (on_text strip) (map (to_str repr_number) vs) = vs.
Proof.
  intros H. rewrite map_map. rewrite <- (map_id vs) at 2. apply map_ext_in.
  intros v Hv%list_elem_of_In. rewrite Forall_forall in H.
  destruct (H v Hv) as [->|(t & -> & Ht & _)]; [done|]. simpl. by rewrite Ht.
Qed.

Lemma clean_key_not_in_vocabulary (vs : list value) :
  Forall clean_key vs -> ~ Exists (in_vocabulary repr_number) vs.
Proof.
  intros H Hex. apply Exists_exists in Hex as (v & Hv & Hin).
  rewrite Forall_forall in H. unfold in_vocabulary in Hin.
  destruct (H v Hv) as [->|(t & -> & Ht & Hvoc)]; [done|].
  simpl in Hin. rewrite Ht, Hvoc in Hin. done.
Qed.

(** The key column holds the values [vs], as texts. *)
Definition key_is (vs : list value) (df : DataFrame) : Prop :=
  s_values (getitem df PK) = vs.

Definition key_is_text (df : DataFrame) : Prop := s_dtype (getitem df PK) = DString.

Lemma key_coerce_numeric (df : DataFrame) :
  getitem (_coerce_numeric parse_number df) PK = getitem df PK.
Proof.
  unfold _coerce_numeric.
  apply (foldl_invariant _ (fun acc => getitem acc PK = getitem df PK)); [|done].
  intros acc c Hc Hacc. case_bool_decide; [|done].
  rewrite getitem_setitem_ne; [done|]. intros <-. revert Hc.
  apply (bool_decide_unpack _). vm_compute. exact I.
Qed.

Definition key_kept (vs : list value) (df : DataFrame) : Prop :=
  key_is vs df /\ key_is_text df.

Lemma key_normalize_text (vs : list value) (df : DataFrame) :
  PK ∈ columns df -> Forall clean_key vs -> key_is vs df ->
  key_kept vs (_normalize_text repr_number df).
Proof.
  intros Hpk Hvs Hdf. unfold _normalize_text, key_kept.
  apply (foldl_establish _ (key_is vs) key_is_text PK); [| | |done|done].
  - intros acc c _ Hacc. destruct (decide (c = PK)) as [->|Hne].
    + rewrite bool_decide_eq_true_2 by (by left). unfold key_is in *.
      rewrite getitem_setitem. simpl. rewrite Hacc. by apply clean_key_normal.
    + unfold key_is in *. case_bool_decide; [by rewrite getitem_setitem_ne|].
      destruct (_ || _); [by rewrite getitem_setitem_ne|done].
  - intros acc c _ _ Hacc. destruct (decide (c = PK)) as [->|Hne].
    + rewrite bool_decide_eq_true_2 by (by left). unfold key_is_text.
      by rewrite getitem_setitem.
    + unfold key_is_text in *. case_bool_decide; [by rewrite getitem_setitem_ne|].
      destruct (_ || _); [by rewrite getitem_setitem_ne|done].
  - intros acc _. rewrite bool_decide_eq_true_2 by (by left). unfold key_is_text.
    by rewrite getitem_setitem.
Qed.

Lemma key_convert_yes_no (vs : list value) (df : DataFrame) :
  Forall clean_key vs -> key_kept vs df ->
  key_kept vs (_convert_yes_no repr_number df).1.
Proof.
  intros Hvs Hdf. unfold _convert_yes_no.
  apply (foldl_invariant _ (fun st : DataFrame * list string => key_kept vs st.1)); [|done].
  intros [acc bs] c _ [Hv Ht]. simpl in *.
  destruct (decide (c = PK)) as [->|Hne].
  - assert (_map_yes_no_to_int repr_number (getitem acc PK) = getitem acc PK) as ->.
    { rewrite map_yes_no_to_int_some. unfold key_is in Hv. rewrite Hv.
      by rewrite (bool_decide_eq_false_2 _ (clean_key_not_in_vocabulary vs Hvs)). }
    unfold key_is_text in Ht. rewrite Ht. simpl.
    destruct (_ || _); by split.
  - destruct (_ || _); [|by split]. case_bool_decide; [|by split]. simpl.
    unfold key_kept, key_is, key_is_text in *. by rewrite !getitem_setitem_ne.
Qed.

Lemma key_split_crash_datetime (df : DataFrame) :
  getitem (_split_crash_datetime parse_datetime df) PK = getitem df PK.
Proof.
  unfold _split_crash_datetime. case_bool_decide; [|done].
  by rewrite !getitem_setitem_ne by done.
Qed.

Lemma key_impute_missing (vs : list value) (df : DataFrame) bool_cols :
  key_kept vs df -> key_kept vs (imputed df bool_cols).
Proof.
  intros Hdf. unfold imputed.
  apply (foldl_invariant _ (key_kept vs)).
  - intros acc c _ [Hv Ht]. unfold body, impute_text.
    destruct (decide (c = PK)) as [->|Hne].
    + rewrite (bool_decide_eq_true_2 (PK ∈ ID_COLS)) by (by left).
      by rewrite andb_false_r.
    + destruct (_ && _); [|done].
      unfold key_kept, key_is, key_is_text in *. by rewrite !getitem_setitem_ne.
  - apply (foldl_invariant _ (key_kept vs)); [|done].
    intros acc c _ [Hv Ht]. unfold body, impute_numeric.
    case_bool_decide; simpl; [done|].
    destruct (decide (c = PK)) as [->|Hne].
    + unfold key_is_text in Ht. unfold is_numeric_dtype. by rewrite Ht.
    + destruct (is_numeric_dtype _); [|done].
      unfold key_kept, key_is, key_is_text in *. by rewrite !getitem_setitem_ne.
Qed.

(** X14.  Clean raw keys give distinct keys.  When every raw key is missing
    or a text without surrounding blanks that is not a yes/no word, the
    keys of the cleaned batch are the raw keys that are neither missing
    nor empty, each once: for each key the last row that carries it. *)
Theorem apply_cleaning_unique_keys (df out : DataFrame) :
  PK ∈ columns df ->
  Forall clean_key (s_values (getitem df PK)) ->
  apply_cleaning repr_number parse_number parse_datetime df = inr out ->
  let raw := s_values (getitem df PK) in
  s_values (getitem out PK)
  = filter (fun v => pk_ok v = true) (select (keep_last raw) raw) /\
  NoDup (s_values (getitem out PK)).
Proof.
  intros Hpk Hclean H raw.
  set (vs := select (keep_last raw) raw).
  assert (Forall clean_key vs) as Hvs.
  { apply Forall_forall. intros v Hv%select_sublist.
    rewrite Forall_forall in Hclean. by apply Hclean. }
  assert (s_values (getitem out PK) = filter (fun v => pk_ok v = true) vs) as Hout.
  { revert H. unfold apply_cleaning. rewrite (bool_decide_eq_true_2 _ Hpk).
    rewrite (bool_decide_eq_true_2 _ Hpk). simpl.
    set (df1 := drop_duplicates_last PK df).
    assert (key_is vs df1) as H1.
    { unfold key_is, df1, drop_duplicates_last. by rewrite getitem_take_rows. }
    assert (PK ∈ columns df1) as Hpk1.
    { unfold df1, drop_duplicates_last. by rewrite columns_take_rows. }
    set (df2 := _coerce_numeric parse_number df1).
    assert (key_is vs df2) as H2 by (unfold key_is, df2; by rewrite key_coerce_numeric).
    assert (PK ∈ columns df2) as Hpk2 by (unfold df2; by rewrite columns_coerce_numeric).
    pose proof (key_normalize_text vs df2 Hpk2 Hvs H2) as H3.
    pose proof (key_convert_yes_no vs _ Hvs H3) as H4.
    destruct (_convert_yes_no _ _) as [df4 bool_cols]. simpl in H4.
    assert (key_kept vs (_split_crash_datetime parse_datetime df4)) as H5.
    { unfold key_kept, key_is, key_is_text. by rewrite key_split_crash_datetime. }
    pose proof (key_impute_missing vs _ bool_cols H5) as [H6 _].
    destruct (_impute_missing _ bool_cols) as [e|df6] eqn:Himp; simpl; [done|].
    apply impute_missing_returns in Himp. rewrite <- Himp in H6.
    set (df7 := setitem df6 PK _).
    assert (key_is vs df7) as H7.
    { unfold key_is, df7. rewrite getitem_setitem. simpl. unfold key_is in H6.
      rewrite H6. by apply clean_key_normal. }
    intros [= <-].
    rewrite getitem_project.
    2:{ apply list_elem_of_filter. split; [|by left].
        rewrite columns_take_rows. apply columns_setitem. }
    rewrite getitem_take_rows by apply columns_setitem. simpl.
    unfold key_is in H7. rewrite H7. apply select_filter. }
  split; [done|]. rewrite Hout. apply NoDup_filter. apply select_keep_last_NoDup.
Qed.

(** ** A numeric column through the stages *)

Definition is_number (v : value) : Prop := exists q, v = VNum q.

Definition number_or_null (v : value) : Prop := v = VNull \/ is_number v.

(** The column [c] is numeric: of a numeric dtype, holding numbers and
    nulls. *)
Definition numeric_at (c : string) (df : DataFrame) : Prop :=
  is_numeric_dtype (getitem df c) = true /\
  Forall number_or_null (s_values (getitem df c)).

Definition filled_at (c : string) (df : DataFrame) : Prop :=
  Forall is_number (s_values (getitem df c)).

Lemma numeric_not_text (s : Series) :
  is_numeric_dtype s = true -> (is_object_dtype s || is_string_dtype s) = false.
Proof. unfold is_numeric_dtype, is_object_dtype, is_string_dtype. by destruct (s_dtype s). Qed.

Lemma to_numeric_numeric (s : Series) :
  is_numeric_dtype (to_numeric parse_number s) = true /\
  Forall number_or_null (s_values (to_numeric parse_number s)).
Proof.
  unfold to_numeric. split.
  - unfold is_numeric_dtype. simpl. by destruct (forallb _ _).
  - simpl. apply Forall_forall. intros v (x & -> & _)%list_elem_of_fmap.
    destruct x as [|q|t|b]; simpl.
    + by left.
    + right. by eexists.
    + destruct (parse_number t); [right; by eexists|by left].
    + right. by eexists.
Qed.

Lemma numeric_names c :
  c ∈ NUMERIC_COLS ->
  (c ∉ ID_COLS) /\ (c ∉ DERIVED_DATE_COLS) /\ c <> PK /\ c ∈ KEEP_COLS.
Proof.
  intros Hc. repeat (apply elem_of_cons in Hc as [->|Hc]); try (by apply elem_of_nil in Hc);
    apply (bool_decide_unpack _); vm_compute; exact I.
Qed.

Lemma numeric_coerce_numeric c (df : DataFrame) :
  c ∈ NUMERIC_COLS -> c ∈ columns df -> numeric_at c (_coerce_numeric parse_number df).
Proof.
  intros Hc Hin. unfold _coerce_numeric.
  apply (foldl_establish _ (fun acc => c ∈ columns acc) (numeric_at c) c); [| | |done|done].
  - intros acc c' _ Hacc. case_bool_decide; [|done]. by rewrite columns_setitem_in.
  - intros acc c' _ _ Hacc. case_bool_decide; [|done].
    destruct (decide (c' = c)) as [->|Hne].
    + unfold numeric_at. rewrite getitem_setitem. apply to_numeric_numeric.
    + unfold numeric_at in *. by rewrite getitem_setitem_ne.
  - intros acc Hacc. rewrite bool_decide_eq_true_2 by done.
    unfold numeric_at. rewrite getitem_setitem. apply to_numeric_numeric.
Qed.

Lemma numeric_normalize_text c (df : DataFrame) :
  c ∈ NUMERIC_COLS -> numeric_at c df -> numeric_at c (_normalize_text repr_number df).
Proof.
  intros Hc Hdf. destruct (numeric_names c Hc) as (Hid & _).
  unfold _normalize_text. apply (foldl_invariant _ (numeric_at c)); [|done].
  intros acc c' _ Hacc. destruct (decide (c' = c)) as [->|Hne].
  - rewrite bool_decide_eq_false_2 by done.
    destruct Hacc as [Hn ?]. by rewrite (numeric_not_text _ Hn).
  - unfold numeric_at in *. case_bool_decide; [by rewrite getitem_setitem_ne|].
    destruct (_ || _); [by rewrite getitem_setitem_ne|done].
Qed.

Lemma numeric_convert_yes_no c (df : DataFrame) :
  numeric_at c df ->
  numeric_at c (_convert_yes_no repr_number df).1 /\
  c ∉ (_convert_yes_no repr_number df).2.
Proof.
  intros Hdf. unfold _convert_yes_no.
  apply (foldl_invariant _ (fun st : DataFrame * list string =>
                              numeric_at c st.1 /\ c ∉ st.2)).
  - intros [acc bs] c' _ [Hacc Hbs]. simpl in *.
    destruct (decide (c' = c)) as [->|Hne].
    + destruct Hacc as [Hn ?]. by rewrite (numeric_not_text _ Hn).
    + destruct (_ || _); [|done]. case_bool_decide; [|done]. simpl. split.
      * unfold numeric_at in *. by rewrite getitem_setitem_ne.
      * rewrite elem_of_app, list_elem_of_singleton. intros [?|?]; [done|congruence].
  - split; [done|apply not_elem_of_nil].
Qed.

Lemma numeric_split_crash_datetime c (df : DataFrame) :
  c ∉ DERIVED_DATE_COLS ->
  getitem (_split_crash_datetime parse_datetime df) c = getitem df c.
Proof.
  intros Hc. unfold _split_crash_datetime. case_bool_decide; [|done].
  rewrite !getitem_setitem_ne; [done|..]; intros ->; apply Hc; unfold DERIVED_DATE_COLS;
    rewrite !elem_of_cons; tauto.
Qed.

Lemma fillna_filled q (s : Series) :
  Forall number_or_null (s_values s) -> Forall is_number (s_values (filled (VNum q) s)).
Proof.
  intros H. simpl. apply Forall_forall. intros v (x & -> & Hx)%list_elem_of_fmap.
  rewrite Forall_forall in H. destruct (H x Hx) as [->|[q' ->]]; simpl; by eexists.
Qed.

Lemma filled_number_or_null (vs : list value) : Forall is_number vs -> Forall number_or_null vs.
Proof. intros H. eapply Forall_impl; [done|]. intros v ?. by right. Qed.

Lemma numeric_impute_missing c (df : DataFrame) bool_cols :
  c ∈ columns df -> c ∉ bool_cols -> numeric_at c df ->
  filled_at c (imputed df bool_cols).
Proof.
  intros Hin Hbs Hdf. unfold imputed.
  set (numeric_loop := foldl _ df (columns df)).
  assert (numeric_at c numeric_loop /\ filled_at c numeric_loop) as [Hn Hf].
  { apply (foldl_establish _ (numeric_at c) (filled_at c) c); [| | |done|done].
    - intros acc c' _ Hacc. unfold body, impute_numeric.
      case_bool_decide; simpl; [done|].
      destruct (decide (c' = c)) as [->|Hne].
      + destruct Hacc as [Hn Hv]. rewrite Hn. unfold numeric_at.
        rewrite getitem_setitem. split; [done|].
        by apply filled_number_or_null, fillna_filled.
      + destruct (is_numeric_dtype _); [|done].
        unfold numeric_at in *. by rewrite getitem_setitem_ne.
    - intros acc c' _ Hacc Hfill. unfold body, impute_numeric.
      case_bool_decide; simpl; [done|].
      destruct (decide (c' = c)) as [->|Hne].
      + destruct Hacc as [Hn Hv]. rewrite Hn. unfold filled_at.
        rewrite getitem_setitem. by apply fillna_filled.
      + destruct (is_numeric_dtype _); [|done].
        unfold filled_at in *. by rewrite getitem_setitem_ne.
    - intros acc [Hn Hv]. unfold body, impute_numeric.
      rewrite bool_decide_eq_false_2 by done. rewrite Hn. simpl.
      unfold filled_at. rewrite getitem_setitem. by apply fillna_filled. }
  apply (foldl_invariant _ (fun acc => numeric_at c acc /\ filled_at c acc)); [|done].
  intros acc c' _ [[Hn' Hv'] Hf']. unfold body, impute_text, is_text.
  destruct (decide (c' = c)) as [->|Hne].
  - by rewrite (numeric_not_text _ Hn').
  - destruct (_ && _); [|done].
    unfold numeric_at, filled_at in *. by rewrite !getitem_setitem_ne.
Qed.

(** X15.  No numeric column of a cleaned batch has a gap.  When the input
    has the key column, a column of [NUMERIC_COLS] that the input has comes
    out holding a number in every row: what does not read as a number was
    made null, and every null was filled. *)
Theorem apply_cleaning_numeric_filled (df out : DataFrame) (c : string) :
  PK ∈ columns df -> c ∈ NUMERIC_COLS -> c ∈ columns df ->
  apply_cleaning repr_number parse_number parse_datetime df = inr out ->
  c ∈ columns out /\ Forall is_number (s_values (getitem out c)).
Proof.
  intros Hpk Hc Hin. destruct (numeric_names c Hc) as (Hid & Hder & Hne & Hkeep).
  unfold apply_cleaning. rewrite (bool_decide_eq_true_2 _ Hpk).
  rewrite (bool_decide_eq_true_2 _ Hpk). simpl.
  set (df1 := drop_duplicates_last PK df).
  assert (c ∈ columns df1) as Hin1.
  { unfold df1, drop_duplicates_last. by rewrite columns_take_rows. }
  pose proof (numeric_coerce_numeric c df1 Hc Hin1) as H2.
  pose proof (numeric_normalize_text c _ Hc H2) as H3.
  pose proof (numeric_convert_yes_no c _ H3) as [H4 Hbs].
  pose proof (columns_convert_yes_no
                (_normalize_text repr_number (_coerce_numeric parse_number df1))) as Hc4.
  rewrite columns_normalize_text, columns_coerce_numeric in Hc4.
  destruct (_convert_yes_no _ _) as [df4 bool_cols]. cbn [fst snd] in H4, Hbs, Hc4.
  set (df5 := _split_crash_datetime parse_datetime df4) in *.
  assert (numeric_at c df5) as H5.
  { unfold numeric_at, df5. by rewrite numeric_split_crash_datetime. }
  assert (c ∈ columns df5) as Hin5.
  { unfold df5. apply elem_of_columns_split. left. by rewrite Hc4. }
  pose proof (numeric_impute_missing c df5 bool_cols Hin5 Hbs H5) as H6.
  destruct (_impute_missing df5 bool_cols) as [e|df6] eqn:Himp; simpl; [done|].
  apply impute_missing_returns in Himp. subst df6.
  intros [= <-].
  match goal with
  | |- context [project (filter ?P KEEP_COLS) ?d] =>
    assert (c ∈ filter P KEEP_COLS) as Hk
  end.
  { apply list_elem_of_filter. split; [|done].
    rewrite columns_take_rows, elem_of_columns_setitem, columns_impute_missing. by left. }
  split; [by rewrite columns_project|].
  rewrite getitem_project by done.
  rewrite getitem_take_rows by (rewrite elem_of_columns_setitem; left;
                                by rewrite columns_impute_missing).
  cbn [s_values]. rewrite (getitem_setitem_ne _ PK _ c) by exact Hne.
  apply Forall_forall. intros v Hv%select_sublist.
  unfold filled_at in H6. rewrite Forall_forall in H6. by apply H6.
Qed.

End Stages.

(** ** A concrete batch *)

(** Stand-ins for the conversions of pandas, enough for the batch below. *)
Definition repr0 (q : Q) : string := "0".

Definition parse0 (s : string) : option Q :=
  if bool_decide (s = "30") then Some (30#1) else None.

Definition datetime0 (v : value) : option (Z * Z * Z * Z) :=
  match v with
  | VStr "2024-03-05 17:45" => Some (2024, 3, 5, 17)%Z
  | _ => None
  end.

Definition raw0 : DataFrame :=
  [("crash_record_id", mkSeries DObject [VStr "X1"; VStr "X2"; VStr "X1"; VNull]);
   ("posted_speed_limit", mkSeries DObject [VStr "30"; VStr "fast"; VNull; VStr "30"]);
   ("crash_date", mkSeries DObject [VStr "2024-03-05 17:45"; VNull; VNull; VNull]);
   ("notes", mkSeries DObject [VStr "a"; VStr "b"; VStr "c"; VStr "d"])].

Definition cleaned0 : DataFrame :=
  match apply_cleaning repr0 parse0 datetime0 raw0 with
  | inr out => out
  | inl _ => []
  end.

Lemma cleaned0_spec : apply_cleaning repr0 parse0 datetime0 raw0 = inr cleaned0.
Proof. vm_compute. reflexivity. Qed.

Lemma apply_cleaning_columns_witness :
  columns cleaned0 = filter (offered raw0) KEEP_COLS /\
  columns cleaned0 `sublist_of` KEEP_COLS /\
  DATE_COL ∉ columns cleaned0.
Proof.
  apply (apply_cleaning_columns repr0 parse0 datetime0 raw0 cleaned0).
  vm_compute. reflexivity.
Defined.

Lemma apply_cleaning_unique_keys_witness :
  let raw := s_values (getitem raw0 PK) in
  s_values (getitem cleaned0 PK)
  = filter (fun v => pk_ok v = true) (select (keep_last raw) raw) /\
  NoDup (s_values (getitem cleaned0 PK)).
Proof.
  apply (apply_cleaning_unique_keys repr0 parse0 datetime0 raw0 cleaned0).
  - apply (bool_decide_unpack _). vm_compute. exact I.
  - change (Forall clean_key [VStr "X1"; VStr "X2"; VStr "X1"; VNull]).
    repeat (apply Forall_cons; split;
            [first [by left | right; eexists; split; [reflexivity|]; split; reflexivity]|]).
    constructor.
  - vm_compute. reflexivity.
Defined.

Lemma apply_cleaning_numeric_filled_witness :
  "posted_speed_limit" ∈ columns cleaned0 /\
  Forall is_number (s_values (getitem cleaned0 "posted_speed_limit")).
Proof.
  apply (apply_cleaning_numeric_filled repr0 parse0 datetime0 raw0 cleaned0
           "posted_speed_limit").
  - apply (bool_decide_unpack _). vm_compute. exact I.
  - apply (bool_decide_unpack _). vm_compute. exact I.
  - apply (bool_decide_unpack _). vm_compute. exact I.
  - vm_compute. reflexivity.
Defined.

End cleaning_spec.

(* ===================================================================== *)
(** * Properties of the merged table                                      *)
(* ===================================================================== *)

Module merge_spec.

Import Facts Polars transformer transformer_spec.

(** ** Groups as a partition *)

Lemma sum_indicator (k : pval) (ks : list pval) :
  NoDup ks -> k ∈ ks ->
  sum_list_with (fun k' => if bool_decide (k = k') then 1 else 0) ks = 1.
Proof.
  induction ks as [|k0 ks IH]; intros Hnd Hin; [by apply elem_of_nil in Hin|].
  apply NoDup_cons in Hnd as [Hnin Hnd]. simpl.
  case_bool_decide as Hk.
  - subst k0. f_equal. clear IH Hin Hnd.
    induction ks as [|k1 ks IH]; [done|]. apply not_elem_of_cons in Hnin as [Hne Hnin].
    simpl. rewrite bool_decide_eq_false_2 by done. by apply IH.
  - apply elem_of_cons in Hin as [?|Hin]; [done|]. by rewrite IH.
Qed.

Lemma sum_list_with_add {A} (f g : A -> nat) (l : list A) :
  sum_list_with (fun a => f a + g a) l = sum_list_with f l + sum_list_with g l.
Proof. induction l as [|a l IH]; simpl; [done|]. rewrite IH. lia. Qed.

Lemma sum_list_with_ext_in {A} (f g : A -> nat) (l : list A) :
  (forall a, a ∈ l -> f a = g a) -> sum_list_with f l = sum_list_with g l.
Proof.
  induction l as [|a l IH]; intros H; simpl; [done|].
  rewrite H by (by left). rewrite IH; [done|]. intros b Hb. apply H. by right.
Qed.

(** The groups of the keys [ks] take every row once. *)
Lemma groups_partition (c : string) (ks : list pval) (rs : list prow) :
  NoDup ks -> (forall r, r ∈ rs -> pcell r c ∈ ks) ->
  sum_list_with (fun k => length (group_of c k rs)) ks = length rs.
Proof.
  intros Hnd. induction rs as [|r rs IH]; intros Hks; simpl.
  - clear Hnd Hks. induction ks as [|k ks IHk]; [done|]. simpl. by rewrite IHk.
  - transitivity (sum_list_with (fun k => (if bool_decide (pcell r c = k) then 1 else 0)
                                         + length (group_of c k rs)) ks).
    + apply sum_list_with_ext_in. intros k _. unfold group_of. rewrite filter_cons.
      destruct (decide (pcell r c = k)) as [Hk|Hk].
      * by rewrite bool_decide_eq_true_2.
      * by rewrite bool_decide_eq_false_2.
    + rewrite sum_list_with_add, sum_indicator by (done || apply Hks; by left).
      rewrite IH; [done|]. intros r' Hr'. apply Hks. by right.
Qed.

(** The number a count cell holds. *)
Definition count_of (v : pval) : nat :=
  match v with
  | PNum q => Z.to_nat (Qnum q)
  | _ => 0
  end.

Lemma count_of_value n : count_of (count_value n) = n.
Proof. unfold count_of, count_value. simpl. apply Nat2Z.id. Qed.

(** X16.  One aggregated row per id, and every related row counted once.
    The aggregate of a dataset with rows has one row for each distinct id,
    in order of first appearance; its counts add up to the number of rows
    of the dataset; besides the id and the count it has at most five list
    columns. *)
Theorem aggregate_partitions (df agg : DataFrame) (id_col prefix : string) :
  is_empty df = false ->
  aggregate_many_to_one df id_col prefix = inr agg ->
  map (fun r => pcell r id_col) (rows agg) = group_keys id_col (rows df) /\
  NoDup (map (fun r => pcell r id_col) (rows agg)) /\
  sum_list_with (fun r => count_of (pcell r (prefix +:+ "_count"))) (rows agg)
  = length (rows df) /\
  length (columns agg) <= 7.
Proof.
  intros He. unfold aggregate_many_to_one. rewrite He. intros Hagg.
  apply group_by_agg_inv in Hagg as (Hc & Hnd & Hcols & Hrows).
  destruct (group_keys_spec id_col (rows df)) as [Hknd Hk].
  assert (map (fun r => pcell r id_col) (rows agg) = group_keys id_col (rows df)) as Hkeys.
  { rewrite Hrows, map_map. rewrite <- (map_id (group_keys _ _)) at 2.
    apply map_ext. intros k. by apply agg_row_lookup. }
  split; [done|]. split; [by rewrite Hkeys|]. split.
  - rewrite Hrows. rewrite <- (groups_partition id_col (group_keys id_col (rows df)));
      [|done|intros r Hr; apply Hk; by exists r].
    assert (forall ks : list pval,
              sum_list_with (fun r => count_of (pcell r (prefix +:+ "_count")))
                (map (agg_row id_col (prefix +:+ "_count")
                        (map (fun c => (prefix +:+ "_" +:+ c +:+ "_list", c))
                             (text_columns df id_col)) (rows df)) ks)
              = sum_list_with (fun k => length (group_of id_col k (rows df))) ks) as Hsum;
      [|apply Hsum].
    induction ks as [|k ks IH]; [done|]. simpl. rewrite IH. f_equal.
    destruct (agg_row_lookup id_col (prefix +:+ "_count") _ (rows df) k Hnd)
      as (_ & -> & _).
    apply count_of_value.
  - rewrite Hcols. simpl. rewrite length_fmap, length_map.
    unfold text_columns. rewrite length_take. lia.
Qed.

(** ** One merged row per crash *)

Lemma first_by_same_keys {K} `{EqDecision K} (key key' : prow -> K) seen rs rs' :
  map key rs = map key' rs' ->
  map key (first_by key seen rs) = map key' (first_by key' seen rs').
Proof.
  revert seen rs'. induction rs as [|r rs IH]; intros seen [|r' rs'] Hk; try done.
  simpl in Hk. injection Hk as Hr Hk. simpl. rewrite <- Hr.
  case_bool_decide; [by apply IH|]. simpl. rewrite Hr at 1. f_equal.
  rewrite Hr. apply IH. done.
Qed.

(** X17.  One merged row per crash.  When the primary dataset has the id
    column and no aggregate name clashes with one of its columns, the
    merged frame has one row for each distinct id of the primary dataset,
    in order of first appearance, and this row shows, in every column of
    the primary dataset, what the first primary row of that id shows. *)
Theorem merge_one_row_per_crash crashes vehicles people id_col out c' v' p' :
  prepared id_col crashes = inr c' ->
  prepared id_col vehicles = inr v' ->
  prepared id_col people = inr p' ->
  merge_crash_vehicles_people crashes vehicles people id_col = inr out ->
  Pandas.lower id_col ∈ columns c' ->
  (forall n, n ∈ agg_names "veh" v' (Pandas.lower id_col)
                 ++ agg_names "ppl" p' (Pandas.lower id_col) ->
             n ∉ columns c') ->
  let id := Pandas.lower id_col in
  Forall2 (same_on (columns c')) (first_by (fun r => pcell r id) [] (rows c')) (rows out) /\
  map (fun r => pcell r id) (rows out) = group_keys id (rows c') /\
  NoDup (map (fun r => pcell r id) (rows out)).
Proof.
  intros Hc Hv Hp Hm Hid Hfree id. fold id in Hid, Hfree.
  destruct (merge_rows crashes vehicles people id_col out c' v' p' Hc Hv Hp Hm Hid)
    as (Hrows & _ & _).
  { intros _ n Hn. apply Hfree, elem_of_app. by left. }
  { intros _ n Hn. apply Hfree, elem_of_app. by right. }
  fold id in Hrows.
  split; [done|].
  assert (map (fun r => pcell r id) (rows out) = group_keys id (rows c')) as Hkeys.
  { unfold group_keys.
    induction Hrows as [|l o ls os Hlo _ IH]; [done|].
    simpl. rewrite IH. f_equal. unfold pcell. by rewrite (Hlo id Hid). }
  split; [done|]. rewrite Hkeys. apply group_keys_spec.
Qed.

(** ** Standardizing twice *)

Lemma is_space_lower a : Pandas.is_space (Pandas.lower_ascii a) = Pandas.is_space a.
Proof. by destruct a as [[] [] [] [] [] [] [] []]. Qed.

Lemma lower_ascii_idempotent a :
  Pandas.lower_ascii (Pandas.lower_ascii a) = Pandas.lower_ascii a.
Proof. by destruct a as [[] [] [] [] [] [] [] []]. Qed.

Lemma lower_idempotent s : Pandas.lower (Pandas.lower s) = Pandas.lower s.
Proof.
  induction s as [|a s IH]; [done|]. cbn [Pandas.lower].
  by rewrite lower_ascii_idempotent, IH.
Qed.

Lemma lstrip_lower s : Pandas.lstrip (Pandas.lower s) = Pandas.lower (Pandas.lstrip s).
Proof.
  induction s as [|a s IH]; [done|]. cbn [Pandas.lower Pandas.lstrip].
  rewrite is_space_lower. by destruct (Pandas.is_space a).
Qed.

Lemma rstrip_lower s : Pandas.rstrip (Pandas.lower s) = Pandas.lower (Pandas.rstrip s).
Proof.
  induction s as [|a s IH]; [done|]. cbn [Pandas.lower Pandas.rstrip].
  rewrite IH, is_space_lower.
  destruct (Pandas.rstrip s); cbn [Pandas.lower]; [|done].
  by destruct (Pandas.is_space a).
Qed.

(** The name a column takes: trimmed, in lower case. *)
Definition norm (c : string) : string := Pandas.lower (Pandas.strip c).

Lemma norm_idempotent c : norm (norm c) = norm c.
Proof.
  unfold norm, Pandas.strip.
  rewrite lstrip_lower, rstrip_lower. fold (Pandas.strip (Pandas.rstrip (Pandas.lstrip c))).
  fold (Pandas.strip c). by rewrite cleaning_rules_spec.strip_idempotent, lower_idempotent.
Qed.

Lemma first_by_fixed {K} `{EqDecision K} (key : prow -> K) seen rs :
  NoDup (map key rs) -> (forall r, r ∈ rs -> key r ∉ seen) -> first_by key seen rs = rs.
Proof.
  revert seen. induction rs as [|r rs IH]; intros seen Hnd Hseen; [done|].
  cbn [first_by map] in *. apply NoDup_cons in Hnd as [Hnin Hnd].
  rewrite bool_decide_eq_false_2 by (apply Hseen; by left).
  f_equal. apply IH; [done|]. intros r' Hr' [Heq|Hin]%elem_of_cons.
  - apply Hnin. rewrite <- Heq. apply list_elem_of_fmap. by exists r'.
  - apply (Hseen r'); [by right|done].
Qed.

Lemma unique_idempotent df : unique (unique df) = unique df.
Proof.
  unfold unique. simpl. f_equal.
  destruct (first_by_keys (fun r : prow => r) [] (rows df)) as [Hnd _].
  apply first_by_fixed; [done|]. intros r _. apply not_elem_of_nil.
Qed.

Lemma first_by_nonempty {K} `{EqDecision K} (key : prow -> K) rs :
  rs <> [] -> first_by key [] rs <> [].
Proof.
  destruct rs as [|r rs]; [done|]. intros _. cbn [first_by].
  by rewrite bool_decide_eq_false_2 by apply not_elem_of_nil.
Qed.

Lemma rename_all_rows f df df' :
  rename_all f df = inr df' ->
  NoDup (map f (columns df)) /\
  columns df' = map f (columns df) /\
  schema df' = map (fun cd => (f cd.1, cd.2)) (schema df) /\
  rows df' = map (fun r : prow => list_to_map (map (fun c => (f c, pcell r c)) (columns df)))
                 (rows df).
Proof.
  unfold rename_all. case_bool_decide as Hnd; [|done]. intros [= <-].
  split; [done|]. split; [|done]. unfold columns. simpl.
  rewrite <- !list_fmap_compose. done.
Qed.

Lemma rename_all_again f df df' :
  (forall c, c ∈ columns df -> f (f c) = f c) ->
  rename_all f df = inr df' -> rename_all f (unique df') = inr (unique df').
Proof.
  intros Hf H. apply rename_all_rows in H as (Hnd & Hcols & Hsch & Hrows).
  assert (map f (columns df') = columns df') as Hfix.
  { rewrite Hcols, map_map. apply map_ext_in. intros c Hc%list_elem_of_In. by apply Hf. }
  unfold rename_all. change (columns (unique df')) with (columns df').
  rewrite Hfix, Hcols, (bool_decide_eq_true_2 _ Hnd). f_equal.
  unfold unique. simpl. f_equal.
  - rewrite <- (map_id (schema df')) at 2. apply map_ext_in. intros [c d] Hcd%list_elem_of_In.
    simpl. f_equal. rewrite Hsch in Hcd.
    apply list_elem_of_fmap in Hcd as ([c0 d0] & [= -> ->] & Hin).
    simpl. apply Hf. apply list_elem_of_fmap. by exists (c0, d0).
  - rewrite <- (map_id (first_by _ _ _)) at 2. apply map_ext_in.
    intros r1 Hr1%list_elem_of_In. apply first_by_sublist in Hr1.
    rewrite Hrows in Hr1. apply list_elem_of_fmap in Hr1 as (r & -> & _).
    f_equal. rewrite map_map. apply map_ext_in. intros c Hc%list_elem_of_In.
    rewrite Hf by done. f_equal. unfold pcell at 1.
    erewrite elem_of_list_to_map_1; [done| |].
    + by rewrite <- list_fmap_compose.
    + apply list_elem_of_fmap. by exists c.
Qed.

(** The names [basic_standardize] gives the columns of a frame with rows. *)
Lemma basic_standardize_columns (df df' : DataFrame) :
  is_empty df = false ->
  basic_standardize df = inr df' ->
  columns df' = map norm (columns df).
Proof.
  unfold basic_standardize. intros ->.
  destruct (rename_all _ df) as [e|df1] eqn:Hren; [done|]. intros [= <-].
  fold norm in Hren. change (columns (unique df1)) with (columns df1).
  by apply rename_all_rows in Hren as (_ & -> & _).
Qed.

(** X18.  Standardizing is idempotent.  A frame that [basic_standardize]
    returned is returned unchanged by a second call; when it has rows its
    column names are the trimmed lower-case forms of the original ones. *)
Theorem basic_standardize_idempotent (df df' : DataFrame) :
  basic_standardize df = inr df' ->
  basic_standardize df' = inr df' /\
  (is_empty df = false -> columns df' = map norm (columns df)).
Proof.
  unfold basic_standardize. destruct (is_empty df) eqn:He.
  - intros [= <-]. by rewrite He.
  - destruct (rename_all _ df) as [e|df1] eqn:Hren; [done|]. intros [= <-].
    fold norm in Hren.
    assert (is_empty (unique df1) = false) as He1.
    { pose proof (rename_all_rows _ _ _ Hren) as (_ & _ & _ & Hrows).
      unfold is_empty, unique in *. simpl.
      assert (rows df1 <> []) as Hne1.
      { rewrite Hrows. by destruct (rows df). }
      pose proof (first_by_nonempty (fun r : prow => r) (rows df1) Hne1) as Hne.
      by destruct (first_by _ _ _). }
    rewrite He1. split.
    + fold norm. rewrite (rename_all_again norm df df1); [|intros; apply norm_idempotent|done].
      by rewrite unique_idempotent.
    + intros _. change (columns (unique df1)) with (columns df1).
      by apply rename_all_rows in Hren as (_ & -> & _).
Qed.

(** X19.  The fallback that looks for the id column under another case never
    fires in the merger: on a frame [basic_standardize] returned, whose
    names are already in lower case, [_ensure_id] changes nothing. *)
Theorem ensure_id_after_standardize (df df' : DataFrame) (id_col : string) :
  basic_standardize df = inr df' ->
  _ensure_id (Pandas.lower id_col) df' = inr df'.
Proof.
  intros Hstd. unfold _ensure_id.
  destruct (is_empty df') eqn:He'; simpl; [done|].
  case_bool_decide as Hid; simpl; [done|].
  assert (is_empty df = false) as He.
  { destruct (is_empty df) eqn:He; [|done].
    unfold basic_standardize in Hstd. rewrite He in Hstd. injection Hstd as <-. congruence. }
  pose proof (basic_standardize_columns df df' He Hstd) as Hcols.
  rewrite filter_none; [done|]. intros c Hc Hlow. apply Hid.
  rewrite Hcols in Hc. apply list_elem_of_fmap in Hc as (c0 & -> & Hc0).
  rewrite <- Hlow. unfold norm. rewrite lower_idempotent.
  rewrite Hcols. apply list_elem_of_fmap. by exists c0.
Qed.

(** ** Concrete datasets *)

Definition veh_agg0 : DataFrame :=
  match aggregate_many_to_one vehicles0 "crash_record_id" "veh" with
  | inr agg => agg
  | inl _ => no_frame
  end.

Lemma aggregate_partitions_witness :
  map (fun r => pcell r "crash_record_id") (rows veh_agg0)
  = group_keys "crash_record_id" (rows vehicles0) /\
  NoDup (map (fun r => pcell r "crash_record_id") (rows veh_agg0)) /\
  sum_list_with (fun r => count_of (pcell r ("veh" +:+ "_count"))) (rows veh_agg0)
  = length (rows vehicles0) /\
  length (columns veh_agg0) <= 7.
Proof.
  apply (aggregate_partitions vehicles0 veh_agg0 "crash_record_id" "veh").
  - reflexivity.
  - vm_compute. reflexivity.
Defined.

Definition merged0 : DataFrame :=
  match merge_crash_vehicles_people crashes0 vehicles0 people0 "crash_record_id" with
  | inr out => out
  | inl _ => no_frame
  end.

Lemma merge_one_row_per_crash_witness :
  let id := Pandas.lower "crash_record_id" in
  Forall2 (same_on (columns crashes0)) (first_by (fun r => pcell r id) [] (rows crashes0))
          (rows merged0) /\
  map (fun r => pcell r id) (rows merged0) = group_keys id (rows crashes0) /\
  NoDup (map (fun r => pcell r id) (rows merged0)).
Proof.
  apply (merge_one_row_per_crash crashes0 vehicles0 people0 "crash_record_id" merged0
           crashes0 vehicles0 people0).
  - vm_compute. reflexivity.
  - vm_compute. reflexivity.
  - vm_compute. reflexivity.
  - vm_compute. reflexivity.
  - apply (bool_decide_unpack _). vm_compute. exact I.
  - apply Forall_forall. apply (bool_decide_unpack _). vm_compute. exact I.
Defined.

Definition shouting : DataFrame :=
  mkFrame [(" Crash_Record_ID", Utf8); ("MAKE ", Utf8)]
    [ prow_of [(" Crash_Record_ID", PStr "C1"); ("MAKE ", PStr "ford")];
      prow_of [(" Crash_Record_ID", PStr "C1"); ("MAKE ", PStr "ford")] ].

Definition standard0 : DataFrame :=
  match basic_standardize shouting with
  | inr df => df
  | inl _ => no_frame
  end.

Lemma basic_standardize_idempotent_witness :
  basic_standardize standard0 = inr standard0 /\
  (is_empty shouting = false -> columns standard0 = map norm (columns shouting)).
Proof.
  apply (basic_standardize_idempotent shouting standard0). vm_compute. reflexivity.
Defined.

Lemma ensure_id_after_standardize_witness :
  _ensure_id (Pandas.lower "CRASH_RECORD_ID") standard0 = inr standard0.
Proof.
  apply (ensure_id_after_standardize shouting standard0 "CRASH_RECORD_ID").
  vm_compute. reflexivity.
Defined.

End merge_spec.

(* ===================================================================== *)
(** * Properties of the CSV hand-over                                     *)
(* ===================================================================== *)

Module csv_spec.

Import Facts Text_facts Polars Json_text Queue transformer.

(** The nested columns of a frame, and the names their JSON texts take. *)
Definition nested (df : DataFrame) : list string :=
  (filter (fun nd : string * dtype => is_nested nd.2 = true) (schema df)).*1.

Definition json_name (n : string) : string := n +:+ "_json".

#[global] Instance json_name_inj : Inj (=) (=) json_name.
Proof. intros a b. apply append_inv_tail. Qed.

Lemma nested_spec (df : DataFrame) c d :
  (c, d) ∈ schema df -> is_nested d = true -> c ∈ nested df.
Proof.
  intros Hin Hd. unfold nested. apply list_elem_of_fmap. exists (c, d).
  split; [done|]. by apply list_elem_of_filter.
Qed.

Lemma nested_columns (df : DataFrame) n : n ∈ nested df -> n ∈ columns df.
Proof.
  unfold nested, columns. intros ([c d] & -> & Hin)%list_elem_of_fmap.
  apply list_elem_of_filter in Hin as [_ Hin]. apply list_elem_of_fmap. by exists (c, d).
Qed.

Lemma nested_NoDup (df : DataFrame) : NoDup (columns df) -> NoDup (nested df).
Proof.
  unfold nested, columns. intros Hnd.
  assert ((filter (fun nd : string * dtype => is_nested nd.2 = true) (schema df)).*1
          `sublist_of` (schema df).*1) as Hsub by apply fmap_sublist, sublist_filter.
  by eapply sublist_NoDup.
Qed.

Lemma lookup_drop (names : list string) (r : prow) c :
  foldl (fun acc n => delete n acc) r names !! c
  = if bool_decide (c ∈ names) then None else r !! c.
Proof.
  revert r. induction names as [|n names IH]; intros r; [done|]. simpl. rewrite IH.
  destruct (decide (c = n)) as [->|Hne].
  - rewrite lookup_delete_eq. rewrite (bool_decide_eq_true_2 (n ∈ n :: names)) by (by left).
    by case_bool_decide.
  - rewrite lookup_delete_ne by done. apply if_ext_bool. rewrite elem_of_cons. tauto.
Qed.

Section CsvSafe.

Variable dumps_scalar : pval -> string.

(** What [make_csv_safe] makes of a row: the nested columns are gone, the
    JSON text of each stands under its new name (unless that name is
    itself one of the nested columns), every other cell is as it was. *)
Definition safe_row (df : DataFrame) (r o : prow) : Prop :=
  (forall n, n ∈ nested df -> o !! n = None) /\
  (forall n, n ∈ nested df -> json_name n ∉ nested df ->
     pcell o (json_name n) = map_elements (dumps dumps_scalar) n r) /\
  (forall c, c ∉ nested df -> c ∉ map json_name (nested df) -> o !! c = r !! c).

(** X20.  A frame with rows and distinct column names is made flat:
    [make_csv_safe] returns, no column of the result is nested, and the
    rows are the rows of the input, in order, each with its nested cells
    replaced by their JSON texts under [<name>_json] (see [safe_row]). *)
Theorem make_csv_safe_flat (df : DataFrame) :
  is_empty df = false -> NoDup (columns df) ->
  exists out,
    make_csv_safe dumps_scalar df = inr out /\
    (forall c d, (c, d) ∈ schema out -> is_nested d = false) /\
    Forall2 (safe_row df) (rows df) (rows out).
Proof.
  intros He Hnd. unfold make_csv_safe. rewrite He. fold (nested df).
  destruct (nested df) as [|n0 ns] eqn:Hn.
  - simpl. exists df. split; [done|]. split.
    + intros c d Hin. destruct (is_nested d) eqn:Hd; [|done].
      pose proof (nested_spec df c d Hin Hd) as H. rewrite Hn in H. by apply elem_of_nil in H.
    + apply Forall_Forall2_diag, Forall_forall. intros r _. unfold safe_row. rewrite Hn.
      split; [by intros n ?%elem_of_nil|]. split; [by intros n ?%elem_of_nil|done].
  - rewrite <- Hn.
    rewrite bool_decide_eq_false_2 by (by rewrite Hn).
    rewrite (bool_decide_eq_false_2 (nested df = [])) by (by rewrite Hn).
    set (fixes := map (fun name => (name +:+ "_json", map_elements (dumps dumps_scalar) name))
                      (nested df)).
    assert (fixes.*1 = map json_name (nested df)) as Hfix.
    { unfold fixes. by rewrite <- list_fmap_compose. }
    assert (NoDup fixes.*1) as Hndf.
    { rewrite Hfix. apply (NoDup_fmap_2 json_name).
      by apply nested_NoDup. }
    unfold with_columns. rewrite (bool_decide_eq_true_2 _ Hndf). simpl.
    unfold drop.
    match goal with
    | |- context [forallb ?P (nested df)] =>
      assert (forallb P (nested df) = true) as ->
    end.
    { apply forallb_forall. intros n Hin%list_elem_of_In. apply bool_decide_eq_true.
      unfold columns. simpl. rewrite fmap_app. apply elem_of_app. left.
      apply nested_columns in Hin. unfold columns in Hin.
      apply list_elem_of_fmap in Hin as ([c d] & -> & Hcd).
      apply list_elem_of_fmap. eexists. split; [|apply list_elem_of_fmap; by exists (c, d)].
      simpl. by case_bool_decide. }
    simpl. eexists. split; [reflexivity|]. simpl. split.
    + intros c d Hin. apply list_elem_of_filter in Hin as [Hc Hin]. simpl in Hc.
      apply elem_of_app in Hin as [Hin|Hin].
      * apply list_elem_of_fmap in Hin as ([c' d'] & Heq & Hcd). simpl in Heq.
        case_bool_decide; injection Heq as -> ->; [done|].
        destruct (is_nested d') eqn:Hd; [|done]. exfalso. by eapply Hc, nested_spec.
      * by apply list_elem_of_fmap in Hin as (e & [= _ ->] & _).
    + apply Forall2_fmap_r, Forall2_fmap_r, Forall_Forall2_diag, Forall_forall.
      intros r _. split; [|split].
      * intros n Hin. rewrite lookup_drop. by rewrite bool_decide_eq_true_2.
      * intros n Hin Hout. unfold pcell. rewrite lookup_drop.
        rewrite bool_decide_eq_false_2 by done.
        erewrite lookup_union_Some_l; [done|].
        apply elem_of_list_to_map_1.
        -- by rewrite <- list_fmap_compose.
        -- apply list_elem_of_fmap. eexists. split; [|apply list_elem_of_fmap; by exists n].
           done.
      * intros c Hc Hj. rewrite lookup_drop. rewrite bool_decide_eq_false_2 by done.
        apply lookup_union_r. apply not_elem_of_list_to_map_1.
        intros Hin. apply Hj. rewrite <- Hfix.
        apply list_elem_of_fmap in Hin as (e' & -> & Hin').
        apply list_elem_of_fmap in Hin' as (e & -> & Hin).
        apply list_elem_of_fmap. by exists e.
Qed.

End CsvSafe.

Import transformer_spec merge_spec.

Definition no_scalar (v : pval) : string := "null".

Lemma make_csv_safe_flat_witness :
  exists out,
    make_csv_safe no_scalar merged0 = inr out /\
    (forall c d, (c, d) ∈ schema out -> is_nested d = false) /\
    Forall2 (safe_row no_scalar merged0) (rows merged0) (rows out).
Proof.
  apply (make_csv_safe_flat no_scalar merged0).
  - reflexivity.
  - apply (bool_decide_unpack _). vm_compute. exact I.
Defined.

End csv_spec.

Module json_spec.

Import Text Text_facts Json_text.

(** ** Reading back the JSON text of a list *)

Definition hex_value (a : ascii) : option nat :=
  let n := nat_of_ascii a in
  if (48 <=? n)%nat && (n <=? 57)%nat then Some (n - 48)
  else if (97 <=? n)%nat && (n <=? 102)%nat then Some (n - 87)
  else if (65 <=? n)%nat && (n <=? 70)%nat then Some (n - 55)
  else None.

(** The character a one-letter escape stands for. *)
Definition unescape (b : ascii) : option ascii :=
  if bool_decide (b = dquote) then Some dquote
  else if bool_decide (b = backslash) then Some backslash
  else if bool_decide (b = "/"%char) then Some "/"%char
  else if bool_decide (b = "n"%char) then Some "010"%char
  else if bool_decide (b = "r"%char) then Some "013"%char
  else if bool_decide (b = "t"%char) then Some "009"%char
  else if bool_decide (b = "b"%char) then Some "008"%char
  else if bool_decide (b = "f"%char) then Some "012"%char
  else None.

Definition push (a : ascii) (r : option (string * string)) : option (string * string) :=
  match r with Some (t, rest) => Some (String a t, rest) | None => None end.

(** A JSON string, read from just after its opening quote: the text and
    what follows the closing quote.  Escapes of characters beyond one
    byte are not read. *)
Fixpoint read_text (s : string) : option (string * string) :=
  match s with
  | EmptyString => None
  | String a s' =>
    if bool_decide (a = dquote) then Some (EmptyString, s')
    else if bool_decide (a = backslash) then
      match s' with
      | String b s'' =>
        if bool_decide (b = "u"%char) then
          match s'' with
          | String h1 (String h2 (String h3 (String h4 s5))) =>
            match hex_value h1, hex_value h2, hex_value h3, hex_value h4 with
            | Some 0, Some 0, Some x, Some y => push (ascii_of_nat (16 * x + y)) (read_text s5)
            | _, _, _, _ => None
            end
          | _ => None
          end
        else
          match unescape b with
          | Some c => push c (read_text s'')
          | None => None
          end
      | EmptyString => None
      end
    else if (nat_of_ascii a <? 32)%nat then None
    else push a (read_text s')
  end.

(** The items of an array of strings, read from its first item on. *)
Fixpoint read_items (fuel : nat) (s : string) : option (list string) :=
  match fuel with
  | 0 => None
  | S fuel' =>
    match s with
    | String q s' =>
      if bool_decide (q = dquote) then
        match read_text s' with
        | Some (t, String "]" EmptyString) => Some [t]
        | Some (t, String "," (String " " rest)) => cons t <$> read_items fuel' rest
        | _ => None
        end
      else None
    | EmptyString => None
    end
  end.

(** [json.loads] on the text of an array of strings. *)
Definition loads_texts (s : string) : option (list string) :=
  match s with
  | String "[" (String "]" EmptyString) => Some []
  | String "[" s' => read_items (String.length s) s'
  | _ => None
  end.

Lemma read_escape (a : ascii) (rest : string) :
  read_text (escape a +:+ rest) = push a (read_text rest).
Proof. destruct a as [[] [] [] [] [] [] [] []]; reflexivity. Qed.

Lemma read_text_escaped (t rest : string) :
  read_text (escape_text t +:+ String dquote rest) = Some (t, rest).
Proof.
  induction t as [|a t IH]; [done|]. cbn [escape_text].
  replace ((escape a +:+ escape_text t) +:+ String dquote rest)
    with (escape a +:+ (escape_text t +:+ String dquote rest)).
  - by rewrite read_escape, IH.
  - generalize (escape a). intros e. induction e as [|x e IHe]; [done|].
    change (String x (e +:+ (escape_text t +:+ String dquote rest))
            = String x ((e +:+ escape_text t) +:+ String dquote rest)). by rewrite IHe.
Qed.

Lemma read_items_dumps (l : list string) (t : string) (fuel : nat) :
  length l < fuel ->
  read_items fuel (join_items (map dumps_text (t :: l)) +:+ "]") = Some (t :: l).
Proof.
  revert t fuel. induction l as [|t' l IH]; intros t fuel Hfuel.
  - destruct fuel as [|fuel]; [lia|].
    change (join_items (map dumps_text [t]) +:+ "]")
      with (String dquote ((escape_text t +:+ String dquote EmptyString) +:+ "]")).
    rewrite append_assoc.
    change (String dquote "" +:+ "]") with (String dquote "]").
    cbn [read_items]. rewrite bool_decide_eq_true_2 by done.
    by rewrite read_text_escaped.
  - destruct fuel as [|fuel]; [simpl in Hfuel; lia|].
    change (join_items (map dumps_text (t :: t' :: l)))
      with (dumps_text t +:+ ", " +:+ join_items (map dumps_text (t' :: l))).
    unfold dumps_text at 1.
    change (String dquote (escape_text t +:+ String dquote "") +:+ ", "
              +:+ join_items (map dumps_text (t' :: l)))
      with (String dquote ((escape_text t +:+ String dquote "") +:+ ", "
                             +:+ join_items (map dumps_text (t' :: l)))).
    change ((String dquote ?x) +:+ "]") with (String dquote (x +:+ "]")).
    rewrite !append_assoc.
    change (String dquote "" +:+ ", " +:+ join_items (map dumps_text (t' :: l)) +:+ "]")
      with (String dquote
              (String "," (String " " (join_items (map dumps_text (t' :: l)) +:+ "]")))).
    cbn [read_items]. rewrite bool_decide_eq_true_2 by done.
    rewrite read_text_escaped. rewrite IH by (simpl in Hfuel; lia). done.
Qed.

Lemma join_items_length (l : list string) (t : string) :
  length l < String.length (join_items (map dumps_text (t :: l))).
Proof.
  revert t. induction l as [|t' l IH]; intros t.
  - change (join_items (map dumps_text [t]))
      with (String dquote (escape_text t +:+ String dquote "")).
    cbn [String.length length]. lia.
  - change (join_items (map dumps_text (t :: t' :: l)))
      with (dumps_text t +:+ ", " +:+ join_items (map dumps_text (t' :: l))).
    rewrite !append_length. specialize (IH t').
    change (String.length ", ") with 2. cbn [length]. lia.
Qed.

(** X21.  Nothing of a list is lost in its JSON text: the text written for a
    list cell reads back as the list of the same texts, whatever
    characters they hold. *)
Theorem texts_round_trip (dumps_scalar : Polars.pval -> string) (l : list string) :
  loads_texts (transformer.dumps dumps_scalar (Polars.PList l)) = Some l.
Proof.
  cbn [transformer.dumps]. destruct l as [|t l]; [done|]. unfold dumps_texts.
  change ("[" +:+ ?x) with (String "[" x).
  set (J := join_items (map dumps_text (t :: l))).
  assert (exists X, J = String dquote X) as [X HX].
  { unfold J. destruct l; eexists; reflexivity. }
  assert (loads_texts (String "[" (J +:+ "]"))
          = read_items (String.length (String "[" (J +:+ "]"))) (J +:+ "]")) as ->.
  { rewrite HX. reflexivity. }
  apply read_items_dumps. cbn [String.length]. rewrite append_length.
  pose proof (join_items_length l t). fold J in H. lia.
Qed.

End json_spec.

Module handoff_spec.

Import Queue transformer cleaner.

(** X22.  From the transformer to the cleaner.  The job [publish_clean_job]
    sends for a corr_id is read by the cleaner as a job for that corr_id,
    whatever the bucket named: it is acknowledged when the cleaning of
    that corr_id completes and rejected without requeue when it raises. *)
Theorem published_job_is_cleaned (py_repr : json -> string)
    (clean_work : string -> exn + unit) (corr_id : string) (xform_bucket : option json) :
  corr_id <> "" ->
  get_corr_id_from_message py_repr (publish_clean_job (JStr corr_id) xform_bucket)
  = Some corr_id /\
  handle py_repr clean_work (publish_clean_job (JStr corr_id) xform_bucket)
  = match clean_work corr_id with inr _ => Ack | inl _ => Nack false end.
Proof.
  intros Hne. split; [reflexivity|]. unfold handle.
  change (get_corr_id_from_message py_repr (publish_clean_job (JStr corr_id) xform_bucket))
    with (Some corr_id).
  by destruct corr_id.
Qed.

Lemma published_job_is_cleaned_witness :
  handle (fun _ => "") (fun _ => inr tt) (publish_clean_job (JStr "c1") None) = Ack.
Proof.
  apply (published_job_is_cleaned (fun _ => "") (fun _ => inr tt) "c1" None). discriminate.
Defined.

End handoff_spec.

(* ===================================================================== *)
(** * Properties of a whole cleaning run                                  *)
(* ===================================================================== *)

Module pipeline_spec.

Import Facts Pandas cleaning_rules duckdb_writer duckdb_writer_spec
  Minio minio_io cleaner store_spec.

Section Run.

Variable pkx : exn.
Variable chosen : list row -> list row -> nat.
Variable repr_number : Q -> string.
Variable parse_number : string -> option Q.
Variable parse_datetime : value -> option (Z * Z * Z * Z).
Variable read_csv : string -> option DataFrame.
Variable cfg : MinioConfig.
Variable objs : list string.
Variable now : Q.

Abbreviation run :=
  (clean_run pkx chosen repr_number parse_number parse_datetime read_csv cfg objs now).

(** X23.  What a run does, with and without the ledger.  On a store
    without the ledger table (the store the writer leaves behind: its
    constructor creates none), a run whose CSV is found, read and cleaned
    and whose upsert goes through raises at [record_run], after the
    upsert: the batch is in the table and the ledger shows nothing.  A run
    completes only on a store that has a ready ledger; then a CSV was
    found, read and cleaned; the number returned is the number of cleaned
    rows; the ledger has one row for the corr_id, showing the table
    [crashes], that number and the time of the run; the keys of the store
    still hold; and, the table being declared as the batch is typed, every
    key of the cleaned batch is in the table and a stored row with the key
    of a cleaned row holds the values of one cleaned row with this key (the
    cleaning may give two rows one key). *)
Theorem clean_run_recorded (corr_id : string) (d : db) :
  store_ok d ->
  (d !! ledger = None ->
   forall csv_path df clean_df n d1,
     download_csv_for_corr cfg objs corr_id = Some csv_path ->
     read_csv csv_path = Some df ->
     apply_cleaning repr_number parse_number parse_datetime df = inr clean_df ->
     upsert pkx chosen "crashes" clean_df "crash_record_id" d = (inr n, d1) ->
     run corr_id d = (inl (Raised CatalogException), d1) /\
     ledger_rows corr_id d1 = []) /\
  (forall n d', run corr_id d = (inr n, d') ->
   exists csv_path df clean_df L,
     d !! ledger = Some L /\ ledger_ready L /\
     download_csv_for_corr cfg objs corr_id = Some csv_path /\
     read_csv csv_path = Some df /\
     apply_cleaning repr_number parse_number parse_datetime df = inr clean_df /\
     n = height clean_df /\
     store_ok d' /\
     (exists r, ledger_rows corr_id d' = [r] /\
                cell r "table_name" = VStr "crashes" /\
                cell r "row_count" = num_of_Z (Z.of_nat n) /\
                cell r "processed_at" = VNum now) /\
     (forall s, s ∈ records clean_df ->
        exists tb, d' !! "crashes" = Some tb /\
          (stored_as_is clean_df tb ->
           (exists r, r ∈ t_rows tb /\ cell r PK = cell s PK) /\
           (forall r, r ∈ t_rows tb -> cell r PK = cell s PK ->
              exists s', s' ∈ records clean_df /\ cell s' PK = cell s PK /\
                         forall c, c ∈ columns clean_df -> cell r c = cell s' c)))).
Proof.
  intros Hok.
  assert (ledger <> "crashes") as Hne by (unfold ledger; discriminate).
  split.
  - intros Hnone csv_path df clean_df n d1 Hget Hread Hclean Hup.
    assert (d1 !! ledger = None) as Hnone1.
    { rewrite <- Hnone. by apply (upsert_self_frame pkx chosen _ _ _ _ _ _ _ Hne Hup). }
    split.
    + unfold clean_run. rewrite Hget, Hread, Hclean, Hup.
      by rewrite (record_run_no_ledger chosen _ _ _ _ _ Hnone1).
    + unfold ledger_rows. by rewrite Hnone1.
  - intros n d'. unfold clean_run.
    destruct (download_csv_for_corr cfg objs corr_id) as [csv_path|]; [|done].
    destruct (read_csv csv_path) as [df|] eqn:Hread; [|done].
    destruct (apply_cleaning _ _ _ df) as [e|clean_df] eqn:Hclean; [done|].
    destruct (upsert pkx chosen "crashes" clean_df "crash_record_id" d)
      as [[e|affected] d1] eqn:Hup; [done|].
    destruct (record_run chosen now corr_id "crashes" _ d1) as [[e|[]] d2] eqn:Hrun; [done|].
    intros [= <- <-].
    assert (affected = height clean_df) as Hn.
    { destruct (empty clean_df) eqn:He.
      - unfold upsert in Hup. rewrite He in Hup. injection Hup as <- _.
        symmetry. by apply empty_height.
      - rewrite <- height_records. by eapply upsert_counts_records. }
    pose proof (upsert_store_ok pkx chosen _ _ _ _ _ _ Hok Hup) as Hok1.
    pose proof (record_run_store_ok chosen _ _ _ _ _ _ _ Hok1 Hrun) as Hok2.
    pose proof Hrun as Hinv.
    apply record_run_inv in Hinv as (L & HL & Hready & Hfit & Hd2).
    exists csv_path, df, clean_df, L.
    split.
    { rewrite <- HL. symmetry. by apply (upsert_self_frame pkx chosen _ _ _ _ _ _ _ Hne Hup). }
    split; [done|]. split; [done|]. split; [done|]. split; [done|]. split; [done|].
    split; [done|].
    destruct (recorded_row chosen now corr_id "crashes" (Z.of_nat (height clean_df))
                d1 L Hok1 HL Hready Hfit) as (r & Hrows & Ht & Hc & Hp).
    rewrite <- Hd2 in Hrows.
    split.
    { exists r. rewrite Hn. done. }
    intros s Hs.
    assert (empty clean_df = false) as He.
    { destruct (empty clean_df) eqn:He; [|done].
      apply empty_height in He. unfold records in Hs. rewrite He in Hs.
      by apply elem_of_nil in Hs. }
    destruct (upsert_stores_row pkx chosen _ _ _ _ _ _ _ He Hup Hs)
      as (tb & Htb & Hex & Hall).
    exists tb. split.
    + rewrite Hd2. by rewrite lookup_insert_ne.
    + intros _. by split.
Qed.

End Run.

(** ** A concrete run *)

Import transformer cleaning_spec.

Definition cfg0 : MinioConfig :=
  mkConfig "minio:9000" "user" "pass" false "silver" "crash" "merged.csv".

Definition run0 : string -> db -> (failure + nat) * db :=
  clean_run ConstraintException keeps_first repr0 parse0 datetime0 (fun _ => Some raw0) cfg0
            [out_key "c1"] 7.

(** On the store the writer leaves behind the run raises, the batch
    written. *)
Example clean_run_without_ledger :
  exists d1,
    run0 "c1" ∅ = (inl (Raised CatalogException), d1) /\
    (exists tb, d1 !! "crashes" = Some tb /\ length (t_rows tb) = 2) /\
    ledger_rows "c1" d1 = [].
Proof.
  eexists. split; [vm_compute; reflexivity|].
  split; [eexists; split; [vm_compute; reflexivity|reflexivity]|].
  vm_compute. reflexivity.
Qed.

Lemma clean_run_recorded_witness :
  exists csv_path df clean_df L,
    store0 !! ledger = Some L /\ ledger_ready L /\
    download_csv_for_corr cfg0 [out_key "c1"] "c1" = Some csv_path /\
    (fun _ : string => Some raw0) csv_path = Some df /\
    apply_cleaning repr0 parse0 datetime0 df = inr clean_df /\
    2 = height clean_df /\
    store_ok (run0 "c1" store0).2 /\
    (exists r, ledger_rows "c1" (run0 "c1" store0).2 = [r] /\
               cell r "table_name" = VStr "crashes" /\
               cell r "row_count" = num_of_Z (Z.of_nat 2) /\
               cell r "processed_at" = VNum 7) /\
    (forall s, s ∈ records clean_df ->
       exists tb, (run0 "c1" store0).2 !! "crashes" = Some tb /\
         (stored_as_is clean_df tb ->
          (exists r, r ∈ t_rows tb /\ cell r PK = cell s PK) /\
          (forall r, r ∈ t_rows tb -> cell r PK = cell s PK ->
             exists s', s' ∈ records clean_df /\ cell s' PK = cell s PK /\
                        forall c, c ∈ columns clean_df -> cell r c = cell s' c))).
Proof.
  assert (store_ok store0) as Hok by (apply (bool_decide_unpack _); vm_compute; exact I).
  apply (proj2 (clean_run_recorded ConstraintException keeps_first repr0 parse0 datetime0
                  (fun _ => Some raw0) cfg0 [out_key "c1"] 7 "c1" store0 Hok)
               2 (run0 "c1" store0).2).
  vm_compute. reflexivity.
Defined.

End pipeline_spec.
